(** * Escoba de 15: the rules engine, embedded and verified

    A shallow embedding of the Go package [escoba] (cards and deck, the
    combination search, the throw action, the game state machine and its
    JSON snapshot) together with the properties its specification states.

    Conventions of the embedding:
    - Go's [int] is a 64-bit two's-complement integer: a [Z] whose
      arithmetic wraps around ([GoInt.add], [GoInt.sub]);
    - [map[int]T] is a [gmap Z T]; reading a missing key yields Go's zero
      value, dereferencing a missing or nil [*Hand] or [*deck] panics;
    - the two sources of non-determinism of the package, [rand.Shuffle] and
      the iteration order of a Go map, are inputs of the functions that
      use them (record [Chance]), and so is the number [rand.Intn] draws
      for the bot;
    - [encoding/json] works on the value a JSON text denotes (type
      [json]): [json.Marshal] builds it, [json.Unmarshal] reads it into a
      fresh Go value or fails. *)

From Stdlib Require Import ZArith Ascii DecimalString DecimalZ DecimalPos.
From stdpp Require Import base tactics option list gmap strings fin_maps
  sorting.

Local Open Scope Z_scope.
Set Warnings "-clear-no-such-hyp".

(** ** Go's [int] *)

Module GoInt.

Definition wrap (z : Z) : Z := (z + 2 ^ 63) `mod` 2 ^ 64 - 2 ^ 63.

Definition add (a b : Z) : Z := wrap (a + b).
Definition sub (a b : Z) : Z := wrap (a - b).

Definition in_range (z : Z) : Prop := - 2 ^ 63 ≤ z < 2 ^ 63.

End GoInt.

(** ** Cards and deck (deck.go) *)

Definition ORO : string := "oro".
Definition COPA : string := "copa".
Definition ESPADA : string := "espada".
Definition BASTO : string := "basto".

Record Card : Type := mkCard { Suit : string; Number : Z }.

#[global] Instance Card_eq_dec : EqDecision Card.
Proof. solve_decision. Defined.

#[global] Instance Card_countable : Countable Card.
Proof.
  refine (inj_countable' (λ c, (Suit c, Number c)) (λ p, mkCard p.1 p.2) _).
  by intros [].
Defined.

(** [GetEscobaValue]: 1-7 keep their number, 10, 11, 12 become 8, 9, 10. *)
Definition GetEscobaValue (c : Card) : Z :=
  if Number c <=? 7 then Number c else GoInt.sub (Number c) 2.

Record deck : Type := mkDeck { cards : list Card }.

Record Hand : Type := mkHand { Cards : list Card }.

#[global] Instance Hand_eq_dec : EqDecision Hand.
Proof. solve_decision. Defined.

Definition suits : list string := [ORO; COPA; ESPADA; BASTO].

(** The numbers of one suit: [for i := 1; i <= 12; i++] skipping 8 and 9. *)
Definition suitNumbers : list Z :=
  filter (λ i, negb ((i =? 8) || (i =? 9)) = true) (seqZ 1 12).

(** The forty cards in the order the two loops of [makeSpanishCards] append
    them, before [rand.Shuffle] runs. *)
Definition spanishCards : list Card :=
  suit ← suits; i ← suitNumbers; [mkCard suit i].

(** [rand.Shuffle] swaps elements of the slice in place: whatever the random
    source, the result is a rearrangement of the input.  The rearrangement
    chosen is the argument [shuffle]. *)
Definition makeSpanishCards (shuffle : list Card → list Card) : list Card :=
  shuffle spanishCards.

Definition newDeck (shuffle : list Card → list Card) : deck :=
  mkDeck (makeSpanishCards shuffle).

(** [dealHand]: up to three cards off the front of the deck. *)
Fixpoint dealCards (n : nat) (d : list Card) (hand : list Card)
  : list Card * list Card :=
  match n with
  | O => (hand, d)
  | S n' =>
      match d with
      | c :: d' => dealCards n' d' (hand ++ [c])
      | [] => dealCards n' d hand
      end
  end.

Definition dealHand (d : deck) : Hand * deck :=
  let '(h, rest) := dealCards 3 (cards d) [] in (mkHand h, mkDeck rest).

(** ** Combination search (actions.go) *)

Definition lenZ {A} (l : list A) : Z := Z.of_nat (length l).

(** [sumCards] and the summation loop of [IsPossible]. *)
Definition sumCards (cs : list Card) : Z :=
  foldl (λ sum card, GoInt.add sum (GetEscobaValue card)) 0 cs.

(** [findCombinationsDFS tableCards targetSum currentCombination startIndex
    allCombinations].  The slice [tableCards[startIndex:]] is the list
    [rest]; the loop [for i := startIndex; i < len(tableCards); i++] walks
    that list, and the recursive call at [i+1] receives what follows the
    card at [i].  [all] is the accumulator behind the pointer. *)
Section DFS.

(** The body of the function up to its loop, given the loop. *)
Definition dfsEnter
      (loop : Z → list Card → list (list Card) → list (list Card))
      (rest : list Card) (targetSum : Z) (currentCombination : list Card)
      (all : list (list Card)) : list (list Card) :=
    if targetSum =? 0 then all ++ [currentCombination]
    else if (targetSum <? 0) || bool_decide (rest = []) then all
    else loop targetSum currentCombination all.

Fixpoint dfsLoop (rest : list Card) (targetSum : Z)
      (currentCombination : list Card) (all : list (list Card))
    : list (list Card) :=
    match rest with
    | [] => all
    | card :: rest' =>
        let cardValue := GetEscobaValue card in
        let newCombination := currentCombination ++ [card] in
        let all' :=
          dfsEnter (dfsLoop rest') rest' (GoInt.sub targetSum cardValue)
            newCombination all in
        dfsLoop rest' targetSum currentCombination all'
    end.

Definition findCombinationsDFS (rest : list Card) (targetSum : Z)
      (currentCombination : list Card) (all : list (list Card))
    : list (list Card) :=
    dfsEnter (dfsLoop rest) rest targetSum currentCombination all.

End DFS.

Definition findAllValidCombinations (thrownCard : Card)
    (tableCards : list Card) : list (list Card) :=
  let targetSum := 15 in
  let thrownValue := GetEscobaValue thrownCard in
  if targetSum <=? thrownValue then []
  else
    let remainingSum := GoInt.sub targetSum thrownValue in
    findCombinationsDFS tableCards remainingSum [] [].

(** ** JSON values

    [encoding/json] is used through [json.Marshal] and [json.Unmarshal]
    only.  The embedding works on the value that the text denotes: the
    tree below.  A [json.RawMessage] is such a tree kept undecoded. *)

#[warnings="-register-all"]
Inductive json : Type :=
| JNull
| JBool (b : bool)
| JNumber (n : Z)
| JString (s : string)
| JArray (items : list json)
| JObject (fields : list (string * json)).

Definition marshalCard (c : Card) : json :=
  JObject [("suit"%string, JString (Suit c));
           ("number"%string, JNumber (Number c))].

Definition marshalCards (cs : list Card) : json :=
  JArray (marshalCard <$> cs).

(** ** Actions (actions.go) *)

Definition THROW_CARD : string := "throw_card".

(** [ActionThrowCard]: the embedded [act] contributes [Name]; the Go field
    [Card] is [ThrownCard] here, since [Card] names the type. *)
Record ActionThrowCard : Type := mkActionThrowCard {
  Name : string;
  ThrownCard : Card;
  CapturedTableCards : list Card
}.

(** The interface [Action] has one implementation. *)
Abbreviation Action := ActionThrowCard.

Definition newActionThrowCard (card : Card) (capturedTableCards : list Card)
  : Action :=
  mkActionThrowCard THROW_CARD card capturedTableCards.

Definition GetName (a : Action) : string := Name a.

(** [SerializeAction]: [json.Marshal] of the struct, the promoted field of
    the embedded [act] first. *)
Definition SerializeAction (action : Action) : json :=
  JObject [("name"%string, JString (Name action));
           ("card"%string, marshalCard (ThrownCard action));
           ("capturedTableCards"%string,
             marshalCards (CapturedTableCards action))].

Definition _serializeActions (acts : list Action) : list json :=
  foldl (λ _as a, _as ++ [SerializeAction a]) [] acts.

(** ** Game state *)

Record SetResult : Type := mkSetResult {
  CardCounts : gmap Z Z;
  OroCardCounts : gmap Z Z;
  HasSieteDeOro : gmap Z bool;
  SetentaScores : gmap Z Z;
  PointsAwarded : gmap Z Z;
  EscobasThisSet : gmap Z Z
}.

(** [Deck] is the unexported field [deck]; [None] is the nil pointer, in
    [Hands] as well. *)
Record GameState : Type := mkGameState {
  RoundTurnPlayerID : Z;
  RoundNumber : Z;
  TurnPlayerID : Z;
  Hands : gmap Z (option Hand);
  TableCards : list Card;
  Piles : gmap Z (list Card);
  Escobas : gmap Z Z;
  Scores : gmap Z Z;
  PossibleActions : list json;
  RoundFinished : bool;
  SetFinished : bool;
  IsEnded : bool;
  WinnerPlayerID : Z;
  Actions : list json;
  ActionOwnerPlayerIDs : list Z;
  RoundJustStarted : bool;
  LastSetResults : option SetResult;
  LastCapturerPlayerID : Z;
  SetJustStarted : bool;
  Deck : option deck
}.

(** Field assignments [g.F = v]. *)
Definition setRoundTurnPlayerID (v : Z) (g : GameState) : GameState :=
  mkGameState v (RoundNumber g) (TurnPlayerID g) (Hands g) (TableCards g)
    (Piles g) (Escobas g) (Scores g) (PossibleActions g) (RoundFinished g)
    (SetFinished g) (IsEnded g) (WinnerPlayerID g) (Actions g)
    (ActionOwnerPlayerIDs g) (RoundJustStarted g) (LastSetResults g)
    (LastCapturerPlayerID g) (SetJustStarted g) (Deck g).
Definition setRoundNumber (v : Z) (g : GameState) : GameState :=
  mkGameState (RoundTurnPlayerID g) v (TurnPlayerID g) (Hands g)
    (TableCards g) (Piles g) (Escobas g) (Scores g) (PossibleActions g)
    (RoundFinished g) (SetFinished g) (IsEnded g) (WinnerPlayerID g)
    (Actions g) (ActionOwnerPlayerIDs g) (RoundJustStarted g)
    (LastSetResults g) (LastCapturerPlayerID g) (SetJustStarted g) (Deck g).
Definition setTurnPlayerID (v : Z) (g : GameState) : GameState :=
  mkGameState (RoundTurnPlayerID g) (RoundNumber g) v (Hands g)
    (TableCards g) (Piles g) (Escobas g) (Scores g) (PossibleActions g)
    (RoundFinished g) (SetFinished g) (IsEnded g) (WinnerPlayerID g)
    (Actions g) (ActionOwnerPlayerIDs g) (RoundJustStarted g)
    (LastSetResults g) (LastCapturerPlayerID g) (SetJustStarted g) (Deck g).
Definition setHands (v : gmap Z (option Hand)) (g : GameState) : GameState :=
  mkGameState (RoundTurnPlayerID g) (RoundNumber g) (TurnPlayerID g) v
    (TableCards g) (Piles g) (Escobas g) (Scores g) (PossibleActions g)
    (RoundFinished g) (SetFinished g) (IsEnded g) (WinnerPlayerID g)
    (Actions g) (ActionOwnerPlayerIDs g) (RoundJustStarted g)
    (LastSetResults g) (LastCapturerPlayerID g) (SetJustStarted g) (Deck g).
Definition setTableCards (v : list Card) (g : GameState) : GameState :=
  mkGameState (RoundTurnPlayerID g) (RoundNumber g) (TurnPlayerID g)
    (Hands g) v (Piles g) (Escobas g) (Scores g) (PossibleActions g)
    (RoundFinished g) (SetFinished g) (IsEnded g) (WinnerPlayerID g)
    (Actions g) (ActionOwnerPlayerIDs g) (RoundJustStarted g)
    (LastSetResults g) (LastCapturerPlayerID g) (SetJustStarted g) (Deck g).
Definition setPiles (v : gmap Z (list Card)) (g : GameState) : GameState :=
  mkGameState (RoundTurnPlayerID g) (RoundNumber g) (TurnPlayerID g)
    (Hands g) (TableCards g) v (Escobas g) (Scores g) (PossibleActions g)
    (RoundFinished g) (SetFinished g) (IsEnded g) (WinnerPlayerID g)
    (Actions g) (ActionOwnerPlayerIDs g) (RoundJustStarted g)
    (LastSetResults g) (LastCapturerPlayerID g) (SetJustStarted g) (Deck g).
Definition setEscobas (v : gmap Z Z) (g : GameState) : GameState :=
  mkGameState (RoundTurnPlayerID g) (RoundNumber g) (TurnPlayerID g)
    (Hands g) (TableCards g) (Piles g) v (Scores g) (PossibleActions g)
    (RoundFinished g) (SetFinished g) (IsEnded g) (WinnerPlayerID g)
    (Actions g) (ActionOwnerPlayerIDs g) (RoundJustStarted g)
    (LastSetResults g) (LastCapturerPlayerID g) (SetJustStarted g) (Deck g).
Definition setScores (v : gmap Z Z) (g : GameState) : GameState :=
  mkGameState (RoundTurnPlayerID g) (RoundNumber g) (TurnPlayerID g)
    (Hands g) (TableCards g) (Piles g) (Escobas g) v (PossibleActions g)
    (RoundFinished g) (SetFinished g) (IsEnded g) (WinnerPlayerID g)
    (Actions g) (ActionOwnerPlayerIDs g) (RoundJustStarted g)
    (LastSetResults g) (LastCapturerPlayerID g) (SetJustStarted g) (Deck g).
Definition setPossibleActions (v : list json) (g : GameState) : GameState :=
  mkGameState (RoundTurnPlayerID g) (RoundNumber g) (TurnPlayerID g)
    (Hands g) (TableCards g) (Piles g) (Escobas g) (Scores g) v
    (RoundFinished g) (SetFinished g) (IsEnded g) (WinnerPlayerID g)
    (Actions g) (ActionOwnerPlayerIDs g) (RoundJustStarted g)
    (LastSetResults g) (LastCapturerPlayerID g) (SetJustStarted g) (Deck g).
Definition setRoundFinished (v : bool) (g : GameState) : GameState :=
  mkGameState (RoundTurnPlayerID g) (RoundNumber g) (TurnPlayerID g)
    (Hands g) (TableCards g) (Piles g) (Escobas g) (Scores g)
    (PossibleActions g) v (SetFinished g) (IsEnded g) (WinnerPlayerID g)
    (Actions g) (ActionOwnerPlayerIDs g) (RoundJustStarted g)
    (LastSetResults g) (LastCapturerPlayerID g) (SetJustStarted g) (Deck g).
Definition setSetFinished (v : bool) (g : GameState) : GameState :=
  mkGameState (RoundTurnPlayerID g) (RoundNumber g) (TurnPlayerID g)
    (Hands g) (TableCards g) (Piles g) (Escobas g) (Scores g)
    (PossibleActions g) (RoundFinished g) v (IsEnded g) (WinnerPlayerID g)
    (Actions g) (ActionOwnerPlayerIDs g) (RoundJustStarted g)
    (LastSetResults g) (LastCapturerPlayerID g) (SetJustStarted g) (Deck g).
Definition setIsEnded (v : bool) (g : GameState) : GameState :=
  mkGameState (RoundTurnPlayerID g) (RoundNumber g) (TurnPlayerID g)
    (Hands g) (TableCards g) (Piles g) (Escobas g) (Scores g)
    (PossibleActions g) (RoundFinished g) (SetFinished g) v
    (WinnerPlayerID g) (Actions g) (ActionOwnerPlayerIDs g)
    (RoundJustStarted g) (LastSetResults g) (LastCapturerPlayerID g)
    (SetJustStarted g) (Deck g).
Definition setWinnerPlayerID (v : Z) (g : GameState) : GameState :=
  mkGameState (RoundTurnPlayerID g) (RoundNumber g) (TurnPlayerID g)
    (Hands g) (TableCards g) (Piles g) (Escobas g) (Scores g)
    (PossibleActions g) (RoundFinished g) (SetFinished g) (IsEnded g) v
    (Actions g) (ActionOwnerPlayerIDs g) (RoundJustStarted g)
    (LastSetResults g) (LastCapturerPlayerID g) (SetJustStarted g) (Deck g).
Definition setActions (v : list json) (g : GameState) : GameState :=
  mkGameState (RoundTurnPlayerID g) (RoundNumber g) (TurnPlayerID g)
    (Hands g) (TableCards g) (Piles g) (Escobas g) (Scores g)
    (PossibleActions g) (RoundFinished g) (SetFinished g) (IsEnded g)
    (WinnerPlayerID g) v (ActionOwnerPlayerIDs g) (RoundJustStarted g)
    (LastSetResults g) (LastCapturerPlayerID g) (SetJustStarted g) (Deck g).
Definition setActionOwnerPlayerIDs (v : list Z) (g : GameState) : GameState :=
  mkGameState (RoundTurnPlayerID g) (RoundNumber g) (TurnPlayerID g)
    (Hands g) (TableCards g) (Piles g) (Escobas g) (Scores g)
    (PossibleActions g) (RoundFinished g) (SetFinished g) (IsEnded g)
    (WinnerPlayerID g) (Actions g) v (RoundJustStarted g)
    (LastSetResults g) (LastCapturerPlayerID g) (SetJustStarted g) (Deck g).
Definition setRoundJustStarted (v : bool) (g : GameState) : GameState :=
  mkGameState (RoundTurnPlayerID g) (RoundNumber g) (TurnPlayerID g)
    (Hands g) (TableCards g) (Piles g) (Escobas g) (Scores g)
    (PossibleActions g) (RoundFinished g) (SetFinished g) (IsEnded g)
    (WinnerPlayerID g) (Actions g) (ActionOwnerPlayerIDs g) v
    (LastSetResults g) (LastCapturerPlayerID g) (SetJustStarted g) (Deck g).
Definition setLastSetResults (v : option SetResult) (g : GameState) : GameState :=
  mkGameState (RoundTurnPlayerID g) (RoundNumber g) (TurnPlayerID g)
    (Hands g) (TableCards g) (Piles g) (Escobas g) (Scores g)
    (PossibleActions g) (RoundFinished g) (SetFinished g) (IsEnded g)
    (WinnerPlayerID g) (Actions g) (ActionOwnerPlayerIDs g)
    (RoundJustStarted g) v (LastCapturerPlayerID g) (SetJustStarted g)
    (Deck g).
Definition setLastCapturerPlayerID (v : Z) (g : GameState) : GameState :=
  mkGameState (RoundTurnPlayerID g) (RoundNumber g) (TurnPlayerID g)
    (Hands g) (TableCards g) (Piles g) (Escobas g) (Scores g)
    (PossibleActions g) (RoundFinished g) (SetFinished g) (IsEnded g)
    (WinnerPlayerID g) (Actions g) (ActionOwnerPlayerIDs g)
    (RoundJustStarted g) (LastSetResults g) v (SetJustStarted g) (Deck g).
Definition setSetJustStarted (v : bool) (g : GameState) : GameState :=
  mkGameState (RoundTurnPlayerID g) (RoundNumber g) (TurnPlayerID g)
    (Hands g) (TableCards g) (Piles g) (Escobas g) (Scores g)
    (PossibleActions g) (RoundFinished g) (SetFinished g) (IsEnded g)
    (WinnerPlayerID g) (Actions g) (ActionOwnerPlayerIDs g)
    (RoundJustStarted g) (LastSetResults g) (LastCapturerPlayerID g) v
    (Deck g).
Definition setDeck (v : option deck) (g : GameState) : GameState :=
  mkGameState (RoundTurnPlayerID g) (RoundNumber g) (TurnPlayerID g)
    (Hands g) (TableCards g) (Piles g) (Escobas g) (Scores g)
    (PossibleActions g) (RoundFinished g) (SetFinished g) (IsEnded g)
    (WinnerPlayerID g) (Actions g) (ActionOwnerPlayerIDs g)
    (RoundJustStarted g) (LastSetResults g) (LastCapturerPlayerID g)
    (SetJustStarted g) v.

(** Reading a Go map: a missing key yields the zero value. *)
Definition getInt (m : gmap Z Z) (k : Z) : Z := default 0 (m !! k).
Definition getBool (m : gmap Z bool) (k : Z) : bool := default false (m !! k).
Definition getPile (m : gmap Z (list Card)) (k : Z) : list Card :=
  default [] (m !! k).

(** [m[k]++] and [m[k] += n]. *)
Definition addInt (k : Z) (n : Z) (m : gmap Z Z) : gmap Z Z :=
  <[k := GoInt.add (getInt m k) n]> m.

(** ** Outcomes

    A Go call returns, or panics on a nil dereference.  [Starved] belongs to
    the embedding alone: the call needed one more shuffle than [Chance]
    supplies. *)

Inductive outcome (A : Type) : Type :=
| Ret (a : A)
| Panic
| Starved.
Arguments Ret {A} a.
Arguments Panic {A}.
Arguments Starved {A}.

#[global] Instance outcome_ret : MRet outcome := @Ret.
#[global] Instance outcome_bind : MBind outcome := λ A B f m,
  match m with
  | Ret a => f a
  | Panic => Panic
  | Starved => Starved
  end.

(** The random choices one call of the package may consume. *)
Record Chance : Type := mkChance {
  shuffles : list (list Card → list Card);
  rangeOrder : list Card → list Card
}.

(** [g.Hands[id]] dereferenced, and [g.deck] dereferenced. *)
Definition handOf (g : GameState) (id : Z) : outcome Hand :=
  match Hands g !! id with
  | Some (Some h) => Ret h
  | _ => Panic
  end.

Definition deckOf (g : GameState) : outcome deck :=
  match Deck g with
  | Some d => Ret d
  | None => Panic
  end.

Definition CurrentPlayerID (g : GameState) : Z := TurnPlayerID g.

Definition OpponentOf (playerID : Z) : Z :=
  if playerID =? 0 then 1 else 0.

Definition IsDraw (g : GameState) : bool :=
  IsEnded g && (WinnerPlayerID g =? -1).

Definition YieldsTurn (a : Action) (g : GameState) : bool := true.

(** ** The throw action (actions.go) *)

(** The loop [for _, card := range hand { if card == a.Card {...; break} }]. *)
Fixpoint hasCard (c : Card) (hand : list Card) : bool :=
  match hand with
  | [] => false
  | card :: hand' => if bool_decide (card = c) then true else hasCard c hand'
  end.

(** One pass of the inner loop of [IsPossible] over [tableCopy]: the first
    card equal to [capturedCard] is cut out of the copy; [None] when the
    loop ends with [found] still false. *)
Fixpoint takeFromCopy (capturedCard : Card) (tableCopy : list Card)
  : option (list Card) :=
  match tableCopy with
  | [] => None
  | tableCard :: rest =>
      if bool_decide (tableCard = capturedCard) then Some rest
      else (tableCard ::.) <$> takeFromCopy capturedCard rest
  end.

Fixpoint allOnTable (captured : list Card) (tableCopy : list Card) : bool :=
  match captured with
  | [] => true
  | capturedCard :: captured' =>
      match takeFromCopy capturedCard tableCopy with
      | Some tableCopy' => allOnTable captured' tableCopy'
      | None => false
      end
  end.

Definition IsPossible (a : Action) (g : GameState) : outcome bool :=
  hand ← handOf g (TurnPlayerID g);
  if negb (hasCard (ThrownCard a) (Cards hand)) then Ret false
  else if lenZ (CapturedTableCards a) =? 0 then
    Ret (lenZ (findAllValidCombinations (ThrownCard a) (TableCards g)) =? 0)
  else
    let expectedSum := GoInt.sub 15 (GetEscobaValue (ThrownCard a)) in
    let actualSum := sumCards (CapturedTableCards a) in
    if negb (actualSum =? expectedSum) then Ret false
    else Ret (allOnTable (CapturedTableCards a) (TableCards g)).

(** [slices.Delete(cards, i, i+1)] at the first [i] holding [c]; no such
    [i], no change. *)
Fixpoint deleteFirst (c : Card) (hand : list Card) : list Card :=
  match hand with
  | [] => []
  | card :: hand' =>
      if bool_decide (card = c) then hand' else card :: deleteFirst c hand'
  end.

(** [removeCardsFromTable]: the table becomes the key set of a map, the
    cards of [toRemove] are deleted from it, and the keys left are read back
    in the order Go's map iteration yields them, [order]. *)
Definition removeCardsFromTable (order : list Card → list Card)
    (tableCards toRemove : list Card) : list Card :=
  let tableSet : gset Card := foldl (λ set card, {[card]} ∪ set) ∅ tableCards in
  let tableSet := foldl (λ set card, set ∖ {[card]}) tableSet toRemove in
  order (elements tableSet).

Definition error : Type := string.
Definition errActionNotPossible : error := "action not possible".
Definition errGameIsEnded : error := "game is ended".

Definition Run (order : list Card → list Card) (a : Action) (g : GameState)
  : outcome (option error * GameState) :=
  let playerID := TurnPlayerID g in
  hand ← handOf g playerID;
  let g :=
    setHands (<[playerID := Some (mkHand (deleteFirst (ThrownCard a) (Cards hand)))]>
                (Hands g)) g in
  let g :=
    if 0 <? lenZ (CapturedTableCards a) then
      let cardsToCapture := CapturedTableCards a ++ [ThrownCard a] in
      let g :=
        setPiles (<[playerID := getPile (Piles g) playerID ++ cardsToCapture]>
                    (Piles g)) g in
      let g :=
        setTableCards
          (removeCardsFromTable order (TableCards g) cardsToCapture) g in
      let g := setLastCapturerPlayerID playerID g in
      if (lenZ (TableCards g) =? 0) && (0 <? lenZ (CapturedTableCards a))
      then setEscobas (addInt playerID 1 (Escobas g)) g
      else g
    else setTableCards (TableCards g ++ [ThrownCard a]) g in
  Ret (None, g).

(** ** Legal actions *)

Definition CalculatePossibleActions (g : GameState) : outcome (list Action) :=
  hand ← handOf g (TurnPlayerID g);
  let '(actions, hasValidCombinations) :=
    foldl (λ '(actions, hasValidCombinations) card,
             let validCombinations :=
               findAllValidCombinations card (TableCards g) in
             if 0 <? lenZ validCombinations then
               (foldl (λ actions combination,
                         actions ++ [newActionThrowCard card combination])
                      actions validCombinations, true)
             else (actions, hasValidCombinations))
          ([], false) (Cards hand) in
  if negb hasValidCombinations then
    Ret (foldl (λ actions card, actions ++ [newActionThrowCard card []])
               actions (Cards hand))
  else Ret actions.

(** ** Scoring *)

Definition calculateSetenta (g : GameState) (playerID : Z) : Z :=
  let '(suitBest, suitHasCard) :=
    foldl (λ '((suitBest, suitHasCard) : gmap string Z * gmap string bool) card,
             let value := GetEscobaValue card in
             if value <=? 7 then
               if negb (default false (suitHasCard !! Suit card))
                  || (default 0 (suitBest !! Suit card) <? value)
               then (<[Suit card := value]> suitBest,
                     <[Suit card := true]> suitHasCard)
               else (suitBest, suitHasCard)
             else (suitBest, suitHasCard))
          (∅, ∅) (getPile (Piles g) playerID) in
  if Z.of_nat (size suitHasCard) <? 4 then 0
  else map_fold (λ _ value total, GoInt.add total value) 0 suitBest.

Definition players : list Z := [0; 1].

(** [scoreSet] is written in its four blocks, in the order of the source. *)

(** "Remaining table cards go to the last player who captured". *)
Definition awardTableCards (g : GameState) : GameState :=
  if 0 <? lenZ (TableCards g) then
    setTableCards []
      (setPiles
         (<[LastCapturerPlayerID g :=
              getPile (Piles g) (LastCapturerPlayerID g) ++ TableCards g]>
            (Piles g)) g)
  else g.

(** "Count total cards and oro cards for each player", and la setenta. *)
Definition countPiles (g : GameState) (result : SetResult) : SetResult :=
  foldl (λ result playerID,
           let pile := getPile (Piles g) playerID in
           let cardCounts := <[playerID := lenZ pile]> (CardCounts result) in
           let '(oro, siete) :=
             foldl (λ '(oro, siete) card,
                      if bool_decide (Suit card = ORO) then
                        (addInt playerID 1 oro,
                         if Number card =? 7
                         then <[playerID := true]> siete else siete)
                      else (oro, siete))
                   (<[playerID := 0]> (OroCardCounts result),
                    <[playerID := false]> (HasSieteDeOro result)) pile in
           mkSetResult cardCounts oro siete
             (<[playerID := calculateSetenta g playerID]>
                (SetentaScores result))
             (PointsAwarded result) (EscobasThisSet result))
        result players.

(** "Award points": escobas, most cards, most oro cards, seven of oro,
    la setenta. *)
Definition awardPoints (g : GameState) (result : SetResult) : SetResult :=
  let points :=
    foldl (λ points playerID,
             addInt playerID (getInt (Escobas g) playerID) points)
          (PointsAwarded result) players in
  let points :=
    if getInt (CardCounts result) 1 <? getInt (CardCounts result) 0
    then addInt 0 1 points
    else if getInt (CardCounts result) 0 <? getInt (CardCounts result) 1
    then addInt 1 1 points else points in
  let points :=
    if getInt (OroCardCounts result) 1 <? getInt (OroCardCounts result) 0
    then addInt 0 1 points
    else if getInt (OroCardCounts result) 0 <? getInt (OroCardCounts result) 1
    then addInt 1 1 points else points in
  let points :=
    if getBool (HasSieteDeOro result) 0 then addInt 0 1 points
    else if getBool (HasSieteDeOro result) 1 then addInt 1 1 points
    else points in
  let points :=
    if (getInt (SetentaScores result) 1 <? getInt (SetentaScores result) 0)
       && (0 <? getInt (SetentaScores result) 0)
    then addInt 0 1 points
    else if (getInt (SetentaScores result) 0 <? getInt (SetentaScores result) 1)
            && (0 <? getInt (SetentaScores result) 1)
    then addInt 1 1 points else points in
  mkSetResult (CardCounts result) (OroCardCounts result)
    (HasSieteDeOro result) (SetentaScores result) points
    (EscobasThisSet result).

(** "Apply points to scores". *)
Definition applyPoints (result : SetResult) (g : GameState) : GameState :=
  foldl (λ g playerID,
           setScores (addInt playerID (getInt (PointsAwarded result) playerID)
                        (Scores g)) g)
        g players.

(** [scoreSet], with the call [g.startNewSet()] of its last line taken as
    the argument [startNewSet]. *)
Definition scoreSetWith (startNewSet : GameState → outcome GameState)
    (g : GameState) : outcome GameState :=
  let result :=
    mkSetResult ∅ ∅ ∅ ∅ ∅
      (<[1 := getInt (Escobas g) 1]> (<[0 := getInt (Escobas g) 0]> ∅)) in
  let g := awardTableCards g in
  let result := countPiles g result in
  let result := awardPoints g result in
  let g := applyPoints result g in
  let g := setLastSetResults (Some result) g in
  if (15 <=? getInt (Scores g) 0) || (15 <=? getInt (Scores g) 1) then
    let g := setIsEnded true g in
    if getInt (Scores g) 1 <? getInt (Scores g) 0 then
      Ret (setWinnerPlayerID 0 g)
    else if getInt (Scores g) 0 <? getInt (Scores g) 1 then
      Ret (setWinnerPlayerID 1 g)
    else Ret (setWinnerPlayerID (-1) g)
  else
    let g := setRoundTurnPlayerID (OpponentOf (RoundTurnPlayerID g)) g in
    startNewSet g.

(** ** Sets and rounds *)

(** [startNewSet], with the deck [newDeck()] builds shuffled by [shuffle] and
    the call [g.startNewRound()] of its last line taken as an argument. *)
Definition startNewSetWith (startNewRound : GameState → outcome GameState)
    (shuffle : list Card → list Card) (g : GameState) : outcome GameState :=
  let g := setDeck (Some (newDeck shuffle)) g in
  let g := setTableCards [] g in
  let g := setPiles (<[1 := []]> (<[0 := []]> ∅)) g in
  let g := setEscobas (<[1 := 0]> (<[0 := 0]> ∅)) g in
  let g := setLastCapturerPlayerID (RoundTurnPlayerID g) g in
  let g := setRoundNumber 0 g in
  let g := setSetFinished false g in
  let g := setSetJustStarted true g in
  startNewRound g.

(** The loop [for i := 0; i < 4; i++] of [startNewRound]. *)
Fixpoint dealTable (n : nat) (tableCards : list Card) (d : list Card)
  : list Card * list Card :=
  match n with
  | O => (tableCards, d)
  | S n' =>
      match d with
      | c :: d' => dealTable n' (tableCards ++ [c]) d'
      | [] => dealTable n' tableCards d
      end
  end.

(** [startNewRound], the branch taken when the deck can deal two hands:
    "Deal 3 cards to each player", then "On first round, deal 4 cards to
    table" and "Check if table cards sum to 15 (dealer gets an escoba)". *)
Definition dealRound (g : GameState) (d : deck) : outcome GameState :=
  let '(h0, d) := dealHand d in
  let g := setDeck (Some d) (setHands (<[0 := Some h0]> (Hands g)) g) in
  let '(h1, d) := dealHand d in
  let g := setDeck (Some d) (setHands (<[1 := Some h1]> (Hands g)) g) in
  let g :=
    if RoundNumber g =? 1 then
      let '(tableCards, rest) := dealTable 4 (TableCards g) (cards d) in
      let g := setDeck (Some (mkDeck rest)) (setTableCards tableCards g) in
      if sumCards (TableCards g) =? 15 then
        let dealer := RoundTurnPlayerID g in
        let g :=
          setPiles (<[dealer := getPile (Piles g) dealer ++ TableCards g]>
                      (Piles g)) g in
        let g := setEscobas (addInt dealer 1 (Escobas g)) g in
        let g := setLastCapturerPlayerID dealer g in
        setTableCards [] g
      else g
    else g in
  let g := setRoundFinished false g in
  actions ← CalculatePossibleActions g;
  Ret (setPossibleActions (_serializeActions actions) g).

(** [startNewRound] calls [scoreSet], which calls [startNewSet], which calls
    [startNewRound]: every turn of that cycle builds a deck and so consumes
    one shuffle of the supply [shs]. *)
Fixpoint startNewRound (shs : list (list Card → list Card)) (g : GameState)
  {struct shs} : outcome GameState :=
  let g := setRoundJustStarted true g in
  let g := setRoundNumber (GoInt.add (RoundNumber g) 1) g in
  let g := setTurnPlayerID (RoundTurnPlayerID g) g in
  d ← deckOf g;
  if 6 <=? lenZ (cards d) then dealRound g d
  else
    let g := setSetFinished true g in
    scoreSetWith
      (λ g, match shs with
            | [] => Starved
            | shuffle :: shs' => startNewSetWith (startNewRound shs') shuffle g
            end) g.

Definition startNewSet (shs : list (list Card → list Card)) (g : GameState)
  : outcome GameState :=
  match shs with
  | [] => Starved
  | shuffle :: shs' => startNewSetWith (startNewRound shs') shuffle g
  end.

Definition scoreSet (shs : list (list Card → list Card)) (g : GameState)
  : outcome GameState :=
  scoreSetWith (startNewSet shs) g.

(** ** The entry points *)

(** [New]: the struct literal calls [newDeck()] once, [startNewSet] again. *)
Definition New (c : Chance) (opts : list (GameState → GameState))
  : outcome GameState :=
  match shuffles c with
  | [] => Starved
  | shuffle :: shs =>
      let gs :=
        {| RoundTurnPlayerID := 0;
           RoundNumber := 0;
           TurnPlayerID := 0;
           Hands := <[1 := None]> (<[0 := None]> ∅);
           TableCards := [];
           Piles := <[1 := []]> (<[0 := []]> ∅);
           Escobas := <[1 := 0]> (<[0 := 0]> ∅);
           Scores := <[1 := 0]> (<[0 := 0]> ∅);
           PossibleActions := [];
           RoundFinished := false;
           SetFinished := false;
           IsEnded := false;
           WinnerPlayerID := -1;
           Actions := [];
           ActionOwnerPlayerIDs := [];
           RoundJustStarted := false;
           LastSetResults := None;
           LastCapturerPlayerID := 0;
           SetJustStarted := false;
           Deck := Some (newDeck shuffle) |} in
      let gs := foldl (λ gs opt, opt gs) gs opts in
      startNewSet shs gs
  end.

Definition RunAction (c : Chance) (action : Action) (g : GameState)
  : outcome (option error * GameState) :=
  if IsEnded g then Ret (Some errGameIsEnded, g)
  else
    possible ← IsPossible action g;
    if negb possible then Ret (Some errActionNotPossible, g)
    else
      '(err, g) ← Run (rangeOrder c) action g;
      match err with
      | Some e => Ret (Some e, g)
      | None =>
          let g := setRoundJustStarted false g in
          let g := setSetJustStarted false g in
          let bs := SerializeAction action in
          let g := setActions (Actions g ++ [bs]) g in
          let g :=
            setActionOwnerPlayerIDs
              (ActionOwnerPlayerIDs g ++ [CurrentPlayerID g]) g in
          h0 ← handOf g 0;
          bothEmpty ←
            (if lenZ (Cards h0) =? 0
             then h1 ← handOf g 1; Ret (lenZ (Cards h1) =? 0)
             else Ret false);
          let g := if bothEmpty : bool then setRoundFinished true g else g in
          if negb (IsEnded g) && RoundFinished g && negb (SetFinished g) then
            g ← startNewRound (shuffles c) g;
            Ret (None, g)
          else if SetFinished g then Ret (None, g)
          else
            let g :=
              if negb (IsEnded g) && negb (RoundFinished g)
                 && YieldsTurn action g
              then setTurnPlayerID (OpponentOf (TurnPlayerID g)) g
              else g in
            actions ← CalculatePossibleActions g;
            Ret (None, setPossibleActions (_serializeActions actions) g)
      end.

(** ** The vocabulary of the specification *)

(** Capture values added up as integers. *)
Definition cardSum (cs : list Card) : Z :=
  foldr (λ c s, GetEscobaValue c + s) 0 cs.

(** The subsets of the table cards, a card being identified by its position:
    those that take the first card, then those that leave it. *)
Fixpoint subsets (tableCards : list Card) : list (list Card) :=
  match tableCards with
  | [] => [[]]
  | c :: rest => ((c ::.) <$> subsets rest) ++ subsets rest
  end.

(** The combination search as the specification words it: no combination
    when the target is not positive, otherwise every subset of the table
    whose capture values add up to the target. *)
Definition specCombinations (thrownCard : Card) (tableCards : list Card)
  : list (list Card) :=
  let target := 15 - GetEscobaValue thrownCard in
  if target <=? 0 then []
  else filter (λ s, cardSum s = target) (subsets tableCards).

Definition positiveValue (c : Card) : Prop := 0 < GetEscobaValue c.

(** A card of the Spanish deck. *)
Definition validCard (c : Card) : Prop := c ∈ spanishCards.

(** ** Reachable states *)

(** A supply of random choices the Go runtime can produce: shuffles and map
    iteration orders rearrange, and there are enough shuffles for one call. *)
Definition fairShuffle (shuffle : list Card → list Card) : Prop :=
  ∀ l : list Card, shuffle l ≡ₚ l.

Definition fairChance (c : Chance) : Prop :=
  (2 ≤ length (shuffles c))%nat
  ∧ Forall fairShuffle (shuffles c)
  ∧ fairShuffle (rangeOrder c).

(** The states a game goes through: [New()], then any calls of
    [RunAction]. *)
Inductive Reachable : GameState → Prop :=
| Reachable_New c g :
    fairChance c → New c [] = Ret g → Reachable g
| Reachable_RunAction c action g err g' :
    fairChance c → Reachable g → RunAction c action g = Ret (err, g') →
    Reachable g'.

Definition isPlayer (id : Z) : Prop := id = 0 ∨ id = 1.

Definition handCards (g : GameState) (id : Z) : list Card :=
  match Hands g !! id with
  | Some (Some h) => Cards h
  | _ => []
  end.

Definition deckCards (g : GameState) : list Card :=
  match Deck g with
  | Some d => cards d
  | None => []
  end.

(** Every card the state holds: hands, table, piles, and the cards not
    dealt yet. *)
Definition allCards (g : GameState) : list Card :=
  handCards g 0 ++ handCards g 1 ++ TableCards g
  ++ getPile (Piles g) 0 ++ getPile (Piles g) 1 ++ deckCards g.

(** Who holds how many cards while a round runs: the dealer moves first, so
    the hands are level on the dealer's turn and the opponent is one card
    ahead on their own. *)
Definition balanced (g : GameState) : Prop :=
  let mine := length (handCards g (TurnPlayerID g)) in
  let theirs := length (handCards g (OpponentOf (TurnPlayerID g))) in
  if bool_decide (TurnPlayerID g = RoundTurnPlayerID g)
  then mine = theirs ∧ (1 ≤ mine)%nat
  else mine = S theirs.

Definition present (g : GameState) (id : Z) : Prop :=
  ∃ h, Hands g !! id = Some (Some h).

Record Inv (g : GameState) : Prop := mkInv {
  inv_hand0 : present g 0;
  inv_hand1 : present g 1;
  inv_deck : is_Some (Deck g);
  inv_cards : allCards g ≡ₚ spanishCards;
  inv_turn : isPlayer (TurnPlayerID g);
  inv_dealer : isPlayer (RoundTurnPlayerID g);
  inv_capturer : isPlayer (LastCapturerPlayerID g);
  inv_running :
    IsEnded g = false →
    RoundFinished g = false ∧ SetFinished g = false ∧ balanced g
}.

(** ** Concrete games

    Two supplies of random choices: one leaves the deck in the order
    [makeSpanishCards] builds it, the other reverses it; both read a map's
    keys in the order [elements] lists them. *)

Definition plainChance : Chance := mkChance [id; id] id.
Definition reverseChance : Chance := mkChance [reverse; reverse] id.

(** Go's zero value [GameState{}]. *)
Definition zeroState : GameState :=
  mkGameState 0 0 0 ∅ [] ∅ ∅ ∅ [] false false false 0 [] [] false None 0
    false None.

Definition stateOf (o : outcome GameState) : GameState :=
  match o with
  | Ret g => g
  | _ => zeroState
  end.

Definition afterAction (c : Chance) (a : Action) (g : GameState) : GameState :=
  match RunAction c a g with
  | Ret (_, g') => g'
  | _ => zeroState
  end.

(** The opening state of the game dealt from the reversed deck: player 0
    holds the 12, 11 and 10 of bastos, player 1 the 7, 6 and 5, and the
    table shows the 4, 3, 2 and 1. *)
Definition openingState : GameState :=
  Eval vm_compute in stateOf (New reverseChance []).


(** The cards in play: both hands, the table and both piles. *)
Definition heldCards (g : GameState) : list Card :=
  handCards g 0 ++ handCards g 1 ++ TableCards g
  ++ getPile (Piles g) 0 ++ getPile (Piles g) 1.

(** What the loop of [CalculatePossibleActions] collects: the actions it
    appends, and whether it raises [hasAnyCombination]. *)
Definition foundActions (tableCards hand : list Card) : list Action :=
  card ← hand;
  newActionThrowCard card <$> findAllValidCombinations card tableCards.

Definition findsCapture (tableCards : list Card) (card : Card) : Prop :=
  findAllValidCombinations card tableCards ≠ [].

(** The legal moves as the specification words them: a card can capture
    when some subset of the table adds up with it to 15; the captures are
    one action per hand card and such subset, the discards one capture-free
    action per hand card. *)
Definition canCapture (tableCards : list Card) (card : Card) : Prop :=
  specCombinations card tableCards ≠ [].

Definition captureActions (tableCards hand : list Card) : list Action :=
  card ← hand;
  newActionThrowCard card <$> specCombinations card tableCards.

Definition discardActions (hand : list Card) : list Action :=
  (λ card, newActionThrowCard card []) <$> hand.

(** A driver for concrete games: the player to move throws the first of
    the legal actions. *)
Definition firstAction (g : GameState) : Action :=
  match CalculatePossibleActions g with
  | Ret (a :: _) => a
  | _ => newActionThrowCard (mkCard ORO 1) []
  end.

Definition playFirst (c : Chance) (g : GameState) : GameState :=
  afterAction c (firstAction g) g.

(** The game of [openingState] five throws later: player 1 holds the last
    card of round 1. *)
Definition beforeRoundTwo : GameState :=
  Eval vm_compute in Nat.iter 5 (playFirst reverseChance) openingState.

Definition lastThrow : Action :=
  Eval vm_compute in firstAction beforeRoundTwo.

Definition roundTwo : GameState :=
  Eval vm_compute in afterAction reverseChance lastThrow beforeRoundTwo.

(** The state [RunAction] hands to [startNewRound] once [lastThrow] has
    emptied the second hand. *)
Definition roundOneOver : GameState :=
  Eval vm_compute in
    match Run id lastThrow beforeRoundTwo with
    | Ret (_, g) =>
        setRoundFinished true
          (setActionOwnerPlayerIDs
             (ActionOwnerPlayerIDs g ++ [CurrentPlayerID g])
             (setActions (Actions g ++ [SerializeAction lastThrow])
                (setSetJustStarted false (setRoundJustStarted false g))))
    | _ => zeroState
    end.

(** ** Scoring as the specification words it *)

(** The capture values of the cards of [pile] that are of [suit] and worth
    7 or less. *)
Definition lowValues (suit : string) (pile : list Card) : list Z :=
  GetEscobaValue <$>
    filter (λ c, Suit c = suit ∧ GetEscobaValue c ≤ 7) pile.

Definition highest (values : list Z) : Z := foldr Z.max 0 values.

(** La setenta: the best card of 7 or less of each of the four suits, added
    up; nothing unless every suit has one. *)
Definition specSetenta (pile : list Card) : Z :=
  if bool_decide (Forall (λ suit, lowValues suit pile ≠ []) suits)
  then foldr (λ suit total, highest (lowValues suit pile) + total) 0 suits
  else 0.

Definition oroCount (pile : list Card) : Z :=
  lenZ (filter (λ c, Suit c = ORO) pile).

Definition hasSieteDeOro (pile : list Card) : bool :=
  bool_decide (mkCard ORO 7 ∈ pile).

Definition point (b : bool) : Z := if b then 1 else 0.

(** The points of a set for the player holding [mine] against [theirs]:
    one per escoba, one for strictly more cards, one for strictly more
    oros, one for the seven of oros, one for the strictly higher setenta
    when it is not zero. *)
Definition specPoints (escobas : Z) (mine theirs : list Card) : Z :=
  escobas
  + point (lenZ theirs <? lenZ mine)
  + point (oroCount theirs <? oroCount mine)
  + point (hasSieteDeOro mine)
  + point ((specSetenta theirs <? specSetenta mine)
           && (0 <? specSetenta mine)).

(** A counter far from the bounds of [int]. *)
Definition counter (z : Z) : Prop := 0 ≤ z < 2 ^ 32.

(** What the two maps of [calculateSetenta] hold once its loop has run over
    [pile]. *)
Definition setentaMaps (pile : list Card)
    (maps : gmap string Z * gmap string bool) : Prop :=
  ∀ suit,
    maps.1 !! suit
      = (if bool_decide (lowValues suit pile = []) then None
         else Some (highest (lowValues suit pile)))
    ∧ maps.2 !! suit
      = (if bool_decide (lowValues suit pile = []) then None else Some true).

(** The game of [openingState] thirty-five throws later: one card is left
    to throw in the last round of the set. *)
Definition lateState : GameState :=
  Eval vm_compute in Nat.iter 35 (playFirst reverseChance) openingState.

(** ** Decoding JSON (json.Marshal and json.Unmarshal on the other types)

    [json.Unmarshal] is called on fresh values only.  A decoder takes the
    JSON value read and returns [None] where [Unmarshal] returns an error.
    In an object decoded into a struct, a key that is absent leaves the
    field at its zero value, and so does [null]; keys that name no field
    are skipped; of two equal keys the later one is kept.  The keys are
    taken as the field tags spell them, which is how [json.Marshal] writes
    them.  A number is an integer literal; one that does not fit [int] is
    an error.  A slice is written as an array and a map as an object: the
    embedding does not tell a nil slice or map, written [null], from an
    empty one, and both are read back as empty. *)

Fixpoint lookupField (name : string) (fields : list (string * json))
  : option json :=
  match fields with
  | [] => None
  | (key, value) :: rest =>
      match lookupField name rest with
      | Some later => Some later
      | None => if String.eqb key name then Some value else None
      end
  end.

Definition field {A} (name : string) (decode : json → option A) (zero : A)
    (fields : list (string * json)) : option A :=
  match lookupField name fields with
  | Some value => decode value
  | None => Some zero
  end.

Definition unmarshalString (j : json) : option string :=
  match j with
  | JNull => Some ""%string
  | JString s => Some s
  | _ => None
  end.

Definition unmarshalInt (j : json) : option Z :=
  match j with
  | JNull => Some 0
  | JNumber n => if bool_decide (GoInt.in_range n) then Some n else None
  | _ => None
  end.

Definition unmarshalBool (j : json) : option bool :=
  match j with
  | JNull => Some false
  | JBool b => Some b
  | _ => None
  end.

(** A [json.RawMessage] keeps the value as it is read, [null] too. *)
Definition unmarshalRaw (j : json) : option json := Some j.

Definition unmarshalSlice {A} (item : json → option A) (j : json)
  : option (list A) :=
  match j with
  | JNull => Some []
  | JArray items => mapM item items
  | _ => None
  end.

Definition marshalPointer {A} (target : A → json) (p : option A) : json :=
  match p with
  | None => JNull
  | Some a => target a
  end.

Definition unmarshalPointer {A} (target : json → option A) (j : json)
  : option (option A) :=
  match j with
  | JNull => Some None
  | _ => Some <$> target j
  end.

(** The keys of a [map[int]T]: [strconv.FormatInt] and [strconv.ParseInt]
    in base 10. *)
Definition formatKey (k : Z) : string := NilZero.string_of_int (Z.to_int k).

Definition parseKey (s : string) : option Z :=
  n ← match s with
      | String "+"%char digits => Z.of_uint <$> NilZero.uint_of_string digits
      | _ => Z.of_int <$> NilZero.int_of_string s
      end;
  if bool_decide (GoInt.in_range n) then Some n else None.

(** [json.Marshal] writes the keys of a map sorted as strings. *)
Definition keyOrder (x y : string * json) : Prop :=
  String.leb x.1 y.1 = true.

#[global] Instance keyOrder_dec x y : Decision (keyOrder x y).
Proof. unfold keyOrder. apply _. Defined.

Definition marshalMap {A} (item : A → json) (m : gmap Z A) : json :=
  JObject (merge_sort keyOrder
             ((λ kv, (formatKey kv.1, item kv.2)) <$> map_to_list m)).

Definition unmarshalMap {A} (item : json → option A) (j : json)
  : option (gmap Z A) :=
  match j with
  | JNull => Some ∅
  | JObject fields =>
      foldl (λ acc kv,
               m ← acc; k ← parseKey kv.1; v ← item kv.2;
               Some (<[k := v]> m))
            (Some ∅) fields
  | _ => None
  end.

Definition unmarshalCard (j : json) : option Card :=
  match j with
  | JNull => Some (mkCard "" 0)
  | JObject fields =>
      suit ← field "suit" unmarshalString ""%string fields;
      number ← field "number" unmarshalInt 0 fields;
      Some (mkCard suit number)
  | _ => None
  end.

Definition marshalHand (h : Hand) : json :=
  JObject [("cards"%string, marshalCards (Cards h))].

Definition unmarshalHand (j : json) : option Hand :=
  match j with
  | JNull => Some (mkHand [])
  | JObject fields =>
      mkHand <$> field "cards" (unmarshalSlice unmarshalCard) [] fields
  | _ => None
  end.

Definition marshalSetResult (r : SetResult) : json :=
  JObject [("cardCounts"%string, marshalMap JNumber (CardCounts r));
           ("oroCardCounts"%string, marshalMap JNumber (OroCardCounts r));
           ("hasSieteDeOro"%string, marshalMap JBool (HasSieteDeOro r));
           ("setentaScores"%string, marshalMap JNumber (SetentaScores r));
           ("pointsAwarded"%string, marshalMap JNumber (PointsAwarded r));
           ("escobasThisSet"%string, marshalMap JNumber (EscobasThisSet r))].

Definition unmarshalSetResult (j : json) : option SetResult :=
  match j with
  | JNull => Some (mkSetResult ∅ ∅ ∅ ∅ ∅ ∅)
  | JObject fields =>
      cardCounts ← field "cardCounts" (unmarshalMap unmarshalInt) ∅ fields;
      oroCardCounts ←
        field "oroCardCounts" (unmarshalMap unmarshalInt) ∅ fields;
      hasSieteDeOro ←
        field "hasSieteDeOro" (unmarshalMap unmarshalBool) ∅ fields;
      setentaScores ←
        field "setentaScores" (unmarshalMap unmarshalInt) ∅ fields;
      pointsAwarded ←
        field "pointsAwarded" (unmarshalMap unmarshalInt) ∅ fields;
      escobasThisSet ←
        field "escobasThisSet" (unmarshalMap unmarshalInt) ∅ fields;
      Some (mkSetResult cardCounts oroCardCounts hasSieteDeOro setentaScores
              pointsAwarded escobasThisSet)
  | _ => None
  end.

(** [json.Marshal] of a [GameState]: the exported fields in the order of
    the struct; [deck] is unexported and tagged ["-"], and is not
    written. *)
Definition marshalGameState (g : GameState) : json :=
  JObject
    [("roundTurnPlayerID"%string, JNumber (RoundTurnPlayerID g));
     ("roundNumber"%string, JNumber (RoundNumber g));
     ("turnPlayerID"%string, JNumber (TurnPlayerID g));
     ("hands"%string, marshalMap (marshalPointer marshalHand) (Hands g));
     ("tableCards"%string, marshalCards (TableCards g));
     ("piles"%string, marshalMap marshalCards (Piles g));
     ("escobas"%string, marshalMap JNumber (Escobas g));
     ("scores"%string, marshalMap JNumber (Scores g));
     ("possibleActions"%string, JArray (PossibleActions g));
     ("roundFinished"%string, JBool (RoundFinished g));
     ("setFinished"%string, JBool (SetFinished g));
     ("isEnded"%string, JBool (IsEnded g));
     ("winnerPlayerID"%string, JNumber (WinnerPlayerID g));
     ("actions"%string, JArray (Actions g));
     ("actionOwnerPlayerIDs"%string,
       JArray (JNumber <$> ActionOwnerPlayerIDs g));
     ("roundJustStarted"%string, JBool (RoundJustStarted g));
     ("lastSetResults"%string,
       marshalPointer marshalSetResult (LastSetResults g));
     ("lastCapturerPlayerID"%string, JNumber (LastCapturerPlayerID g));
     ("setJustStarted"%string, JBool (SetJustStarted g))].

(** [json.Unmarshal] into a fresh [GameState]: nothing is read into
    [deck], which stays nil. *)
Definition unmarshalGameState (j : json) : option GameState :=
  match j with
  | JNull => Some zeroState
  | JObject fields =>
      roundTurnPlayerID ← field "roundTurnPlayerID" unmarshalInt 0 fields;
      roundNumber ← field "roundNumber" unmarshalInt 0 fields;
      turnPlayerID ← field "turnPlayerID" unmarshalInt 0 fields;
      hands ←
        field "hands" (unmarshalMap (unmarshalPointer unmarshalHand)) ∅
          fields;
      tableCards ←
        field "tableCards" (unmarshalSlice unmarshalCard) [] fields;
      piles ←
        field "piles" (unmarshalMap (unmarshalSlice unmarshalCard)) ∅ fields;
      escobas ← field "escobas" (unmarshalMap unmarshalInt) ∅ fields;
      scores ← field "scores" (unmarshalMap unmarshalInt) ∅ fields;
      possibleActions ←
        field "possibleActions" (unmarshalSlice unmarshalRaw) [] fields;
      roundFinished ← field "roundFinished" unmarshalBool false fields;
      setFinished ← field "setFinished" unmarshalBool false fields;
      isEnded ← field "isEnded" unmarshalBool false fields;
      winnerPlayerID ← field "winnerPlayerID" unmarshalInt 0 fields;
      actions ← field "actions" (unmarshalSlice unmarshalRaw) [] fields;
      actionOwnerPlayerIDs ←
        field "actionOwnerPlayerIDs" (unmarshalSlice unmarshalInt) [] fields;
      roundJustStarted ← field "roundJustStarted" unmarshalBool false fields;
      lastSetResults ←
        field "lastSetResults" (unmarshalPointer unmarshalSetResult) None
          fields;
      lastCapturerPlayerID ←
        field "lastCapturerPlayerID" unmarshalInt 0 fields;
      setJustStarted ← field "setJustStarted" unmarshalBool false fields;
      Some (mkGameState roundTurnPlayerID roundNumber turnPlayerID hands
              tableCards piles escobas scores possibleActions roundFinished
              setFinished isEnded winnerPlayerID actions actionOwnerPlayerIDs
              roundJustStarted lastSetResults lastCapturerPlayerID
              setJustStarted None)
  | _ => None
  end.

(** ** Reading an action back (DeserializeAction) *)

(** The two errors of [DeserializeAction]: the one [json.Unmarshal]
    returns, and ["unknown action type"] with the name read. *)
Inductive deserializeError : Type :=
| errUnmarshal
| errUnknownActionType (name : string).

(** [json.Unmarshal] into the anonymous struct with the one field [Name]. *)
Definition unmarshalActionName (bs : json) : option string :=
  match bs with
  | JNull => Some ""%string
  | JObject fields => field "name" unmarshalString ""%string fields
  | _ => None
  end.

(** [json.Unmarshal] into [&ActionThrowCard{}]. *)
Definition unmarshalActionThrowCard (bs : json) : option ActionThrowCard :=
  match bs with
  | JNull => Some (mkActionThrowCard "" (mkCard "" 0) [])
  | JObject fields =>
      name ← field "name" unmarshalString ""%string fields;
      card ← field "card" unmarshalCard (mkCard "" 0) fields;
      capturedTableCards ←
        field "capturedTableCards" (unmarshalSlice unmarshalCard) [] fields;
      Some (mkActionThrowCard name card capturedTableCards)
  | _ => None
  end.

Definition DeserializeAction (bs : json) : deserializeError + Action :=
  match unmarshalActionName bs with
  | None => inl errUnmarshal
  | Some name =>
      if bool_decide (name = THROW_CARD) then
        match unmarshalActionThrowCard bs with
        | None => inl errUnmarshal
        | Some action => inr action
        end
      else inl (errUnknownActionType name)
  end.

(** ** The game state as a server message (package server) *)

Module server.

Definition MessageTypeHeresGameState : Z := 1.

(** [WebsocketMessage] is embedded: its [Type] is a field of the message. *)
Record MessageHeresGameState : Type := mkMessageHeresGameState {
  Type_ : Z;
  GameState_ : json
}.

(** [json.Marshal] returns no error on a [GameState]. *)
Definition NewMessageHeresGameState (gameState : GameState)
  : MessageHeresGameState :=
  mkMessageHeresGameState MessageTypeHeresGameState
    (marshalGameState gameState).

Definition Deserialize (gs : MessageHeresGameState) : option GameState :=
  unmarshalGameState (GameState_ gs).

End server.

(** ** Values of the Go types

    What an [int] and a written string hold: 64 bits, and text that
    [json.Marshal] writes as it is (it replaces bytes that are not
    UTF-8; the text of the game is ASCII). *)
#[global] Instance in_range_dec z : Decision (GoInt.in_range z).
Proof. unfold GoInt.in_range. apply _. Defined.

Definition goString (s : string) : Prop :=
  Forall (λ a, (nat_of_ascii a < 128)%nat) (String.list_ascii_of_string s).

#[global] Instance goString_dec s : Decision (goString s).
Proof. unfold goString. apply _. Defined.

Definition goCard (c : Card) : Prop :=
  goString (Suit c) ∧ GoInt.in_range (Number c).

#[global] Instance goCard_dec c : Decision (goCard c).
Proof. unfold goCard. apply _. Defined.

Definition goMap {A} (P : A → Prop) (m : gmap Z A) : Prop :=
  map_Forall (λ k v, GoInt.in_range k ∧ P v) m.

#[global] Instance goMap_dec {A} (P : A → Prop) `{!∀ v, Decision (P v)} m :
  Decision (goMap P m).
Proof. unfold goMap. apply _. Defined.

Definition goHand (h : option Hand) : Prop :=
  from_option (λ h, Forall goCard (Cards h)) True h.

#[global] Instance goHand_dec h : Decision (goHand h).
Proof. unfold goHand. destruct h; apply _. Defined.

Definition goSetResult (r : SetResult) : Prop :=
  goMap GoInt.in_range (CardCounts r)
  ∧ goMap GoInt.in_range (OroCardCounts r)
  ∧ goMap (λ _, True) (HasSieteDeOro r)
  ∧ goMap GoInt.in_range (SetentaScores r)
  ∧ goMap GoInt.in_range (PointsAwarded r)
  ∧ goMap GoInt.in_range (EscobasThisSet r).

#[global] Instance goSetResult_dec r : Decision (goSetResult r).
Proof. unfold goSetResult. apply _. Defined.

Definition goState (g : GameState) : Prop :=
  Forall GoInt.in_range
    [RoundTurnPlayerID g; RoundNumber g; TurnPlayerID g; WinnerPlayerID g;
     LastCapturerPlayerID g]
  ∧ Forall GoInt.in_range (ActionOwnerPlayerIDs g)
  ∧ Forall goCard (TableCards g)
  ∧ goMap goHand (Hands g)
  ∧ goMap (Forall goCard) (Piles g)
  ∧ goMap GoInt.in_range (Escobas g)
  ∧ goMap GoInt.in_range (Scores g)
  ∧ from_option goSetResult True (LastSetResults g).

#[global] Instance goState_dec g : Decision (goState g).
Proof. unfold goState. destruct (LastSetResults g); apply _. Defined.

(** ** States of a running game *)

(** A state advertises its legal actions: [PossibleActions] holds the
    enumeration of [CalculatePossibleActions], serialized. *)
Definition advertised (g : GameState) : Prop :=
  ∃ actions,
    CalculatePossibleActions g = Ret actions
    ∧ PossibleActions g = SerializeAction <$> actions.

(** The state of [RunAction] once the throw has run and has been recorded
    in the history of the game. *)
Definition recorded (a : Action) (g : GameState) : GameState :=
  setActionOwnerPlayerIDs (ActionOwnerPlayerIDs g ++ [TurnPlayerID g])
    (setActions (Actions g ++ [SerializeAction a])
       (setSetJustStarted false (setRoundJustStarted false g))).

(** ** The bot (bot.go) *)

(** [rand.Intn(n)] returns, for a positive [n], a number from 0 up to
    [n - 1]; the number it returns is the argument [intn]. *)
Definition fairIntn (intn : Z → Z) : Prop :=
  ∀ n, 0 < n → 0 ≤ intn n < n.

(** [ChooseAction]: [None] is the nil action; indexing outside the slice
    panics. *)
Definition ChooseAction (intn : Z → Z) (gameState : GameState)
  : outcome (option Action) :=
  actions ← CalculatePossibleActions gameState;
  if lenZ actions =? 0 then Ret None
  else
    let randomIndex := intn (lenZ actions) in
    if randomIndex <? 0 then Panic
    else
      match actions !! Z.to_nat randomIndex with
      | Some action => Ret (Some action)
      | None => Panic
      end.

(** The game of [openingState] played to its last throw: 143 throws in,
    the 144th ends the fourth set and the game, 16 points to 14. *)
Definition matchPoint : GameState :=
  Eval vm_compute in Nat.iter 143 (playFirst reverseChance) openingState.

Definition finalThrow : Action :=
  Eval vm_compute in firstAction matchPoint.

Definition gameOver : GameState :=
  Eval vm_compute in afterAction reverseChance finalThrow matchPoint.

(** * Properties *)

(** ** Arithmetic of [int] *)

Lemma wrap_in_range z : GoInt.in_range z → GoInt.wrap z = z.
Proof.
  unfold GoInt.in_range, GoInt.wrap. intros Hz.
  rewrite Z.mod_small; lia.
Qed.

Lemma wrap_range z : GoInt.in_range (GoInt.wrap z).
Proof.
  unfold GoInt.in_range, GoInt.wrap.
  pose proof (Z.mod_pos_bound (z + 2 ^ 63) (2 ^ 64)). lia.
Qed.

Lemma add_small a b : GoInt.in_range (a + b) → GoInt.add a b = a + b.
Proof. apply wrap_in_range. Qed.

Lemma sub_small a b : GoInt.in_range (a - b) → GoInt.sub a b = a - b.
Proof. apply wrap_in_range. Qed.

(** ** Combination search *)

Lemma GetEscobaValue_upper c : GetEscobaValue c < 2 ^ 63.
Proof.
  unfold GetEscobaValue. destruct (Z.leb_spec (Number c) 7); [lia|].
  pose proof (wrap_range (Number c - 2)) as Hr.
  unfold GoInt.sub, GoInt.in_range in *. lia.
Qed.

Lemma sub_value target c :
  0 < target < 2 ^ 63 → positiveValue c →
  GoInt.sub target (GetEscobaValue c) = target - GetEscobaValue c.
Proof.
  intros Ht Hc. apply sub_small. pose proof (GetEscobaValue_upper c).
  unfold positiveValue, GoInt.in_range in *. lia.
Qed.

Lemma filter_sum_cons c t (l : list (list Card)) :
  filter (λ s, cardSum s = t) ((c ::.) <$> l)
  = (c ::.) <$> filter (λ s, cardSum s = t - GetEscobaValue c) l.
Proof.
  induction l as [|s l IH]; [done|].
  rewrite fmap_cons, !filter_cons, IH. simpl.
  repeat case_decide; try done; lia.
Qed.

Lemma subsets_sum_negative rest t :
  Forall positiveValue rest → t < 0 →
  filter (λ s, cardSum s = t) (subsets rest) = [].
Proof.
  intros Hpos. revert t.
  induction Hpos as [|c rest Hc _ IH]; intros t Ht; simpl.
  - rewrite filter_cons, filter_nil. simpl. case_decide; [lia|done].
  - rewrite filter_app, filter_sum_cons.
    unfold positiveValue in Hc. rewrite !IH by lia. done.
Qed.

Lemma subsets_sum_zero rest :
  Forall positiveValue rest →
  filter (λ s, cardSum s = 0) (subsets rest) = [[]].
Proof.
  induction 1 as [|c rest Hc Hpos IH]; simpl.
  - by rewrite filter_cons, filter_nil.
  - rewrite filter_app, filter_sum_cons, IH.
    unfold positiveValue in Hc.
    rewrite subsets_sum_negative by (done || lia). done.
Qed.

Lemma dfsLoop_subsets rest :
  Forall positiveValue rest →
  ∀ target cur all, 0 < target < 2 ^ 63 →
    dfsLoop rest target cur all
    = all ++ ((cur ++.) <$> filter (λ s, cardSum s = target) (subsets rest)).
Proof.
  induction 1 as [|c rest Hc Hpos IH]; intros target cur all Ht; simpl.
  - rewrite filter_cons, filter_nil. simpl.
    case_decide; [lia|]. by rewrite app_nil_r.
  - rewrite sub_value by done.
    rewrite filter_app, filter_sum_cons, fmap_app, app_assoc.
    rewrite IH by done. f_equal.
    pose proof (GetEscobaValue_upper c). unfold positiveValue in Hc.
    set (t' := target - GetEscobaValue c).
    rewrite <-list_fmap_compose. unfold dfsEnter.
    destruct (Z.eqb_spec t' 0) as [->|Hne].
    { rewrite subsets_sum_zero by done. done. }
    destruct (Z.ltb_spec t' 0) as [Hneg|Hge]; simpl.
    { by rewrite subsets_sum_negative, app_nil_r. }
    case_bool_decide as Hnil.
    { subst rest. simpl. rewrite filter_cons, filter_nil. simpl.
      case_decide; [lia|]. by rewrite app_nil_r. }
    rewrite IH by (subst t'; lia). f_equal.
    apply list_fmap_ext; intros _ s _. simpl. by rewrite <-app_assoc.
Qed.

Lemma findAllValidCombinations_spec thrownCard tableCards :
  positiveValue thrownCard → Forall positiveValue tableCards →
  findAllValidCombinations thrownCard tableCards
  = specCombinations thrownCard tableCards.
Proof.
  intros Hthrown Htable. unfold positiveValue in Hthrown.
  unfold findAllValidCombinations, specCombinations.
  destruct (Z.leb_spec 15 (GetEscobaValue thrownCard)) as [Hhigh|Hlow].
  { destruct (Z.leb_spec (15 - GetEscobaValue thrownCard) 0); [done|lia]. }
  destruct (Z.leb_spec (15 - GetEscobaValue thrownCard) 0); [lia|].
  rewrite sub_small by (unfold GoInt.in_range; lia).
  unfold findCombinationsDFS, dfsEnter.
  destruct (Z.eqb_spec (15 - GetEscobaValue thrownCard) 0); [lia|].
  destruct (Z.ltb_spec (15 - GetEscobaValue thrownCard) 0); [lia|]. simpl.
  case_bool_decide as Hnil.
  { subst. simpl. rewrite filter_cons, filter_nil. simpl.
    by case_decide; [lia|]. }
  rewrite dfsLoop_subsets by (done || lia). simpl.
  induction (filter _ _); [done|]. simpl. by f_equal.
Qed.

(** ** Cards of the deck *)

Lemma spanishCards_values :
  Forall (λ c, 1 ≤ GetEscobaValue c ≤ 10) spanishCards.
Proof. compute_done. Qed.

Lemma spanishCards_NoDup : NoDup spanishCards.
Proof. compute_done. Qed.

Lemma spanishCards_length : length spanishCards = 40%nat.
Proof. reflexivity. Qed.

Lemma validCard_value c : validCard c → 1 ≤ GetEscobaValue c ≤ 10.
Proof.
  intros Hc. pose proof spanishCards_values as Hall.
  rewrite Forall_forall in Hall. by apply Hall.
Qed.

Lemma validCard_positive c : validCard c → positiveValue c.
Proof. intros Hc%validCard_value. unfold positiveValue. lia. Qed.

Lemma validCards_positive cs : Forall validCard cs → Forall positiveValue cs.
Proof. intros H. eapply Forall_impl; [done|]. apply validCard_positive. Qed.

Lemma lenZ_eqb_0 {A} (l : list A) : (lenZ l =? 0) = bool_decide (l = []).
Proof.
  destruct l; [done|]. rewrite bool_decide_eq_false_2 by done.
  apply Z.eqb_neq. unfold lenZ. simpl. lia.
Qed.

Lemma lenZ_ltb_0 {A} (l : list A) : (0 <? lenZ l) = negb (bool_decide (l = [])).
Proof.
  destruct l; [done|]. rewrite bool_decide_eq_false_2 by done.
  apply Z.ltb_lt. unfold lenZ. simpl. lia.
Qed.

(** The wrapping sum of the code is the integer sum on cards of the deck. *)
Lemma sumCards_from acc cs :
  Forall validCard cs → 0 ≤ acc → acc + 10 * lenZ cs < 2 ^ 63 →
  foldl (λ sum card, GoInt.add sum (GetEscobaValue card)) acc cs
  = acc + cardSum cs.
Proof.
  intros Hcs. revert acc.
  induction Hcs as [|c cs Hc%validCard_value _ IH]; intros acc Hacc Hbound;
    simpl; [lia|].
  unfold lenZ in *. simpl length in Hbound.
  rewrite add_small by (unfold GoInt.in_range; lia).
  rewrite IH by lia. lia.
Qed.

Lemma sumCards_cardSum cs :
  Forall validCard cs → lenZ cs < 2 ^ 32 → sumCards cs = cardSum cs.
Proof.
  intros Hcs Hlen. unfold sumCards. rewrite sumCards_from by (done || lia).
  lia.
Qed.

(** ** Legality of a throw *)

Lemma hasCard_elem_of c hand : hasCard c hand = true ↔ c ∈ hand.
Proof.
  induction hand as [|x hand IH]; simpl.
  - split; [done|]. by intros ?%elem_of_nil.
  - rewrite elem_of_cons. case_bool_decide as Hx.
    + subst. split; [by left|done].
    + rewrite IH. split; [by right|]. intros [?|?]; [congruence|done].
Qed.

Lemma takeFromCopy_Some c l l' :
  takeFromCopy c l = Some l' → l ≡ₚ c :: l'.
Proof.
  revert l'. induction l as [|x l IH]; intros l'; simpl; [done|].
  case_bool_decide as Hx.
  - intros [= <-]. by subst.
  - destruct (takeFromCopy c l) as [k|]; simpl; [|done].
    intros [= <-]. rewrite (IH k eq_refl). apply Permutation_swap.
Qed.

Lemma takeFromCopy_None c l : takeFromCopy c l = None → c ∉ l.
Proof.
  induction l as [|x l IH]; simpl; [intros _; apply not_elem_of_nil|].
  case_bool_decide as Hx; [done|].
  destruct (takeFromCopy c l); simpl; [done|].
  intros _. apply not_elem_of_cons. split; [congruence|by apply IH].
Qed.

Lemma allOnTable_submseteq captured tableCards :
  allOnTable captured tableCards = true ↔ captured ⊆+ tableCards.
Proof.
  revert tableCards.
  induction captured as [|c captured IH]; intros l; simpl.
  - split; [intros _; apply submseteq_nil_l|done].
  - rewrite submseteq_cons_l.
    destruct (takeFromCopy c l) as [l'|] eqn:Htake.
    + apply takeFromCopy_Some in Htake. rewrite IH. split.
      * intros Hsub. by exists l'.
      * intros (k & Hk & Hsub). rewrite Htake in Hk.
        apply (inj (c ::.)) in Hk. by rewrite Hk.
    + apply takeFromCopy_None in Htake. split; [done|].
      intros (k & Hk & _). destruct Htake. rewrite Hk. left.
Qed.

Lemma IsPossible_iff a g hand :
  handOf g (TurnPlayerID g) = Ret hand →
  Forall validCard (Cards hand) →
  Forall validCard (TableCards g) →
  lenZ (TableCards g) < 2 ^ 32 →
  IsPossible a g = Ret true ↔
    ThrownCard a ∈ Cards hand
    ∧ (CapturedTableCards a = [] →
       findAllValidCombinations (ThrownCard a) (TableCards g) = [])
    ∧ (CapturedTableCards a ≠ [] →
       cardSum (CapturedTableCards a) = 15 - GetEscobaValue (ThrownCard a)
       ∧ CapturedTableCards a ⊆+ TableCards g).
Proof.
  intros Hhand Hvh Hvt Hlen. unfold IsPossible. rewrite Hhand. simpl.
  destruct (hasCard (ThrownCard a) (Cards hand)) eqn:Hhas; simpl.
  2:{ split; [done|]. intros [Hin%hasCard_elem_of _]. congruence. }
  apply hasCard_elem_of in Hhas.
  assert (1 ≤ GetEscobaValue (ThrownCard a) ≤ 10) as Hv.
  { apply validCard_value. rewrite Forall_forall in Hvh. by apply Hvh. }
  rewrite !lenZ_eqb_0.
  case_bool_decide as Hcap.
  { case_bool_decide as Hnone.
    - split; [|done]. intros _. by split_and!.
    - split; [done|]. intros (_ & Hc & _). destruct Hnone. by apply Hc. }
  rewrite sub_small by (unfold GoInt.in_range; lia).
  assert (CapturedTableCards a ⊆+ TableCards g →
          sumCards (CapturedTableCards a) = cardSum (CapturedTableCards a))
    as Hsum.
  { intros Hsub. apply sumCards_cardSum.
    - rewrite Forall_forall in *. intros c Hc. apply Hvt.
      by eapply elem_of_submseteq.
    - apply submseteq_length in Hsub. unfold lenZ in *. lia. }
  destruct (Z.eqb_spec (sumCards (CapturedTableCards a))
              (15 - GetEscobaValue (ThrownCard a))) as [Heq|Hne]; simpl.
  - split.
    + intros [= Hall]. apply allOnTable_submseteq in Hall.
      split_and!; try done. intros _. split; [|done]. by rewrite <-Hsum.
    + intros (_ & _ & Hc). destruct (Hc Hcap) as [_ Hsub].
      f_equal. by apply allOnTable_submseteq.
  - split; [done|]. intros (_ & _ & Hc). destruct (Hc Hcap) as [Hs Hsub].
    rewrite Hsum in Hne by done. done.
Qed.

(** ** Helpers of the action and of the deal *)

Lemma deleteFirst_Permutation c hand :
  c ∈ hand → hand ≡ₚ c :: deleteFirst c hand.
Proof.
  induction hand as [|x hand IH]; simpl; [by intros ?%elem_of_nil|].
  case_bool_decide as Hx; [by subst|].
  intros [?|Hin]%elem_of_cons; [congruence|].
  rewrite (IH Hin) at 1. apply Permutation_swap.
Qed.

Lemma deleteFirst_length c hand :
  c ∈ hand → length hand = S (length (deleteFirst c hand)).
Proof. intros Hc%deleteFirst_Permutation. by rewrite Hc at 1. Qed.

Lemma tableSet_insert (l : list Card) (S : gset Card) :
  foldl (λ set card, {[card]} ∪ set) S l = S ∪ list_to_set l.
Proof.
  revert S. induction l as [|x l IH]; intros S; simpl.
  - set_solver.
  - rewrite IH. set_solver.
Qed.

Lemma tableSet_delete (l : list Card) (S : gset Card) :
  foldl (λ set card, set ∖ {[card]}) S l = S ∖ list_to_set l.
Proof.
  revert S. induction l as [|x l IH]; intros S; simpl.
  - set_solver.
  - rewrite IH. set_solver.
Qed.

Lemma elem_of_removeCardsFromTable order tableCards toRemove x :
  (∀ l, order l ≡ₚ l) →
  x ∈ removeCardsFromTable order tableCards toRemove
  ↔ x ∈ tableCards ∧ x ∉ toRemove.
Proof.
  intros Horder. unfold removeCardsFromTable.
  rewrite Horder, tableSet_delete, tableSet_insert, elem_of_elements.
  set_solver.
Qed.

Lemma NoDup_removeCardsFromTable order tableCards toRemove :
  (∀ l, order l ≡ₚ l) →
  NoDup (removeCardsFromTable order tableCards toRemove).
Proof.
  intros Horder. unfold removeCardsFromTable.
  rewrite Horder. apply NoDup_elements.
Qed.

(** On a table without duplicates that does not hold the thrown card, the
    set difference takes away the captured cards and nothing else. *)
Lemma removeCardsFromTable_Permutation order tableCards captured card :
  (∀ l, order l ≡ₚ l) →
  NoDup tableCards → captured ⊆+ tableCards → card ∉ tableCards →
  tableCards
  ≡ₚ captured ++ removeCardsFromTable order tableCards (captured ++ [card]).
Proof.
  intros Horder Hnd Hsub Hcard.
  destruct (submseteq_Permutation _ _ Hsub) as [k Hk].
  rewrite Hk at 1. apply Permutation_app_head.
  rewrite Hk in Hnd. apply NoDup_app in Hnd as (_ & Hdisj & Hndk).
  apply NoDup_Permutation;
    [done|by apply NoDup_removeCardsFromTable|].
  intros x. rewrite elem_of_removeCardsFromTable by done.
  rewrite Hk, !elem_of_app, list_elem_of_singleton. split.
  - intros Hx. split; [by right|]. intros [Hc| ->].
    + by apply (Hdisj x).
    + apply Hcard. rewrite Hk, elem_of_app. by right.
  - intros [[Hc|Hc] Hn]; [|done]. destruct Hn. by left.
Qed.

Lemma dealCards_take_drop n d hand :
  dealCards n d hand = (hand ++ take n d, drop n d).
Proof.
  revert d hand. induction n as [|n IH]; intros d hand; simpl.
  - by rewrite take_0, drop_0, app_nil_r.
  - destruct d as [|c d]; rewrite IH; simpl.
    + by rewrite take_nil, drop_nil.
    + by rewrite <-app_assoc.
Qed.

Lemma dealTable_take_drop n tableCards d :
  dealTable n tableCards d = (tableCards ++ take n d, drop n d).
Proof.
  revert d tableCards. induction n as [|n IH]; intros d tableCards; simpl.
  - by rewrite take_0, drop_0, app_nil_r.
  - destruct d as [|c d]; rewrite IH; simpl.
    + by rewrite take_nil, drop_nil.
    + by rewrite <-app_assoc.
Qed.

Lemma dealHand_take_drop d :
  dealHand d = (mkHand (take 3 (cards d)), mkDeck (drop 3 (cards d))).
Proof. unfold dealHand. by rewrite dealCards_take_drop. Qed.

Lemma getPile_insert_eq m k v : getPile (<[k := v]> m) k = v.
Proof. unfold getPile. by rewrite lookup_insert_eq. Qed.

Lemma getPile_insert_ne m k j v :
  k ≠ j → getPile (<[k := v]> m) j = getPile m j.
Proof. intros. unfold getPile. by rewrite lookup_insert_ne. Qed.

Lemma OpponentOf_cases t :
  isPlayer t → (t = 0 ∧ OpponentOf t = 1) ∨ (t = 1 ∧ OpponentOf t = 0).
Proof. intros [-> | ->]; [left|right]; done. Qed.

(** ** The invariant of the state machine *)

Lemma startNewRound_eq shs g :
  startNewRound shs g =
    let g := setRoundJustStarted true g in
    let g := setRoundNumber (GoInt.add (RoundNumber g) 1) g in
    let g := setTurnPlayerID (RoundTurnPlayerID g) g in
    d ← deckOf g;
    if 6 <=? lenZ (cards d) then dealRound g d
    else scoreSet shs (setSetFinished true g).
Proof. destruct shs; unfold scoreSet, startNewSet; simpl; reflexivity. Qed.

Lemma CalculatePossibleActions_Ret g :
  present g (TurnPlayerID g) → ∃ actions, CalculatePossibleActions g = Ret actions.
Proof.
  intros [h Hh]. unfold CalculatePossibleActions, handOf. rewrite Hh. simpl.
  destruct (foldl _ _ _) as [actions []]; simpl; eauto.
Qed.

Lemma take_drop_3_3_4 (d : list Card) :
  d = take 3 d ++ take 3 (drop 3 d) ++ take 4 (drop 3 (drop 3 d))
      ++ drop 4 (drop 3 (drop 3 d)).
Proof. by rewrite !take_drop. Qed.

(** Lookups in maps updated at the keys 0 and 1. *)
Ltac map_simp :=
  repeat first
    [ rewrite lookup_insert_eq
    | rewrite lookup_insert_ne by done
    | rewrite getPile_insert_eq
    | rewrite getPile_insert_ne by done ].

Ltac state_simp :=
  unfold present, allCards, handCards, deckCards; simpl; map_simp; simpl.

Lemma balanced_level g n :
  TurnPlayerID g = RoundTurnPlayerID g → isPlayer (TurnPlayerID g) →
  length (handCards g 0) = n → length (handCards g 1) = n → (1 ≤ n)%nat →
  balanced g.
Proof.
  intros Hturn Hp H0 H1 Hn. unfold balanced.
  rewrite bool_decide_eq_true_2 by done.
  destruct Hp as [-> | ->]; unfold OpponentOf; simpl; rewrite H0, H1; done.
Qed.

Lemma dealRound_Inv g d :
  (6 ≤ length (cards d))%nat →
  TableCards g ++ getPile (Piles g) 0 ++ getPile (Piles g) 1 ++ cards d
    ≡ₚ spanishCards →
  TurnPlayerID g = RoundTurnPlayerID g →
  isPlayer (RoundTurnPlayerID g) → isPlayer (LastCapturerPlayerID g) →
  SetFinished g = false →
  ∃ g', dealRound g d = Ret g' ∧ Inv g'
        ∧ IsEnded g' = IsEnded g
        ∧ RoundTurnPlayerID g' = RoundTurnPlayerID g
        ∧ TurnPlayerID g' = RoundTurnPlayerID g
        ∧ Scores g' = Scores g
        ∧ RoundNumber g' = RoundNumber g
        ∧ (LastCapturerPlayerID g' = LastCapturerPlayerID g
           ∨ LastCapturerPlayerID g' = RoundTurnPlayerID g).
Proof.
  intros Hlen Hperm Hturn Hdealer Hcapt Hset.
  unfold dealRound. rewrite !dealHand_take_drop. cbv beta iota zeta.
  rewrite dealTable_take_drop. simpl.
  set (h0 := take 3 (cards d)).
  set (h1 := take 3 (drop 3 (cards d))).
  set (rest := drop 3 (drop 3 (cards d))).
  assert (length h0 = 3%nat) as Hh0 by (subst h0; rewrite length_take; lia).
  assert (length h1 = 3%nat) as Hh1.
  { subst h1. rewrite length_take, length_drop. lia. }
  assert (TableCards g ++ getPile (Piles g) 0 ++ getPile (Piles g) 1
          ++ h0 ++ h1 ++ rest ≡ₚ spanishCards) as Hperm'.
  { rewrite <-Hperm. subst h0 h1 rest. by rewrite !take_drop. }
  assert (TableCards g ++ getPile (Piles g) 0 ++ getPile (Piles g) 1
          ++ h0 ++ h1 ++ take 4 rest ++ drop 4 rest ≡ₚ spanishCards)
    as Hperm4 by (by rewrite take_drop).
  match goal with |- ∃ g', (?m ≫= _) = _ ∧ _ =>
    destruct (CalculatePossibleActions_Ret
      ltac:(match m with CalculatePossibleActions ?g => exact g end))
      as [actions Hactions] end.
  { destruct (RoundNumber g =? 1); [destruct (_ =? 15)|];
      state_simp; rewrite Hturn; destruct Hdealer as [-> | ->];
      map_simp; eauto. }
  rewrite Hactions. simpl. eexists. split; [done|].
  assert (isPlayer (RoundTurnPlayerID g)) as Hdealer' by done.
  destruct (RoundNumber g =? 1); [destruct (_ =? 15)|]; simpl;
    (split; [|rewrite ?Hturn; split_and!; auto]);
    (constructor; simpl; rewrite ?Hturn; try done;
     [state_simp; eauto | state_simp; eauto | ..]).
  all: try (intros _; split_and!; try done;
            apply (balanced_level _ 3%nat); simpl; rewrite ?Hturn;
            try done; try lia; state_simp; done).
  - state_simp. rewrite <-Hperm4.
    destruct Hdealer as [-> | ->]; map_simp; solve_Permutation.
  - state_simp. rewrite <-Hperm4. solve_Permutation.
  - state_simp. rewrite <-Hperm'. solve_Permutation.
Qed.

Lemma startNewSet_Inv shs g :
  shs ≠ [] → Forall fairShuffle shs → isPlayer (RoundTurnPlayerID g) →
  ∃ g', startNewSet shs g = Ret g' ∧ Inv g'
        ∧ IsEnded g' = IsEnded g
        ∧ RoundTurnPlayerID g' = RoundTurnPlayerID g
        ∧ TurnPlayerID g' = RoundTurnPlayerID g
        ∧ Scores g' = Scores g
        ∧ RoundNumber g' = GoInt.add 0 1
        ∧ LastCapturerPlayerID g' = RoundTurnPlayerID g.
Proof.
  intros Hne Hfair Hdealer. destruct shs as [|shuffle shs]; [done|].
  apply Forall_cons in Hfair as [Hsh _].
  unfold startNewSet, startNewSetWith. rewrite startNewRound_eq.
  cbv beta iota zeta. unfold deckOf. simpl.
  assert (length (makeSpanishCards shuffle) = 40%nat) as Hlen.
  { unfold makeSpanishCards. by rewrite (Hsh spanishCards). }
  destruct (Z.leb_spec 6 (lenZ (makeSpanishCards shuffle))) as [_|Hlt];
    [|unfold lenZ in Hlt; lia].
  match goal with |- ∃ g', dealRound ?g ?d = _ ∧ _ =>
    destruct (dealRound_Inv g d) as (g' & Hg' & Hinv & Hfacts) end;
    simpl; try done.
  - lia.
  - map_simp. simpl. apply Hsh.
  - simpl in Hfacts. exists g'. split_and!; try done; try apply Hfacts.
    destruct Hfacts as (_ & _ & _ & _ & _ & [?|?]); done.
Qed.
Lemma applyPoints_eq result g :
  applyPoints result g =
    setScores
      (addInt 1 (getInt (PointsAwarded result) 1)
         (addInt 0 (getInt (PointsAwarded result) 0) (Scores g))) g.
Proof. reflexivity. Qed.

Lemma awardTableCards_allCards g :
  isPlayer (LastCapturerPlayerID g) →
  allCards (awardTableCards g) ≡ₚ allCards g.
Proof.
  intros Hcapt. unfold awardTableCards.
  destruct (0 <? lenZ (TableCards g)); [|done].
  unfold allCards, handCards, deckCards. simpl.
  destruct Hcapt as [-> | ->];
    map_simp;
    solve_Permutation.
Qed.

Lemma awardTableCards_fields g :
  let g' := awardTableCards g in
  Hands g' = Hands g ∧ Deck g' = Deck g
  ∧ TurnPlayerID g' = TurnPlayerID g
  ∧ RoundTurnPlayerID g' = RoundTurnPlayerID g
  ∧ LastCapturerPlayerID g' = LastCapturerPlayerID g
  ∧ IsEnded g' = IsEnded g ∧ Scores g' = Scores g
  ∧ Escobas g' = Escobas g.
Proof.
  unfold awardTableCards. by destruct (0 <? lenZ (TableCards g)).
Qed.

Lemma scoreSet_Inv shs g :
  shs ≠ [] → Forall fairShuffle shs →
  present g 0 → present g 1 → is_Some (Deck g) →
  allCards g ≡ₚ spanishCards →
  isPlayer (TurnPlayerID g) → isPlayer (RoundTurnPlayerID g) →
  isPlayer (LastCapturerPlayerID g) →
  ∃ g', scoreSet shs g = Ret g' ∧ Inv g'.
Proof.
  intros Hne Hfair Hp0 Hp1 Hdeck Hcards Hturn Hdealer Hcapt.
  unfold scoreSet, scoreSetWith. cbv zeta.
  set (result := awardPoints _ _). clearbody result. rewrite applyPoints_eq.
  pose proof (awardTableCards_allCards g Hcapt) as Hall.
  destruct (awardTableCards_fields g)
    as (HH & HD & HT & HR & HL & HE & HS & _).
  set (g1 := awardTableCards g) in *. clearbody g1.
  assert (∀ w s, Inv (setWinnerPlayerID w (setIsEnded true
            (setLastSetResults (Some result) (setScores s g1))))) as Hended.
  { intros w s. constructor; simpl; rewrite ?HT, ?HR, ?HL; try done.
    - unfold present. simpl. by rewrite HH.
    - unfold present. simpl. by rewrite HH.
    - by rewrite HD.
    - rewrite <-Hcards, <-Hall. done. }
  simpl. destruct (_ || _).
  - repeat case_match; eauto.
  - match goal with |- ∃ g', startNewSet _ ?g = _ ∧ _ =>
      destruct (startNewSet_Inv shs g) as (g' & Hg' & Hinv & _) end;
      try done; [|by eauto].
    simpl. rewrite HR. unfold OpponentOf.
    destruct Hdealer as [-> | ->]; simpl; [by right|by left].
Qed.

Lemma startNewRound_Inv shs g :
  shs ≠ [] → Forall fairShuffle shs →
  present g 0 → present g 1 → handCards g 0 = [] → handCards g 1 = [] →
  is_Some (Deck g) → allCards g ≡ₚ spanishCards →
  isPlayer (RoundTurnPlayerID g) → isPlayer (LastCapturerPlayerID g) →
  SetFinished g = false →
  ∃ g', startNewRound shs g = Ret g' ∧ Inv g'.
Proof.
  intros Hne Hfair Hp0 Hp1 Hh0 Hh1 [d Hd] Hcards Hdealer Hcapt Hset.
  rewrite startNewRound_eq. cbv zeta. unfold deckOf. simpl. rewrite Hd.
  simpl. destruct (Z.leb_spec 6 (lenZ (cards d))) as [Hlen|_].
  - match goal with |- ∃ g', dealRound ?g ?d = _ ∧ _ =>
      destruct (dealRound_Inv g d) as (g' & Hg' & Hinv & _) end;
      simpl; try done; [unfold lenZ in Hlen; lia| |by eauto].
    rewrite <-Hcards. unfold allCards, deckCards. by rewrite Hh0, Hh1, Hd.
  - apply scoreSet_Inv; simpl; try done.
Qed.

Lemma IsPossible_true a g :
  IsPossible a g = Ret true →
  ∃ hand, Hands g !! TurnPlayerID g = Some (Some hand)
    ∧ ThrownCard a ∈ Cards hand
    ∧ (CapturedTableCards a ≠ [] → CapturedTableCards a ⊆+ TableCards g).
Proof.
  unfold IsPossible, handOf.
  destruct (Hands g !! TurnPlayerID g) as [[hand|]|]; simpl; try done.
  destruct (hasCard _ _) eqn:Hhas; simpl; [|done].
  apply hasCard_elem_of in Hhas. intros Hp. exists hand.
  split_and!; try done. intros Hcap. rewrite lenZ_eqb_0 in Hp.
  rewrite bool_decide_eq_false_2 in Hp by done.
  destruct (negb _); [done|]. injection Hp as Hp.
  by apply allOnTable_submseteq.
Qed.

Lemma allCards_NoDup g : allCards g ≡ₚ spanishCards → NoDup (allCards g).
Proof. intros ->. apply spanishCards_NoDup. Qed.

Lemma Run_effect order a g :
  fairShuffle order → Inv g → IsPossible a g = Ret true →
  ∃ g1, Run order a g = Ret (None, g1)
    ∧ present g1 0 ∧ present g1 1
    ∧ handCards g1 (TurnPlayerID g)
      = deleteFirst (ThrownCard a) (handCards g (TurnPlayerID g))
    ∧ handCards g1 (OpponentOf (TurnPlayerID g))
      = handCards g (OpponentOf (TurnPlayerID g))
    ∧ ThrownCard a ∈ handCards g (TurnPlayerID g)
    ∧ allCards g1 ≡ₚ spanishCards
    ∧ isPlayer (LastCapturerPlayerID g1)
    ∧ Deck g1 = Deck g ∧ TurnPlayerID g1 = TurnPlayerID g
    ∧ RoundTurnPlayerID g1 = RoundTurnPlayerID g
    ∧ IsEnded g1 = IsEnded g ∧ RoundFinished g1 = RoundFinished g
    ∧ SetFinished g1 = SetFinished g.
Proof.
  intros Horder [[h0 Hh0] [h1 Hh1] Hdeck Hcards Hturn Hdealer Hcapt _] Hposs.
  destruct (IsPossible_true a g Hposs) as (hand & Hhand & Hin & Hsub).
  pose proof (allCards_NoDup g Hcards) as Hnd.
  unfold Run, handOf. rewrite Hhand. simpl.
  rewrite lenZ_ltb_0.
  unfold allCards, handCards in Hcards, Hnd. rewrite Hh0, Hh1 in Hcards, Hnd.
  apply NoDup_app in Hnd as (_ & Hd0 & Hnd).
  apply NoDup_app in Hnd as (_ & Hd1 & Hnd).
  apply NoDup_app in Hnd as (Htab & _ & _).
  assert (∀ c, c ∈ Cards h0 ∨ c ∈ Cards h1 → c ∉ TableCards g) as Hnot.
  { intros c [Hc|Hc] Ht.
    - apply (Hd0 c Hc). rewrite !elem_of_app. auto.
    - apply (Hd1 c Hc). rewrite !elem_of_app. auto. }
  eexists. split; [done|].
  destruct Hturn as [Ht|Ht]; rewrite Ht in *; simplify_eq;
    case_bool_decide as Hcap; simpl; try destruct (_ && _);
    unfold OpponentOf; state_simp; rewrite ?Hh0, ?Hh1;
    (split_and!; eauto; try done; try (by left); try (by right)).
  all: rewrite <-Hcards.
  all: rewrite (deleteFirst_Permutation _ _ Hin) at 2.
  all: try rewrite (removeCardsFromTable_Permutation order (TableCards g)
                 (CapturedTableCards a) (ThrownCard a)) at 2 by auto.
  all: solve_Permutation.
Qed.

Lemma IsPossible_Ret a g :
  present g (TurnPlayerID g) → ∃ b, IsPossible a g = Ret b.
Proof.
  intros [h Hh]. unfold IsPossible, handOf. rewrite Hh. simpl.
  repeat case_match; eauto.
Qed.

Lemma present_turn g : Inv g → present g (TurnPlayerID g).
Proof. intros [H0 H1 _ _ [-> | ->] _ _ _]; done. Qed.

Lemma RunAction_legal c a g :
  fairChance c → Inv g → IsEnded g = false → IsPossible a g = Ret true →
  ∃ g', RunAction c a g = Ret (None, g') ∧ Inv g'.
Proof.
  intros (Hlen & Hfair & Horder) Hinv Hended Hposs.
  destruct (Run_effect _ a g Horder Hinv Hposs)
    as (g1 & HRun & [k0 Hk0] & [k1 Hk1] & Hmine & Htheirs & Hin & Hcards
        & Hcapt & HD & HT & HR & HE & HRF & HSF).
  destruct Hinv as [_ _ Hdeck _ Hturn Hdealer _ Hrun].
  destruct (Hrun Hended) as (Hrf & Hsf & Hbal).
  unfold RunAction. rewrite Hended, Hposs. simpl. rewrite HRun. simpl.
  unfold handOf. simpl. rewrite Hk0. simpl.
  assert (handCards g1 0 = Cards k0) as Hc0 by (unfold handCards; by rewrite Hk0).
  assert (handCards g1 1 = Cards k1) as Hc1 by (unfold handCards; by rewrite Hk1).
  match goal with |- ∃ g', (?m ≫= _) = _ ∧ _ =>
    assert (m = Ret (bool_decide (Cards k0 = [])
                     && bool_decide (Cards k1 = []))) as -> end.
  { rewrite lenZ_eqb_0. case_bool_decide; [|done].
    rewrite Hk1. simpl. by rewrite lenZ_eqb_0. }
  simpl.
  destruct (bool_decide (Cards k0 = []) && bool_decide (Cards k1 = []))
    eqn:Hboth; simpl;
    rewrite ?HE, ?HRF, ?HSF, ?Hended, ?Hrf, ?Hsf; simpl.
  - apply andb_true_iff in Hboth as [He0 He1].
    apply bool_decide_eq_true in He0, He1.
    destruct (startNewRound_Inv (shuffles c)
      (setRoundFinished true
         (setActionOwnerPlayerIDs
            (ActionOwnerPlayerIDs g1 ++ [CurrentPlayerID
               (setActions (Actions g1 ++ [SerializeAction a])
                  (setSetJustStarted false (setRoundJustStarted false g1)))])
            (setActions (Actions g1 ++ [SerializeAction a])
               (setSetJustStarted false (setRoundJustStarted false g1))))))
      as (g' & Hg' & Hinv'); simpl; rewrite ?HD, ?HR, ?HSF; try done.
    + intros Hnil. rewrite Hnil in Hlen. simpl in Hlen. lia.
    + by exists k0.
    + by exists k1.
    + by rewrite <-He0.
    + by rewrite <-He1.
    + simpl in Hg'. rewrite Hg'. simpl. eauto.
  - assert (length (handCards g1 0) + length (handCards g1 1) ≠ 0)%nat
      as Hsome.
    { rewrite Hc0, Hc1. intros Hz.
      apply andb_false_iff in Hboth as [Hb|Hb];
        apply bool_decide_eq_false in Hb; apply Hb;
        apply length_zero_iff_nil; lia. }
    apply deleteFirst_length in Hin. rewrite <-Hmine in Hin.
    match goal with |- ∃ g', (CalculatePossibleActions ?g4 ≫= _) = _ ∧ _ =>
      destruct (CalculatePossibleActions_Ret g4) as [actions Hactions] end.
    { simpl. rewrite HT. unfold OpponentOf.
      destruct Hturn as [-> | ->]; simpl; [by exists k1|by exists k0]. }
    rewrite Hactions. simpl. eexists. split; [done|].
    unfold balanced in Hbal.
    constructor; simpl; rewrite ?HT, ?HR, ?HD, ?HRF, ?HSF; try done.
    + by exists k0.
    + by exists k1.
    + unfold OpponentOf. destruct Hturn as [-> | ->]; simpl; [by right|by left].
    + intros _. split_and!; try done. unfold balanced. simpl.
      rewrite ?HT, ?HR. unfold OpponentOf in *.
      apply (f_equal length) in Htheirs. clear Hmine Hboth Hactions.
      destruct Hturn as [Ht | Ht], Hdealer as [Hd | Hd];
        rewrite Ht, Hd in *; simpl in *;
        rewrite ?Hc0, ?Hc1 in *; unfold handCards; simpl;
        rewrite ?Hk0, ?Hk1;
        repeat case_bool_decide; try done; lia.
Qed.

Lemma New_Inv c g : fairChance c → New c [] = Ret g → Inv g.
Proof.
  intros (Hlen & Hfair & _). unfold New.
  destruct (shuffles c) as [|shuffle shs]; [done|]. simpl.
  apply Forall_cons in Hfair as [_ Hfair].
  match goal with |- startNewSet _ ?g0 = _ → _ =>
    destruct (startNewSet_Inv shs g0) as (g' & Hg' & Hinv & _) end;
    try done.
  - intros ->. simpl in Hlen. lia.
  - by left.
  - rewrite Hg'. by intros [= <-].
Qed.

Lemma New_Ret c : fairChance c → ∃ g, New c [] = Ret g.
Proof.
  intros (Hlen & Hfair & _). unfold New.
  destruct (shuffles c) as [|shuffle shs]; [simpl in Hlen; lia|]. simpl.
  apply Forall_cons in Hfair as [_ Hfair].
  match goal with |- ∃ g, startNewSet _ ?g0 = _ =>
    destruct (startNewSet_Inv shs g0) as (g' & Hg' & _) end;
    try done; eauto.
  - intros ->. simpl in Hlen. lia.
  - by left.
Qed.

Lemma RunAction_cases c a g :
  fairChance c → Inv g →
  (IsEnded g = true ∧ RunAction c a g = Ret (Some errGameIsEnded, g))
  ∨ (IsEnded g = false ∧ IsPossible a g = Ret false
     ∧ RunAction c a g = Ret (Some errActionNotPossible, g))
  ∨ (IsEnded g = false ∧ IsPossible a g = Ret true
     ∧ ∃ g', RunAction c a g = Ret (None, g') ∧ Inv g').
Proof.
  intros Hc Hinv. destruct (IsEnded g) eqn:Hended.
  { left. split; [done|]. unfold RunAction. by rewrite Hended. }
  right. destruct (IsPossible_Ret a g (present_turn g Hinv)) as [[] Hposs].
  - right. split_and!; try done. by apply RunAction_legal.
  - left. split_and!; try done. unfold RunAction. by rewrite Hended, Hposs.
Qed.

Lemma Reachable_Inv g : Reachable g → Inv g.
Proof.
  induction 1 as [c g Hc Hnew|c a g err g' Hc _ IH Hrun].
  - by eapply New_Inv.
  - destruct (RunAction_cases c a g Hc IH)
      as [(_ & Heq)|[(_ & _ & Heq)|(_ & _ & g'' & Heq & Hinv)]];
      rewrite Heq in Hrun; by simplify_eq.
Qed.

(** ** Concrete games *)

Lemma plainChance_fair : fairChance plainChance.
Proof.
  split_and!; [simpl; lia| |by intros l].
  repeat constructor; by intros l.
Qed.

Lemma reverseChance_fair : fairChance reverseChance.
Proof.
  split_and!; [simpl; lia| |by intros l].
  repeat constructor; intros l; apply reverse_Permutation.
Qed.

Lemma openingState_New : New reverseChance [] = Ret openingState.
Proof. vm_compute. reflexivity. Qed.

Lemma openingState_Reachable : Reachable openingState.
Proof.
  apply (Reachable_New reverseChance); [apply reverseChance_fair|].
  apply openingState_New.
Qed.

(** ** Legal actions *)

Lemma foldl_snoc_fmap {A B} (f : A → B) (l : list A) (acc : list B) :
  foldl (λ acc x, acc ++ [f x]) acc l = acc ++ (f <$> l).
Proof.
  revert acc. induction l as [|x l IH]; intros acc; simpl.
  - by rewrite app_nil_r.
  - by rewrite IH, <-app_assoc.
Qed.

Lemma possibleActions_loop tableCards hand actions has :
  foldl (λ '(actions, hasValidCombinations) card,
           let validCombinations :=
             findAllValidCombinations card tableCards in
           if 0 <? lenZ validCombinations then
             (foldl (λ actions combination,
                       actions ++ [newActionThrowCard card combination])
                    actions validCombinations, true)
           else (actions, hasValidCombinations))
        (actions, has) hand
  = (actions ++ foundActions tableCards hand,
     has || bool_decide (Exists (findsCapture tableCards) hand)).
Proof.
  match goal with |- foldl ?f _ _ = _ => set (step := f) end.
  revert actions has. induction hand as [|card hand IH]; intros actions has.
  - simpl. by rewrite app_nil_r, orb_false_r.
  - change (foldl step (actions, has) (card :: hand))
      with (foldl step (step (actions, has) card) hand).
    assert (step (actions, has) card =
            (actions ++ (newActionThrowCard card
                           <$> findAllValidCombinations card tableCards),
             has || bool_decide (findsCapture tableCards card))) as ->.
    { unfold step, findsCapture. rewrite lenZ_ltb_0.
      destruct (findAllValidCombinations card tableCards) as [|comb combs].
      - simpl. by rewrite app_nil_r, orb_false_r.
      - rewrite bool_decide_eq_false_2, bool_decide_eq_true_2 by done.
        simpl negb. cbv iota. by rewrite foldl_snoc_fmap, orb_true_r. }
    rewrite IH, <-app_assoc. f_equal. rewrite <-orb_assoc. f_equal.
    destruct (decide (findsCapture tableCards card)) as [Hc|Hc].
    + rewrite (bool_decide_eq_true_2 _ Hc). simpl. symmetry.
      apply bool_decide_eq_true_2. by left.
    + rewrite (bool_decide_eq_false_2 _ Hc). simpl.
      apply bool_decide_ext. rewrite Exists_cons. tauto.
Qed.

Lemma foundActions_cons tableCards card hand :
  foundActions tableCards (card :: hand)
  = (newActionThrowCard card <$> findAllValidCombinations card tableCards)
    ++ foundActions tableCards hand.
Proof. reflexivity. Qed.

Lemma foundActions_nil tableCards hand :
  ¬ Exists (findsCapture tableCards) hand → foundActions tableCards hand = [].
Proof.
  induction hand as [|c l IH]; [done|].
  rewrite Exists_cons, foundActions_cons. intros Hno.
  rewrite IH by tauto.
  destruct (findAllValidCombinations c tableCards) eqn:Hc; [done|].
  destruct Hno. left. unfold findsCapture. by rewrite Hc.
Qed.

Lemma CalculatePossibleActions_eq g hand :
  handOf g (TurnPlayerID g) = Ret hand →
  CalculatePossibleActions g =
    Ret (if bool_decide (Exists (findsCapture (TableCards g)) (Cards hand))
         then foundActions (TableCards g) (Cards hand)
         else discardActions (Cards hand)).
Proof.
  intros Hhand. unfold CalculatePossibleActions. rewrite Hhand. simpl.
  rewrite possibleActions_loop. simpl.
  case_bool_decide as Hex; simpl; [done|].
  unfold discardActions. by rewrite foldl_snoc_fmap, foundActions_nil.
Qed.

Lemma Inv_validCards g : Inv g → Forall validCard (allCards g).
Proof.
  intros Hinv. apply Forall_forall. intros c Hc. unfold validCard.
  by rewrite <-(inv_cards g Hinv).
Qed.

Lemma Inv_valid_hand_table g :
  Inv g →
  Forall validCard (handCards g 0) ∧ Forall validCard (handCards g 1)
  ∧ Forall validCard (TableCards g).
Proof.
  intros Hall%Inv_validCards. unfold allCards in Hall.
  rewrite !Forall_app in Hall. tauto.
Qed.

Lemma combination_nonempty thrownCard tableCards comb :
  positiveValue thrownCard → Forall positiveValue tableCards →
  comb ∈ findAllValidCombinations thrownCard tableCards → comb ≠ [].
Proof.
  intros Hthrown Htable. rewrite findAllValidCombinations_spec by done.
  unfold specCombinations.
  destruct (Z.leb_spec (15 - GetEscobaValue thrownCard) 0) as [|Hpos].
  { by intros ?%elem_of_nil. }
  intros [Hsum _]%list_elem_of_filter ->. simpl in Hsum. lia.
Qed.

Lemma foundActions_capture tableCards hand :
  Forall positiveValue hand → Forall positiveValue tableCards →
  Forall (λ a, CapturedTableCards a ≠ []) (foundActions tableCards hand).
Proof.
  intros Hhand Htable. induction Hhand as [|c hand Hc _ IH].
  - constructor.
  - rewrite foundActions_cons. apply Forall_app. split; [|done].
    apply Forall_fmap, Forall_forall. intros comb Hcomb. simpl.
    by eapply combination_nonempty.
Qed.

Lemma foundActions_spec tableCards hand :
  Forall positiveValue hand → Forall positiveValue tableCards →
  foundActions tableCards hand = captureActions tableCards hand.
Proof.
  intros Hhand Htable. unfold foundActions, captureActions.
  induction Hhand as [|c hand Hc _ IH]; [done|].
  cbn [mbind list_bind]. rewrite findAllValidCombinations_spec by done.
  f_equal. exact IH.
Qed.

Lemma findsCapture_spec tableCards hand :
  Forall positiveValue hand → Forall positiveValue tableCards →
  Exists (findsCapture tableCards) hand ↔ Exists (canCapture tableCards) hand.
Proof.
  intros Hhand Htable. rewrite !Exists_exists.
  split; intros (c & Hc & Hcan); exists c; (split; [done|]);
    unfold findsCapture, canCapture in *;
    [rewrite <-findAllValidCombinations_spec
    |rewrite findAllValidCombinations_spec]; try done;
    by eapply Forall_forall in Hhand.
Qed.

Lemma handCards_turn g hand :
  Hands g !! TurnPlayerID g = Some (Some hand) →
  handCards g (TurnPlayerID g) = Cards hand.
Proof. intros H. unfold handCards. by rewrite H. Qed.

Lemma balanced_nonempty g : balanced g → handCards g (TurnPlayerID g) ≠ [].
Proof.
  unfold balanced. intros Hbal Hnil. rewrite Hnil in Hbal. simpl in Hbal.
  case_bool_decide; [lia|done].
Qed.

(** ** Counters *)

Lemma add_one_ne e : GoInt.add e 1 ≠ e.
Proof.
  unfold GoInt.add, GoInt.wrap. intros Heq.
  pose proof (Z.mod_pos_bound (e + 1 + 2 ^ 63) (2 ^ 64) ltac:(lia)) as Hb.
  pose proof (Z.div_mod (e + 1 + 2 ^ 63) (2 ^ 64) ltac:(lia)) as Hd.
  lia.
Qed.

Lemma getInt_addInt_eq k n m :
  getInt (addInt k n m) k = GoInt.add (getInt m k) n.
Proof. unfold addInt, getInt. by rewrite lookup_insert_eq. Qed.

Lemma getInt_addInt_ne k j n m :
  k ≠ j → getInt (addInt k n m) j = getInt m j.
Proof. intros. unfold addInt, getInt. by rewrite lookup_insert_ne. Qed.


Lemma afterAction_Reachable c a g :
  fairChance c → Reachable g → Reachable (afterAction c a g).
Proof.
  intros Hc Hg. unfold afterAction.
  destruct (RunAction_cases c a g Hc (Reachable_Inv g Hg))
    as [(_ & Heq)|[(_ & _ & Heq)|(_ & _ & g' & Heq & _)]];
    rewrite Heq; try done.
  by eapply Reachable_RunAction.
Qed.

Lemma beforeRoundTwo_Reachable : Reachable beforeRoundTwo.
Proof.
  assert (beforeRoundTwo
          = Nat.iter 5 (playFirst reverseChance) openingState) as ->
    by (vm_compute; reflexivity).
  simpl. unfold playFirst.
  repeat apply afterAction_Reachable; try apply reverseChance_fair.
  apply openingState_Reachable.
Qed.

(** ** Scoring *)

Lemma wrap_add_wrap x y : GoInt.wrap (GoInt.wrap x + y) = GoInt.wrap (x + y).
Proof.
  unfold GoInt.wrap. f_equal.
  replace ((x + 2 ^ 63) `mod` 2 ^ 64 - 2 ^ 63 + y + 2 ^ 63)
    with ((x + 2 ^ 63) `mod` 2 ^ 64 + y) by lia.
  rewrite Zplus_mod_idemp_l. f_equal. lia.
Qed.

Lemma add_add_swap t a b :
  GoInt.add (GoInt.add t a) b = GoInt.add (GoInt.add t b) a.
Proof.
  unfold GoInt.add. rewrite !wrap_add_wrap. f_equal. lia.
Qed.

Lemma highest_snoc vs v : 0 ≤ v → highest (vs ++ [v]) = Z.max (highest vs) v.
Proof.
  intros Hv. unfold highest. induction vs as [|x vs IH]; simpl; [lia|].
  rewrite IH. lia.
Qed.

Lemma highest_nonneg vs : 0 ≤ highest vs.
Proof. unfold highest. induction vs; simpl; lia. Qed.

Lemma lowValues_snoc suit pile c :
  lowValues suit (pile ++ [c])
  = lowValues suit pile
    ++ (if bool_decide (Suit c = suit ∧ GetEscobaValue c ≤ 7)
        then [GetEscobaValue c] else []).
Proof.
  unfold lowValues. rewrite filter_app, fmap_app. f_equal.
  rewrite filter_cons, filter_nil. case_decide; case_bool_decide; done.
Qed.

Lemma setenta_loop pile seen maps :
  Forall positiveValue pile → setentaMaps seen maps →
  setentaMaps (seen ++ pile)
    (foldl (λ '((suitBest, suitHasCard) : gmap string Z * gmap string bool)
              card,
              let value := GetEscobaValue card in
              if value <=? 7 then
                if negb (default false (suitHasCard !! Suit card))
                   || (default 0 (suitBest !! Suit card) <? value)
                then (<[Suit card := value]> suitBest,
                      <[Suit card := true]> suitHasCard)
                else (suitBest, suitHasCard)
              else (suitBest, suitHasCard))
           maps pile).
Proof.
  intros Hpos. revert seen maps.
  induction Hpos as [|c pile Hc _ IH]; intros seen [sb sh] Hmaps.
  { simpl. by rewrite app_nil_r. }
  cbn [foldl]. rewrite (assoc_L (++) seen [c] pile : seen ++ c :: pile = (seen ++ [c]) ++ pile).
  apply IH. clear IH. unfold positiveValue in Hc.
  intros suit. rewrite lowValues_snoc. cbv zeta.
  destruct (Hmaps (Suit c)) as [Hb Hh]. destruct (Hmaps suit) as [Hb' Hh'].
  simpl in *.
  destruct (Z.leb_spec (GetEscobaValue c) 7) as [Hle|Hgt].
  2:{ rewrite (bool_decide_eq_false_2 (_ ∧ _)) by (intros [_ ?]; lia).
      by rewrite app_nil_r. }
  destruct (decide (Suit c = suit)) as [<-|Hne].
  - rewrite (bool_decide_eq_true_2 (_ ∧ _)) by done.
    rewrite (bool_decide_eq_false_2 (_ ++ [_] = []))
      by (intros [_ ?]%app_eq_nil; done).
    rewrite highest_snoc by lia.
    rewrite Hb, Hh. pose proof (highest_nonneg (lowValues (Suit c) seen)).
    case_bool_decide as Hnil; simpl.
    + rewrite !lookup_insert_eq. rewrite Hnil. simpl. split; [f_equal; lia|done].
    + destruct (Z.ltb_spec (highest (lowValues (Suit c) seen)) (GetEscobaValue c)); simpl.
      * rewrite !lookup_insert_eq. split; [f_equal; lia|done].
      * rewrite Hb, Hh.
        split; [f_equal; lia|done].
  - rewrite (bool_decide_eq_false_2 (Suit c = suit ∧ _)) by tauto.
    rewrite app_nil_r.
    destruct (negb _ || _); simpl; rewrite ?lookup_insert_ne by done; done.
Qed.

Lemma sum_map (h : string → Z) (keys : list string) :
  NoDup keys → Forall (λ k, 0 ≤ h k ≤ 7) keys → lenZ keys < 2 ^ 32 →
  ∀ m : gmap string Z,
    (∀ k, m !! k = if bool_decide (k ∈ keys) then Some (h k) else None) →
    map_fold (λ _ value total, GoInt.add total value) 0 m
    = foldr (λ k total, h k + total) 0 keys
    ∧ 0 ≤ foldr (λ k total, h k + total) 0 keys ≤ 7 * lenZ keys.
Proof.
  induction 1 as [|k keys Hk Hnd IH]; intros Hh Hlen m Hm.
  - assert (m = ∅) as ->. { apply map_eq. intros k. by rewrite Hm, lookup_empty. }
    rewrite map_fold_empty. simpl. unfold lenZ. simpl. lia.
  - apply Forall_cons in Hh as [Hhk Hh].
    unfold lenZ in *. simpl length in *.
    assert (m = <[k := h k]> (delete k m)) as Heq.
    { rewrite insert_delete_eq. symmetry. apply insert_id. rewrite Hm.
      rewrite bool_decide_eq_true_2; [done|left]. }
    destruct (IH Hh ltac:(lia) (delete k m)) as [IHsum IHb].
    { intros j. destruct (decide (j = k)) as [->|Hne].
      - rewrite lookup_delete_eq. by rewrite bool_decide_eq_false_2.
      - rewrite lookup_delete_ne by done. rewrite Hm.
        apply (f_equal (λ b : bool, if b then Some (h j) else None)).
        apply bool_decide_ext. rewrite elem_of_cons. naive_solver. }
    rewrite Heq, map_fold_insert_L.
    + rewrite IHsum. simpl. split; [|lia].
      rewrite add_small by (unfold GoInt.in_range; lia). lia.
    + intros. apply add_add_swap.
    + apply lookup_delete_eq.
Qed.

Lemma validCard_suit c : validCard c → Suit c ∈ suits.
Proof.
  intros Hc.
  assert (Forall (λ c, Suit c ∈ suits) spanishCards) as Hall by compute_done.
  rewrite Forall_forall in Hall. by apply Hall.
Qed.

Lemma lowValues_suit suit pile :
  Forall validCard pile → lowValues suit pile ≠ [] → suit ∈ suits.
Proof.
  intros Hv Hne. unfold lowValues in Hne.
  destruct (filter _ pile) as [|c l] eqn:Hf; [done|].
  assert (c ∈ filter (λ c, Suit c = suit ∧ GetEscobaValue c ≤ 7) pile)
    as [[<- _] Hc]%list_elem_of_filter by (rewrite Hf; left).
  apply validCard_suit. rewrite Forall_forall in Hv. by apply Hv.
Qed.

Lemma highest_le vs : Forall (λ v, v ≤ 7) vs → highest vs ≤ 7.
Proof. unfold highest. induction 1; simpl; lia. Qed.

Lemma highest_bound suit pile : 0 ≤ highest (lowValues suit pile) ≤ 7.
Proof.
  split; [apply highest_nonneg|]. apply highest_le.
  unfold lowValues. apply Forall_fmap, Forall_forall.
  by intros c [[_ ?] _]%list_elem_of_filter.
Qed.

Lemma calculateSetenta_spec g playerID :
  Forall validCard (getPile (Piles g) playerID) →
  calculateSetenta g playerID = specSetenta (getPile (Piles g) playerID).
Proof.
  intros Hv. unfold calculateSetenta, specSetenta.
  set (pile := getPile (Piles g) playerID) in *.
  pose proof (setenta_loop pile [] (∅, ∅) (validCards_positive _ Hv)) as Hloop.
  simpl in Hloop. destruct (foldl _ _ pile) as [sb sh].
  specialize (Hloop ltac:(by intros suit)).
  unfold setentaMaps in Hloop. simpl in Hloop.
  assert (∀ suit, suit ∈ dom sh ↔ lowValues suit pile ≠ []) as Hdom.
  { intros suit. rewrite elem_of_dom. destruct (Hloop suit) as [_ ->].
    case_bool_decide; split; try done; by intros [? ?]. }
  assert (dom sh ⊆ list_to_set suits) as Hsub.
  { intros suit Hs%Hdom. apply elem_of_list_to_set.
    by eapply lowValues_suit. }
  assert (size (list_to_set suits : gset string) = 4%nat) as H4.
  { rewrite size_list_to_set; [done|]. compute_done. }
  case_bool_decide as Hall.
  - assert (dom sh = list_to_set suits) as Heq.
    { apply set_eq. intros suit. split; [apply Hsub|].
      intros Hs%elem_of_list_to_set. apply Hdom.
      rewrite Forall_forall in Hall. by apply Hall. }
    destruct (Z.ltb_spec (Z.of_nat (size sh)) 4) as [Hlt|_].
    { rewrite <-size_dom, Heq, H4 in Hlt. lia. }
    apply (sum_map (λ suit, highest (lowValues suit pile)) suits).
    + compute_done.
    + apply Forall_forall. intros suit _.
      apply highest_bound.
    + by vm_compute.
    + intros suit. destruct (Hloop suit) as [-> _].
      destruct (decide (lowValues suit pile = [])) as [Hnil|Hnil].
      * rewrite (bool_decide_eq_true_2 _ Hnil).
        rewrite bool_decide_eq_false_2; [reflexivity|].
        intros Hin. rewrite Forall_forall in Hall. exact (Hall suit Hin Hnil).
      * rewrite (bool_decide_eq_false_2 _ Hnil).
        rewrite bool_decide_eq_true_2; [reflexivity|].
        by eapply lowValues_suit.
  - destruct (Z.ltb_spec (Z.of_nat (size sh)) 4) as [_|Hge]; [done|].
    destruct Hall. apply Forall_forall. intros suit Hs. apply Hdom.
    assert (dom sh = list_to_set suits) as ->.
    { apply set_subseteq_size_eq; [done|]. rewrite size_dom, H4. lia. }
    by apply elem_of_list_to_set.
Qed.

Lemma getInt_insert_eq (m : gmap Z Z) k v : getInt (<[k := v]> m) k = v.
Proof. unfold getInt. by rewrite lookup_insert_eq. Qed.

Lemma getInt_insert_ne (m : gmap Z Z) k j v :
  k ≠ j → getInt (<[k := v]> m) j = getInt m j.
Proof. intros. unfold getInt. by rewrite lookup_insert_ne. Qed.

Lemma getBool_insert_eq (m : gmap Z bool) k v : getBool (<[k := v]> m) k = v.
Proof. unfold getBool. by rewrite lookup_insert_eq. Qed.

Lemma getBool_insert_ne (m : gmap Z bool) k j v :
  k ≠ j → getBool (<[k := v]> m) j = getBool m j.
Proof. intros. unfold getBool. by rewrite lookup_insert_ne. Qed.

Lemma oroCount_cons c pile :
  oroCount (c :: pile)
  = (if bool_decide (Suit c = ORO) then 1 else 0) + oroCount pile.
Proof.
  unfold oroCount, lenZ. rewrite filter_cons.
  case_decide; case_bool_decide; try done; simpl length; lia.
Qed.

Lemma oroCount_bound pile : 0 ≤ oroCount pile ≤ lenZ pile.
Proof.
  unfold oroCount, lenZ. pose proof (length_filter (λ c, Suit c = ORO) pile).
  lia.
Qed.

Lemma hasSieteDeOro_cons c pile :
  hasSieteDeOro (c :: pile)
  = (bool_decide (Suit c = ORO) && (Number c =? 7)) || hasSieteDeOro pile.
Proof.
  unfold hasSieteDeOro. destruct c as [s n]. simpl.
  apply eq_true_iff_eq. rewrite orb_true_iff, andb_true_iff, Z.eqb_eq.
  rewrite !bool_decide_eq_true, elem_of_cons. naive_solver.
Qed.

(** The loop of [scoreSet] over one pile. *)
Lemma oro_loop playerID pile (oro : gmap Z Z) (siete : gmap Z bool) :
  0 ≤ getInt oro playerID → getInt oro playerID + lenZ pile < 2 ^ 62 →
  ∃ oro' siete',
    foldl (λ '(oro, siete) card,
             if bool_decide (Suit card = ORO) then
               (addInt playerID 1 oro,
                if Number card =? 7
                then <[playerID := true]> siete else siete)
             else (oro, siete))
          (oro, siete) pile = (oro', siete')
    ∧ getInt oro' playerID = getInt oro playerID + oroCount pile
    ∧ getBool siete' playerID
      = getBool siete playerID || hasSieteDeOro pile
    ∧ (∀ q, q ≠ playerID → getInt oro' q = getInt oro q
                            ∧ getBool siete' q = getBool siete q).
Proof.
  revert oro siete. induction pile as [|c pile IH]; intros oro siete H0 Hb.
  { exists oro, siete. unfold oroCount, hasSieteDeOro, lenZ. simpl.
    split_and!; try done; [lia|by rewrite orb_false_r]. }
  cbn [foldl]. rewrite oroCount_cons, hasSieteDeOro_cons.
  unfold lenZ in Hb. simpl length in Hb.
  case_bool_decide as Horo.
  - destruct (IH (addInt playerID 1 oro)
                (if Number c =? 7 then <[playerID:=true]> siete else siete))
      as (oro' & siete' & Hf & Ho & Hs & Hq).
    { rewrite getInt_addInt_eq, add_small by (unfold GoInt.in_range; lia).
      lia. }
    { rewrite getInt_addInt_eq, add_small by (unfold GoInt.in_range; lia).
      unfold lenZ. lia. }
    exists oro', siete'. rewrite Hf. split; [done|].
    rewrite Ho, Hs, getInt_addInt_eq,
      add_small by (unfold GoInt.in_range; lia).
    split_and!; [lia| |].
    + simpl. destruct (Number c =? 7);
        rewrite ?getBool_insert_eq; simpl; [by rewrite orb_true_r|done].
    + intros q Hne. destruct (Hq q Hne) as [-> ->].
      rewrite getInt_addInt_ne by done. split; [done|].
      destruct (Number c =? 7); by rewrite ?getBool_insert_ne.
  - destruct (IH oro siete) as (oro' & siete' & Hf & Ho & Hs & Hq);
      [done|unfold lenZ; lia|].
    exists oro', siete'. rewrite Hf. by split_and!.
Qed.

Lemma countPiles_spec g result :
  let pile := λ p, getPile (Piles g) p in
  lenZ (pile 0) < 2 ^ 32 → lenZ (pile 1) < 2 ^ 32 →
  Forall validCard (pile 0) → Forall validCard (pile 1) →
  ∃ counted,
    countPiles g result = counted
    ∧ PointsAwarded counted = PointsAwarded result
    ∧ EscobasThisSet counted = EscobasThisSet result
    ∧ ∀ p, isPlayer p →
        getInt (CardCounts counted) p = lenZ (pile p)
        ∧ getInt (OroCardCounts counted) p = oroCount (pile p)
        ∧ getBool (HasSieteDeOro counted) p = hasSieteDeOro (pile p)
        ∧ getInt (SetentaScores counted) p = specSetenta (pile p).
Proof.
  intros pile Hl0 Hl1 Hv0 Hv1. unfold countPiles, players. cbn [foldl].
  fold (pile 0) (pile 1).
  destruct (oro_loop 0 (pile 0) (<[0:=0]> (OroCardCounts result))
              (<[0:=false]> (HasSieteDeOro result)))
    as (oro0 & siete0 & Hf0 & Ho0 & Hs0 & Hq0);
    rewrite ?getInt_insert_eq; [lia..|].
  rewrite Hf0. cbn [CardCounts OroCardCounts HasSieteDeOro SetentaScores
                    PointsAwarded EscobasThisSet].
  destruct (oro_loop 1 (pile 1) (<[1:=0]> oro0) (<[1:=false]> siete0))
    as (oro1 & siete1 & Hf1 & Ho1 & Hs1 & Hq1);
    rewrite ?getInt_insert_eq; [lia..|].
  rewrite Hf1. eexists. split; [done|]. simpl.
  split_and!; try done.
  rewrite getInt_insert_eq in Ho0, Ho1.
  rewrite getBool_insert_eq in Hs0, Hs1.
  destruct (Hq1 0 ltac:(done)) as [Hq1o Hq1s].
  rewrite getInt_insert_ne in Hq1o by done.
  rewrite getBool_insert_ne in Hq1s by done.
  intros p [-> | ->].
  - rewrite getInt_insert_ne, !getInt_insert_eq by done.
    rewrite Hq1o, Ho0, Hq1s, Hs0.
    rewrite getInt_insert_ne, getInt_insert_eq by done.
    rewrite calculateSetenta_spec by done. by split_and!.
  - rewrite !getInt_insert_eq, Ho1, Hs1.
    rewrite calculateSetenta_spec by done. by split_and!.
Qed.

Lemma getInt_empty k : getInt ∅ k = 0.
Proof. done. Qed.

(** One of the four one-point awards of [scoreSet]: the point goes to
    player 0 on [b0], else to player 1 on [b1]. *)
Lemma bonus_stage (b0 b1 : bool) (points : gmap Z Z) x0 x1 :
  getInt points 0 = x0 → getInt points 1 = x1 →
  0 ≤ x0 < 2 ^ 40 → 0 ≤ x1 < 2 ^ 40 →
  let points' :=
    if b0 then addInt 0 1 points
    else if b1 then addInt 1 1 points else points in
  getInt points' 0 = x0 + point b0
  ∧ getInt points' 1 = x1 + point (negb b0 && b1).
Proof.
  intros H0 H1 Hx0 Hx1. destruct b0, b1; simpl;
    rewrite ?getInt_addInt_eq, ?getInt_addInt_ne by done;
    rewrite ?H0, ?H1, ?add_small by (unfold GoInt.in_range; lia); lia.
Qed.

Lemma point_bound b : 0 ≤ point b ≤ 1.
Proof. destruct b; simpl; lia. Qed.

Lemma awardPoints_spec g result c0 c1 o0 o1 (h0 h1 : bool) s0 s1 :
  PointsAwarded result = ∅ →
  getInt (CardCounts result) 0 = c0 → getInt (CardCounts result) 1 = c1 →
  getInt (OroCardCounts result) 0 = o0 →
  getInt (OroCardCounts result) 1 = o1 →
  getBool (HasSieteDeOro result) 0 = h0 →
  getBool (HasSieteDeOro result) 1 = h1 →
  getInt (SetentaScores result) 0 = s0 →
  getInt (SetentaScores result) 1 = s1 →
  counter (getInt (Escobas g) 0) → counter (getInt (Escobas g) 1) →
  ¬ (h0 = true ∧ h1 = true) →
  ∃ awarded,
    awardPoints g result = awarded
    ∧ CardCounts awarded = CardCounts result
    ∧ OroCardCounts awarded = OroCardCounts result
    ∧ HasSieteDeOro awarded = HasSieteDeOro result
    ∧ SetentaScores awarded = SetentaScores result
    ∧ EscobasThisSet awarded = EscobasThisSet result
    ∧ getInt (PointsAwarded awarded) 0
      = getInt (Escobas g) 0 + point (c1 <? c0) + point (o1 <? o0)
        + point h0 + point ((s1 <? s0) && (0 <? s0))
    ∧ getInt (PointsAwarded awarded) 1
      = getInt (Escobas g) 1 + point (c0 <? c1) + point (o0 <? o1)
        + point h1 + point ((s0 <? s1) && (0 <? s1)).
Proof.
  intros Hempty Hc0 Hc1 Ho0 Ho1 Hh0 Hh1 Hs0 Hs1 He0 He1 Hboth.
  unfold counter in *. unfold awardPoints, players. cbn [foldl].
  rewrite Hempty, Hc0, Hc1, Ho0, Ho1, Hh0, Hh1, Hs0, Hs1.
  set (p0 := addInt 1 _ _).
  assert (getInt p0 0 = getInt (Escobas g) 0
          ∧ getInt p0 1 = getInt (Escobas g) 1) as [Ha Hb].
  { subst p0.
    repeat first [ rewrite getInt_addInt_eq
                 | rewrite getInt_addInt_ne by done
                 | rewrite getInt_empty ].
    rewrite !add_small by (unfold GoInt.in_range; lia). lia. }
  clearbody p0.
  destruct (bonus_stage (c1 <? c0) (c0 <? c1) p0 _ _ Ha Hb) as [Ha1 Hb1];
    [lia..|].
  set (p1 := if c1 <? c0 then _ else _) in *. clearbody p1.
  pose proof (point_bound (c1 <? c0)).
  pose proof (point_bound (negb (c1 <? c0) && (c0 <? c1))).
  destruct (bonus_stage (o1 <? o0) (o0 <? o1) p1 _ _ Ha1 Hb1) as [Ha2 Hb2];
    [lia..|].
  set (p2 := if o1 <? o0 then _ else _) in *. clearbody p2.
  pose proof (point_bound (o1 <? o0)).
  pose proof (point_bound (negb (o1 <? o0) && (o0 <? o1))).
  destruct (bonus_stage h0 h1 p2 _ _ Ha2 Hb2) as [Ha3 Hb3]; [lia..|].
  set (p3 := if h0 then _ else _) in *. clearbody p3.
  pose proof (point_bound h0). pose proof (point_bound (negb h0 && h1)).
  destruct (bonus_stage ((s1 <? s0) && (0 <? s0)) ((s0 <? s1) && (0 <? s1))
              p3 _ _ Ha3 Hb3) as [Ha4 Hb4]; [lia..|].
  set (p4 := if (s1 <? s0) && (0 <? s0) then _ else _) in *. clearbody p4.
  eexists. split; [done|]. simpl. split_and!; try done.
  rewrite Hb4. clear -Hboth.
  assert (negb (c1 <? c0) && (c0 <? c1) = (c0 <? c1)) as ->.
  { destruct (Z.ltb_spec c1 c0), (Z.ltb_spec c0 c1); simpl; try done. lia. }
  assert (negb (o1 <? o0) && (o0 <? o1) = (o0 <? o1)) as ->.
  { destruct (Z.ltb_spec o1 o0), (Z.ltb_spec o0 o1); simpl; try done. lia. }
  assert (negb h0 && h1 = h1) as ->.
  { destruct h0, h1; simpl; try done. by destruct Hboth. }
  assert (negb ((s1 <? s0) && (0 <? s0)) && ((s0 <? s1) && (0 <? s1))
          = (s0 <? s1) && (0 <? s1)) as ->; [|done].
  destruct (Z.ltb_spec s1 s0), (Z.ltb_spec s0 s1), (Z.ltb_spec 0 s0),
    (Z.ltb_spec 0 s1); simpl; try done; lia.
Qed.

(** ** What [scoreSet] computes *)

Lemma scoreSet_spec shs g :
  let final := λ p,
    getPile (Piles g) p
    ++ (if bool_decide (LastCapturerPlayerID g = p) then TableCards g
        else []) in
  let points := λ p,
    specPoints (getInt (Escobas g) p) (final p) (final (OpponentOf p)) in
  let total := λ p, getInt (Scores g) p + points p in
  isPlayer (LastCapturerPlayerID g) →
  final 0 ++ final 1 ⊆+ spanishCards →
  Forall counter [getInt (Escobas g) 0; getInt (Escobas g) 1;
                  getInt (Scores g) 0; getInt (Scores g) 1] →
  ∃ g1 result,
    TableCards g1 = []
    ∧ getPile (Piles g1) 0 = final 0 ∧ getPile (Piles g1) 1 = final 1
    ∧ getInt (Scores g1) 0 = total 0 ∧ getInt (Scores g1) 1 = total 1
    ∧ LastSetResults g1 = Some result
    ∧ (∀ p, isPlayer p →
         getInt (PointsAwarded result) p = points p
         ∧ getInt (CardCounts result) p = lenZ (final p)
         ∧ getInt (OroCardCounts result) p = oroCount (final p)
         ∧ getBool (HasSieteDeOro result) p = hasSieteDeOro (final p)
         ∧ getInt (SetentaScores result) p = specSetenta (final p)
         ∧ getInt (EscobasThisSet result) p = getInt (Escobas g) p)
    ∧ Hands g1 = Hands g ∧ Deck g1 = Deck g
    ∧ RoundTurnPlayerID g1 = RoundTurnPlayerID g
    ∧ IsEnded g1 = IsEnded g
    ∧ scoreSet shs g =
        if bool_decide (15 ≤ total 0 ∨ 15 ≤ total 1)
        then Ret (setWinnerPlayerID
                    (if bool_decide (total 1 < total 0) then 0
                     else if bool_decide (total 0 < total 1) then 1
                     else -1)
                    (setIsEnded true g1))
        else startNewSet shs
               (setRoundTurnPlayerID (OpponentOf (RoundTurnPlayerID g)) g1).
Proof.
  intros final points total Hcapt Hdeck Hcounters.
  apply Forall_cons in Hcounters as [He0 Hcounters].
  apply Forall_cons in Hcounters as [He1 Hcounters].
  apply Forall_cons in Hcounters as [Hs0 Hcounters].
  apply Forall_cons in Hcounters as [Hs1 _].
  assert (Forall validCard (final 0) ∧ Forall validCard (final 1)) as [Hv0 Hv1].
  { rewrite <-Forall_app. apply Forall_forall. intros c Hc.
    by eapply elem_of_submseteq. }
  assert (lenZ (final 0) < 2 ^ 32 ∧ lenZ (final 1) < 2 ^ 32) as [Hl0 Hl1].
  { apply submseteq_length in Hdeck. rewrite length_app in Hdeck.
    rewrite spanishCards_length in Hdeck. unfold lenZ. lia. }
  assert (NoDup (final 0 ++ final 1)) as Hnd.
  { destruct (submseteq_Permutation _ _ Hdeck) as [k Hk].
    pose proof spanishCards_NoDup as Hs. rewrite Hk in Hs.
    by apply NoDup_app in Hs as (? & _ & _). }
  unfold scoreSet, scoreSetWith. cbv zeta.
  set (r0 := mkSetResult _ _ _ _ _ _).
  assert (TableCards (awardTableCards g) = []
          ∧ getPile (Piles (awardTableCards g)) 0 = final 0
          ∧ getPile (Piles (awardTableCards g)) 1 = final 1)
    as (Htable & Hp0 & Hp1).
  { subst final. unfold awardTableCards. cbv beta. rewrite lenZ_ltb_0.
    case_bool_decide as Hnil; simpl.
    - rewrite Hnil. by repeat case_bool_decide; rewrite !app_nil_r.
    - destruct Hcapt as [-> | ->]; simpl;
        rewrite ?getPile_insert_eq, ?getPile_insert_ne by done;
        by rewrite ?app_nil_r. }
  destruct (awardTableCards_fields g)
    as (HH & HD & HT & HR & HL & HE & HS & HEs).
  set (g1 := awardTableCards g) in *. clearbody g1.
  destruct (countPiles_spec g1 r0) as (counted & Hcounted & Hpts & Hesc & Hc);
    rewrite ?Hp0, ?Hp1; try done.
  rewrite Hcounted. clear Hcounted.
  destruct (Hc 0 ltac:(by left)) as (Hc0 & Ho0 & Hh0 & Hst0).
  destruct (Hc 1 ltac:(by right)) as (Hc1 & Ho1 & Hh1 & Hst1).
  rewrite Hp0 in Hc0, Ho0, Hh0, Hst0. rewrite Hp1 in Hc1, Ho1, Hh1, Hst1.
  destruct (awardPoints_spec g1 counted _ _ _ _ _ _ _ _
              Hpts Hc0 Hc1 Ho0 Ho1 Hh0 Hh1 Hst0 Hst1)
    as (awarded & Hawarded & Hac & Hao & Hah & Has & Hae & Hpt0 & Hpt1);
    rewrite ?HEs; try done.
  { unfold hasSieteDeOro. rewrite !bool_decide_eq_true. intros [Hin0 Hin1].
    apply NoDup_app in Hnd as (_ & Hdisj & _). by apply (Hdisj _ Hin0). }
  rewrite Hawarded. clear Hawarded. rewrite applyPoints_eq.
  rewrite HEs in Hpt0, Hpt1.
  assert (getInt (PointsAwarded awarded) 0 = points 0
          ∧ getInt (PointsAwarded awarded) 1 = points 1) as [Hq0 Hq1].
  { subst points. unfold specPoints, OpponentOf. simpl. by rewrite Hpt0, Hpt1. }
  pose proof (point_bound (lenZ (final 1) <? lenZ (final 0))).
  assert (0 ≤ points 0 < 2 ^ 33 ∧ 0 ≤ points 1 < 2 ^ 33) as [Hb0 Hb1].
  { rewrite <-Hq0, <-Hq1, Hpt0, Hpt1. unfold counter in *.
    repeat match goal with |- context [point ?b] =>
      pose proof (point_bound b); generalize dependent (point b); intros end.
    lia. }
  set (scores := addInt 1 _ _).
  assert (getInt scores 0 = total 0 ∧ getInt scores 1 = total 1) as [Ht0 Ht1].
  { subst scores total. cbv beta. unfold counter in *.
    repeat first [ rewrite getInt_addInt_eq
                 | rewrite getInt_addInt_ne by done ].
    rewrite Hq0, Hq1, HS.
    rewrite !add_small by (unfold GoInt.in_range; lia). done. }
  clearbody scores.
  exists (setLastSetResults (Some awarded) (setScores scores g1)), awarded.
  split_and!; try done.
  - intros p [-> | ->]; rewrite ?Hac, ?Hao, ?Hah, ?Has, ?Hae, ?Hesc;
      split_and!; try done.
  - simpl. rewrite Ht0, Ht1, HR.
    destruct (Z.leb_spec 15 (total 0)), (Z.leb_spec 15 (total 1)); simpl;
      destruct (Z.ltb_spec (total 1) (total 0)),
        (Z.ltb_spec (total 0) (total 1));
      repeat case_bool_decide; try done; lia.
Qed.



(** ** JSON round trips *)

Lemma in_range_decide (n : Z) :
  GoInt.in_range n → bool_decide (GoInt.in_range n) = true.
Proof. apply bool_decide_eq_true_2. Qed.

Lemma unmarshalInt_JNumber n :
  GoInt.in_range n → unmarshalInt (JNumber n) = Some n.
Proof. intros Hn. unfold unmarshalInt. by rewrite in_range_decide. Qed.

Lemma parseKey_formatKey k : GoInt.in_range k → parseKey (formatKey k) = Some k.
Proof.
  intros Hk. unfold parseKey, formatKey.
  assert (NilZero.int_of_string (NilZero.string_of_int (Z.to_int k))
          = Some (Z.to_int k)) as Hparse.
  { apply NilZero.isi; destruct k; simpl; try done;
      intros [= H]; by apply Unsigned.to_uint_nonnil in H. }
  assert (∀ digits, NilZero.string_of_int (Z.to_int k) ≠ String "+" digits)
    as Hsign.
  { intros digits Heq. rewrite Heq in Hparse. simpl in Hparse.
    by destruct (NilEmpty.uint_of_string digits). }
  destruct (NilZero.string_of_int (Z.to_int k)) as [|a s] eqn:Hs.
  { by rewrite Hparse. }
  destruct (decide (a = "+"%char)) as [->|Ha]; [by destruct (Hsign s)|].
  assert ((match String a s with
           | String "+"%char digits =>
               Z.of_uint <$> NilZero.uint_of_string digits
           | _ => Z.of_int <$> NilZero.int_of_string (String a s)
           end) = Z.of_int <$> NilZero.int_of_string (String a s)) as ->.
  { destruct a as [[] [] [] [] [] [] [] []]; try done. }
  rewrite Hparse. simpl. rewrite DecimalZ.of_to. by rewrite in_range_decide.
Qed.

Lemma mapM_fmap_round_trip {A} (decode : json → option A) (encode : A → json)
    (l : list A) :
  Forall (λ x, decode (encode x) = Some x) l →
  mapM decode (encode <$> l) = Some l.
Proof.
  intros Hl. apply mapM_Some_2. apply Forall2_fmap_l.
  by apply Forall_Forall2_diag.
Qed.

Lemma foldl_insert_list_to_map {A} (l : list (Z * A)) :
  foldl (λ m kv, <[kv.1 := kv.2]> m) (∅ : gmap Z A) l
  = list_to_map (reverse l).
Proof.
  induction l as [|x l IH] using rev_ind; [done|].
  by rewrite foldl_app, reverse_app, IH.
Qed.

Lemma unmarshalMap_fields {A} (decode : json → option A) (encode : A → json)
    (l : list (Z * A)) (acc : gmap Z A) :
  Forall (λ kv, GoInt.in_range kv.1 ∧ decode (encode kv.2) = Some kv.2) l →
  foldl (λ acc kv,
           m ← acc; k ← parseKey kv.1; v ← decode kv.2; Some (<[k := v]> m))
        (Some acc) ((λ kv, (formatKey kv.1, encode kv.2)) <$> l)
  = Some (foldl (λ m kv, <[kv.1 := kv.2]> m) acc l).
Proof.
  intros Hl. revert acc. induction Hl as [|[k v] l [Hk Hv] _ IH]; [done|].
  intros acc. cbn [fmap list_fmap foldl fst snd] in *.
  rewrite parseKey_formatKey by done. cbn [mbind option_bind].
  rewrite Hv. cbn [mbind option_bind]. apply IH.
Qed.

Lemma unmarshalMap_marshalMap {A} (P : A → Prop) (decode : json → option A)
    (encode : A → json) (m : gmap Z A) :
  (∀ v, P v → decode (encode v) = Some v) →
  goMap P m → unmarshalMap decode (marshalMap encode m) = Some m.
Proof.
  intros Hround Hm. unfold unmarshalMap, marshalMap.
  pose proof (merge_sort_Permutation keyOrder
                ((λ kv, (formatKey kv.1, encode kv.2)) <$> map_to_list m))
    as Hsorted.
  apply (Permutation_map_inv
           (λ kv : Z * A, (formatKey kv.1, encode kv.2))) in Hsorted
    as (l & Hl & Hperm).
  change (map ?f l) with (f <$> l) in Hl. rewrite Hl.
  rewrite (unmarshalMap_fields decode encode).
  - f_equal. rewrite foldl_insert_list_to_map.
    etrans; [|apply (list_to_map_to_list m)].
    apply list_to_map_proper.
    + rewrite fmap_reverse, reverse_Permutation, <-Hperm.
      apply NoDup_fst_map_to_list.
    + by rewrite reverse_Permutation.
  - rewrite <-Hperm. apply Forall_forall. intros [k v] Hkv%elem_of_map_to_list.
    destruct (Hm k v Hkv) as [Hk Hv]. split; [done|]. by apply Hround.
Qed.

Lemma unmarshalCard_marshalCard c :
  goCard c → unmarshalCard (marshalCard c) = Some c.
Proof.
  intros [_ Hnumber]. destruct c as [suit number]. simpl in Hnumber.
  unfold unmarshalCard, marshalCard, field. simpl.
  by rewrite in_range_decide.
Qed.

Lemma unmarshalCards_marshalCards cs :
  Forall goCard cs → unmarshalSlice unmarshalCard (marshalCards cs) = Some cs.
Proof.
  intros Hcs. unfold unmarshalSlice, marshalCards.
  apply mapM_fmap_round_trip.
  eapply Forall_impl; [done|]. apply unmarshalCard_marshalCard.
Qed.

Lemma unmarshalInts_round_trip ns :
  Forall GoInt.in_range ns →
  unmarshalSlice unmarshalInt (JArray (JNumber <$> ns)) = Some ns.
Proof.
  intros Hns. unfold unmarshalSlice. apply mapM_fmap_round_trip.
  eapply Forall_impl; [done|]. apply unmarshalInt_JNumber.
Qed.

Lemma unmarshalRaws_round_trip (raws : list json) :
  unmarshalSlice unmarshalRaw (JArray raws) = Some raws.
Proof.
  unfold unmarshalSlice. apply mapM_Some_2. by apply Forall_Forall2_diag, Forall_true.
Qed.

Lemma unmarshalHand_marshalHand (h : option Hand) :
  goHand h →
  unmarshalPointer unmarshalHand (marshalPointer marshalHand h) = Some h.
Proof.
  destruct h as [[cs]|]; [|done]. intros Hcs.
  cbn -[marshalCards unmarshalSlice] in *.
  by rewrite unmarshalCards_marshalCards.
Qed.

Lemma unmarshalSetResult_marshalSetResult (r : option SetResult) :
  from_option goSetResult True r →
  unmarshalPointer unmarshalSetResult (marshalPointer marshalSetResult r)
  = Some r.
Proof.
  destruct r as [[m1 m2 m3 m4 m5 m6]|]; [|done].
  intros (H1 & H2 & H3 & H4 & H5 & H6). simpl in *.
  unfold field. cbn [lookupField String.eqb Ascii.eqb Bool.eqb].
  rewrite !(unmarshalMap_marshalMap GoInt.in_range unmarshalInt JNumber)
    by (done || apply unmarshalInt_JNumber).
  rewrite (unmarshalMap_marshalMap (λ _, True) unmarshalBool JBool) by done.
  done.
Qed.

Lemma DeserializeAction_SerializeAction a :
  Name a = THROW_CARD →
  goCard (ThrownCard a) → Forall goCard (CapturedTableCards a) →
  DeserializeAction (SerializeAction a) = inr a.
Proof.
  destruct a as [name card captured]. simpl. intros -> Hcard Hcaptured.
  unfold DeserializeAction, SerializeAction.
  cbn -[marshalCard unmarshalCard marshalCards unmarshalSlice].
  rewrite bool_decide_eq_true_2 by done.
  rewrite unmarshalCard_marshalCard by done.
  cbn -[marshalCards unmarshalSlice].
  by rewrite unmarshalCards_marshalCards.
Qed.

Lemma DeserializeAction_unknown a :
  Name a ≠ THROW_CARD →
  DeserializeAction (SerializeAction a) = inl (errUnknownActionType (Name a)).
Proof.
  destruct a as [name card captured]. simpl. intros Hname.
  unfold DeserializeAction, SerializeAction.
  cbn -[marshalCard unmarshalCard marshalCards unmarshalSlice].
  by rewrite bool_decide_eq_false_2.
Qed.

Lemma unmarshalGameState_marshalGameState g :
  goState g →
  unmarshalGameState (marshalGameState g) = Some (setDeck None g).
Proof.
  intros (Hints & Howners & Htable & Hhands & Hpiles & Hescobas & Hscores
          & Hresults).
  apply Forall_cons in Hints as [H1 Hints].
  apply Forall_cons in Hints as [H2 Hints].
  apply Forall_cons in Hints as [H3 Hints].
  apply Forall_cons in Hints as [H4 Hints].
  apply Forall_cons in Hints as [H5 _].
  destruct g as [dealer round turn hands table piles escobas scores possible
    roundFinished setFinished ended winner actions owners roundStarted
    results capturer setStarted deck].
  cbn [RoundTurnPlayerID RoundNumber TurnPlayerID Hands TableCards
    Piles Escobas Scores PossibleActions RoundFinished SetFinished IsEnded
    WinnerPlayerID Actions ActionOwnerPlayerIDs RoundJustStarted
    LastSetResults LastCapturerPlayerID SetJustStarted Deck] in *.
  unfold unmarshalGameState, marshalGameState, field, setDeck.
  cbn [lookupField String.eqb Ascii.eqb Bool.eqb
       RoundTurnPlayerID RoundNumber TurnPlayerID Hands TableCards
       Piles Escobas Scores PossibleActions RoundFinished SetFinished IsEnded
       WinnerPlayerID Actions ActionOwnerPlayerIDs RoundJustStarted
       LastSetResults LastCapturerPlayerID SetJustStarted Deck].
  rewrite !unmarshalInt_JNumber by done.
  rewrite (unmarshalMap_marshalMap goHand
             (unmarshalPointer unmarshalHand) (marshalPointer marshalHand))
    by (done || apply unmarshalHand_marshalHand).
  rewrite !unmarshalCards_marshalCards by done.
  rewrite (unmarshalMap_marshalMap (Forall goCard)
             (unmarshalSlice unmarshalCard) marshalCards)
    by (done || apply unmarshalCards_marshalCards).
  rewrite !(unmarshalMap_marshalMap GoInt.in_range unmarshalInt JNumber)
    by (done || apply unmarshalInt_JNumber).
  rewrite !unmarshalRaws_round_trip.
  rewrite unmarshalInts_round_trip by done.
  rewrite unmarshalSetResult_marshalSetResult by done.
  reflexivity.
Qed.

(** ** Deck arithmetic *)

Lemma spanishCards_numbers :
  Forall (λ c, 1 ≤ Number c ≤ 7 ∨ 10 ≤ Number c ≤ 12) spanishCards.
Proof. compute_done. Qed.

Lemma cardSum_Permutation cs cs' : cs ≡ₚ cs' → cardSum cs = cardSum cs'.
Proof.
  unfold cardSum. induction 1; simpl; lia.
Qed.

(** ** What a round start keeps and what it advertises *)

Lemma serializeActions_fmap acts : _serializeActions acts = SerializeAction <$> acts.
Proof. unfold _serializeActions. by rewrite foldl_snoc_fmap. Qed.

Lemma dealRound_advertised g d g' :
  dealRound g d = Ret g' →
  advertised g'
  ∧ Actions g' = Actions g
  ∧ ActionOwnerPlayerIDs g' = ActionOwnerPlayerIDs g.
Proof.
  unfold dealRound.
  destruct (dealHand d) as [h0 d0]. destruct (dealHand _) as [h1 d1].
  cbv zeta.
  match goal with |- (CalculatePossibleActions ?gx ≫= _) = _ → _ =>
    set (g2 := gx) end.
  assert (Actions g2 = Actions g
          ∧ ActionOwnerPlayerIDs g2 = ActionOwnerPlayerIDs g) as [HA HO].
  { subst g2.
    match goal with |- context [if ?c then _ else _] => destruct c end;
      [|split; reflexivity].
    destruct (dealTable 4 _ _) as [tableCards rest].
    match goal with |- context [if ?c then _ else _] => destruct c end;
      split; reflexivity. }
  clearbody g2.
  destruct (CalculatePossibleActions g2) as [actions| |] eqn:Hactions;
    simpl; [|done..].
  intros [= <-]. split; [|done].
  exists actions. split; [exact Hactions|].
  simpl. apply serializeActions_fmap.
Qed.

Lemma startNewRound_advertised shs :
  ∀ g g', startNewRound shs g = Ret g' →
    (IsEnded g' = false → advertised g')
    ∧ Actions g' = Actions g
    ∧ ActionOwnerPlayerIDs g' = ActionOwnerPlayerIDs g.
Proof.
  induction shs as [|shuffle shs IH]; intros g g'; rewrite startNewRound_eq;
    cbv zeta; unfold deckOf;
    (destruct (Deck _) as [d|] eqn:Hdeck; [|done]);
    cbn [mbind outcome_bind];
    (destruct (6 <=? lenZ (cards d));
     [intros (Hadv & HA & HO)%dealRound_advertised; by split_and!|]);
    unfold scoreSet, scoreSetWith; cbv zeta;
    set (result := awardPoints _ _); clearbody result;
    rewrite applyPoints_eq;
    match goal with |- context [awardTableCards ?gx] =>
      assert (Actions (awardTableCards gx) = Actions g
              ∧ ActionOwnerPlayerIDs (awardTableCards gx)
                = ActionOwnerPlayerIDs g) as [HA HO]
        by (unfold awardTableCards; destruct (0 <? lenZ _); split; reflexivity);
      set (g1 := awardTableCards gx) in *; clearbody g1
    end;
    (destruct (_ || _);
     [repeat case_match; intros [= <-]; split_and!; done|]).
  - done.
  - unfold startNewSet, startNewSetWith. cbv zeta.
    intros (Hadv & HA' & HO')%IH. split; [done|].
    rewrite HA', HO'. by split.
Qed.

(** ** The two ways [RunAction] ends after a legal throw *)

Lemma RunAction_trace c a g :
  fairChance c → Inv g → IsEnded g = false → IsPossible a g = Ret true →
  ∃ g1 g',
    Run (rangeOrder c) a g = Ret (None, g1)
    ∧ RunAction c a g = Ret (None, g')
    ∧ Inv g'
    ∧ ((handCards g1 0 = [] ∧ handCards g1 1 = []
        ∧ startNewRound (shuffles c) (setRoundFinished true (recorded a g1))
          = Ret g')
       ∨ ((handCards g1 0 ≠ [] ∨ handCards g1 1 ≠ [])
          ∧ ∃ actions,
              CalculatePossibleActions
                (setTurnPlayerID (OpponentOf (TurnPlayerID g))
                   (recorded a g1)) = Ret actions
              ∧ g' = setPossibleActions (SerializeAction <$> actions)
                       (setTurnPlayerID (OpponentOf (TurnPlayerID g))
                          (recorded a g1)))).
Proof.
  intros Hc Hinv Hended Hposs.
  destruct (RunAction_legal c a g Hc Hinv Hended Hposs) as (g' & Hg' & Hinv').
  destruct Hc as (Hlen & Hfair & Horder).
  destruct (Run_effect _ a g Horder Hinv Hposs)
    as (g1 & HRun & [k0 Hk0] & [k1 Hk1] & _ & _ & _ & _
        & _ & _ & HT & _ & HE & HRF & HSF).
  destruct (inv_running g Hinv Hended) as (Hrf & Hsf & _).
  exists g1, g'. split; [done|]. split; [done|]. split; [done|].
  revert Hg'. unfold RunAction. rewrite Hended, Hposs. simpl. rewrite HRun.
  simpl. unfold handOf. simpl. rewrite Hk0. simpl.
  assert (handCards g1 0 = Cards k0) as Hc0 by (unfold handCards; by rewrite Hk0).
  assert (handCards g1 1 = Cards k1) as Hc1 by (unfold handCards; by rewrite Hk1).
  match goal with |- (?m ≫= _) = _ → _ =>
    assert (m = Ret (bool_decide (Cards k0 = [])
                     && bool_decide (Cards k1 = []))) as -> end.
  { rewrite lenZ_eqb_0. case_bool_decide; [|done].
    rewrite Hk1. simpl. by rewrite lenZ_eqb_0. }
  simpl.
  destruct (bool_decide (Cards k0 = []) && bool_decide (Cards k1 = []))
    eqn:Hboth; simpl;
    rewrite ?HE, ?HRF, ?HSF, ?Hended, ?Hrf, ?Hsf; simpl.
  - apply andb_true_iff in Hboth as [He0 He1].
    apply bool_decide_eq_true in He0, He1.
    unfold recorded, CurrentPlayerID. simpl.
    destruct (startNewRound _ _) as [g2| |] eqn:Hstart; simpl; [|done..].
    intros [= <-]. left. by rewrite Hc0, Hc1.
  - unfold recorded, CurrentPlayerID. simpl. rewrite HT.
    destruct (CalculatePossibleActions _) as [actions| |] eqn:Hactions;
      simpl; [|done..].
    intros [= <-]. right. split.
    + rewrite Hc0, Hc1. apply andb_false_iff in Hboth as [Hb|Hb];
        apply bool_decide_eq_false in Hb; [by left|by right].
    + exists actions. split; [done|]. by rewrite serializeActions_fmap.
Qed.

Lemma RunAction_history c a g g' :
  fairChance c → Inv g → IsEnded g = false → IsPossible a g = Ret true →
  RunAction c a g = Ret (None, g') →
  Actions g' = Actions g ++ [SerializeAction a]
  ∧ ActionOwnerPlayerIDs g' = ActionOwnerPlayerIDs g ++ [TurnPlayerID g]
  ∧ ((length (handCards g 0) + length (handCards g 1) ≠ 1)%nat →
     TurnPlayerID g' = OpponentOf (TurnPlayerID g)
     ∧ RoundNumber g' = RoundNumber g
     ∧ RoundJustStarted g' = false ∧ SetJustStarted g' = false).
Proof.
  intros Hc Hinv Hended Hposs Hg'.
  destruct (RunAction_trace c a g Hc Hinv Hended Hposs)
    as (g1 & g'' & HRun & Hg'' & _ & Hcases).
  rewrite Hg' in Hg''. injection Hg'' as <-.
  destruct Hc as (_ & _ & Horder).
  destruct (Run_effect _ a g Horder Hinv Hposs)
    as (g1' & HRun' & _ & _ & Hmine & Htheirs & Hin & _ & _ & _ & HT & _).
  rewrite HRun in HRun'. injection HRun' as <-.
  assert (Actions g1 = Actions g
          ∧ ActionOwnerPlayerIDs g1 = ActionOwnerPlayerIDs g
          ∧ RoundNumber g1 = RoundNumber g) as (HA & HO & HN).
  { revert HRun. unfold Run. destruct (handOf _ _); simpl; [|done..].
    intros [= <-].
    repeat match goal with |- context [if ?b then _ else _] =>
      destruct b end; by split_and!. }
  apply deleteFirst_length in Hin. rewrite <-Hmine in Hin.
  apply (f_equal length) in Htheirs.
  assert (length (handCards g1 0) + length (handCards g1 1) + 1
          = length (handCards g 0) + length (handCards g 1))%nat as Hcount.
  { destruct (inv_turn g Hinv) as [Ht | Ht]; rewrite Ht in *;
      unfold OpponentOf in *; simpl in *; lia. }
  destruct Hcases as [(He0 & He1 & Hstart)
                     |(Hsome & actions & Hactions & ->)].
  - apply startNewRound_advertised in Hstart as (_ & HA' & HO').
    rewrite HA', HO'. simpl. rewrite HA, HO, HT.
    split; [done|]. split; [done|].
    rewrite He0, He1 in Hcount. simpl in Hcount. lia.
  - simpl. rewrite HA, HO, HT, HN. by split_and!.
Qed.

Lemma subsets_sublist (s l : list Card) : s ∈ subsets l → s `sublist_of` l.
Proof.
  revert s. induction l as [|c l IH]; intros s; simpl.
  - intros ->%list_elem_of_singleton. constructor.
  - intros [(s' & -> & Hs')%list_elem_of_fmap | Hs]%elem_of_app.
    + apply sublist_skip. by apply IH.
    + apply sublist_cons. by apply IH.
Qed.

Lemma combination_submseteq thrownCard tableCards comb :
  positiveValue thrownCard → Forall positiveValue tableCards →
  comb ∈ findAllValidCombinations thrownCard tableCards →
  cardSum comb = 15 - GetEscobaValue thrownCard ∧ comb ⊆+ tableCards.
Proof.
  intros Hthrown Htable. rewrite findAllValidCombinations_spec by done.
  unfold specCombinations.
  destruct (15 - GetEscobaValue thrownCard <=? 0); [by intros ?%elem_of_nil|].
  intros [Hsum Hsub%subsets_sublist]%list_elem_of_filter.
  split; [done|]. by apply sublist_submseteq.
Qed.

Lemma enumerated_possible g :
  Inv g → IsEnded g = false →
  ∃ actions,
    CalculatePossibleActions g = Ret actions
    ∧ actions ≠ []
    ∧ Forall (λ a, Name a = THROW_CARD
                   ∧ validCard (ThrownCard a)
                   ∧ Forall validCard (CapturedTableCards a)
                   ∧ IsPossible a g = Ret true) actions.
Proof.
  intros Hinv Hended.
  destruct (present_turn g Hinv) as [hand Hhand].
  assert (handOf g (TurnPlayerID g) = Ret hand) as Hof.
  { unfold handOf. by rewrite Hhand. }
  destruct (inv_running g Hinv Hended) as (_ & _ & Hbal%balanced_nonempty).
  rewrite (handCards_turn g hand Hhand) in Hbal.
  destruct (Inv_valid_hand_table g Hinv) as (Hv0 & Hv1 & Hvt).
  assert (Forall validCard (Cards hand)) as Hvh.
  { rewrite <-(handCards_turn g hand Hhand).
    by destruct (inv_turn g Hinv) as [-> | ->]. }
  assert (lenZ (TableCards g) < 2 ^ 32) as Hlen.
  { pose proof (inv_cards g Hinv) as Hall%Permutation_length.
    rewrite spanishCards_length in Hall. unfold allCards in Hall.
    rewrite !length_app in Hall. unfold lenZ. lia. }
  pose proof (validCards_positive _ Hvh) as Hph.
  pose proof (validCards_positive _ Hvt) as Hpt.
  exists (if bool_decide (Exists (findsCapture (TableCards g)) (Cards hand))
          then foundActions (TableCards g) (Cards hand)
          else discardActions (Cards hand)).
  split; [by apply CalculatePossibleActions_eq|].
  case_bool_decide as Hex.
  - split.
    + intros Hnil. apply Exists_exists in Hex as (c & Hc & Hfinds).
      apply list_elem_of_split in Hc as (l1 & l2 & Hl).
      rewrite Hl in Hnil. revert Hnil. clear -Hfinds.
      unfold findsCapture in Hfinds.
      induction l1 as [|x l1 IH]; cbn [app].
      * rewrite foundActions_cons.
        destruct (findAllValidCombinations c (TableCards g)); done.
      * rewrite foundActions_cons. intros [_ ?]%app_eq_nil. by apply IH.
    + apply Forall_forall. intros a Ha. unfold foundActions in Ha.
      apply list_elem_of_bind in Ha as (card & Ha & Hcard).
      apply list_elem_of_fmap in Ha as (comb & -> & Hcomb).
      assert (positiveValue card) as Hpc
        by (by eapply Forall_forall in Hph).
      destruct (combination_submseteq _ _ _ Hpc Hpt Hcomb) as [Hsum Hsub].
      simpl. split; [done|]. split; [by eapply Forall_forall in Hvh|].
      split.
      { apply Forall_forall. intros x Hx.
        eapply Forall_forall in Hvt; [done|]. by eapply elem_of_submseteq. }
      apply (IsPossible_iff _ g hand); try done. simpl.
      split; [done|]. split; [|done].
      intros ->. by eapply combination_nonempty in Hcomb.
  - split; [unfold discardActions; by destruct (Cards hand)|].
    apply Forall_forall. intros a Ha. unfold discardActions in Ha.
    apply list_elem_of_fmap in Ha as (card & -> & Hcard). simpl.
    split; [done|]. split; [by eapply Forall_forall in Hvh|].
    split; [constructor|].
    apply (IsPossible_iff _ g hand); try done. simpl.
    split; [done|]. split; [|done].
    intros _. destruct (findAllValidCombinations card (TableCards g)) eqn:Hf;
      [done|].
    destruct Hex. apply Exists_exists. exists card. split; [done|].
    unfold findsCapture. by rewrite Hf.
Qed.

Lemma Reachable_advertised g : Reachable g → IsEnded g = false → advertised g.
Proof.
  induction 1 as [c g Hc HNew|c a g err g' Hc Hreach IH Hrun]; intros Hended.
  - destruct Hc as (Hlen & _ & _). revert HNew. unfold New.
    destruct (shuffles c) as [|shuffle [|shuffle' shs]];
      [done|simpl in Hlen; lia|].
    cbn [foldl]. unfold startNewSet, startNewSetWith. cbv zeta.
    intros (Hadv & _)%startNewRound_advertised. by apply Hadv.
  - pose proof (Reachable_Inv g Hreach) as Hinv.
    destruct (RunAction_cases c a g Hc Hinv)
      as [[He Hg']|[(He & Hposs & Hg')|(He & Hposs & _)]].
    + rewrite Hg' in Hrun. injection Hrun as <- <-. congruence.
    + rewrite Hg' in Hrun. injection Hrun as <- <-. by apply IH.
    + destruct (RunAction_trace c a g Hc Hinv He Hposs)
        as (g1 & g'' & _ & Hg'' & _ & Hcases).
      rewrite Hrun in Hg''. injection Hg'' as -> <-.
      destruct Hcases as [(_ & _ & Hstart)|(_ & actions & Hactions & ->)].
      * apply startNewRound_advertised in Hstart as (Hadv & _).
        by apply Hadv.
      * exists actions. split; [exact Hactions|done].
Qed.

Lemma validCard_goCard c : validCard c → goCard c.
Proof.
  revert c. apply Forall_forall. compute_done.
Qed.

Lemma dealRound_IsEnded g d g' : dealRound g d = Ret g' → IsEnded g' = IsEnded g.
Proof.
  unfold dealRound.
  destruct (dealHand d) as [h0 d0]. destruct (dealHand _) as [h1 d1].
  cbv zeta.
  match goal with |- (CalculatePossibleActions ?gx ≫= _) = _ → _ =>
    set (g2 := gx) end.
  assert (IsEnded g2 = IsEnded g) as HE.
  { subst g2.
    match goal with |- context [if ?c then _ else _] => destruct c end;
      [|reflexivity].
    destruct (dealTable 4 _ _) as [tableCards rest].
    match goal with |- context [if ?c then _ else _] => destruct c end;
      reflexivity. }
  clearbody g2.
  destruct (CalculatePossibleActions g2) as [actions| |]; simpl; [|done..].
  by intros [= <-].
Qed.

Lemma startNewRound_ended shs :
  ∀ g g', startNewRound shs g = Ret g' →
    IsEnded g = false → IsEnded g' = true →
    PossibleActions g' = PossibleActions g.
Proof.
  induction shs as [|shuffle shs IH]; intros g g'; rewrite startNewRound_eq;
    cbv zeta; unfold deckOf;
    (destruct (Deck _) as [d|] eqn:Hdeck; [|done]);
    cbn [mbind outcome_bind];
    (destruct (6 <=? lenZ (cards d));
     [intros HE%dealRound_IsEnded; simpl in HE; congruence|]);
    unfold scoreSet, scoreSetWith; cbv zeta;
    set (result := awardPoints _ _); clearbody result;
    rewrite applyPoints_eq;
    match goal with |- context [awardTableCards ?gx] =>
      assert (PossibleActions (awardTableCards gx) = PossibleActions g
              ∧ IsEnded (awardTableCards gx) = IsEnded g) as [HP HE]
        by (unfold awardTableCards; destruct (0 <? lenZ _); split; reflexivity);
      set (g1 := awardTableCards gx) in *; clearbody g1
    end;
    (destruct (_ || _);
     [repeat case_match; by intros [= <-]|]).
  - done.
  - unfold startNewSet, startNewSetWith. cbv zeta.
    intros Hstart Hended Hended'.
    apply IH in Hstart; [|simpl; congruence|done].
    rewrite Hstart. exact HP.
Qed.

Lemma played_Reachable n :
  Reachable (Nat.iter n (playFirst reverseChance) openingState).
Proof.
  induction n as [|n IH]; simpl; [apply openingState_Reachable|].
  apply afterAction_Reachable; [apply reverseChance_fair|done].
Qed.

Lemma matchPoint_Reachable : Reachable matchPoint.
Proof.
  assert (matchPoint = Nat.iter 143 (playFirst reverseChance) openingState)
    as -> by (vm_compute; reflexivity).
  apply played_Reachable.
Qed.

(** * The claims of the specification *)

(** ** C1: the cards of a reachable state *)

(** C1, as stated, fails: in the opening state of a game the hands, the
    table and the piles hold ten cards, the other thirty are still in the
    deck; the ace of oros, for one, is in none of them. *)
Lemma C1_counterexample :
  Reachable openingState
  ∧ length (heldCards openingState) = 10%nat
  ∧ (mkCard ORO 1 ∉ heldCards openingState)
  ∧ ¬ (heldCards openingState ≡ₚ spanishCards).
Proof.
  split_and!.
  - apply openingState_Reachable.
  - reflexivity.
  - compute_done.
  - intros Hperm. apply Permutation_length in Hperm. vm_compute in Hperm.
    discriminate.
Qed.

(** C1, amended: in every reachable state the hands, the table, the piles
    and the cards still in the deck are, together, exactly the forty cards
    of the Spanish deck, none twice and none missing; the cards in play
    alone are distinct cards of the deck. *)
Theorem C1_cards_partition g :
  Reachable g →
  heldCards g ++ deckCards g ≡ₚ spanishCards
  ∧ NoDup (heldCards g)
  ∧ heldCards g ⊆+ spanishCards
  ∧ present g 0 ∧ present g 1 ∧ is_Some (Deck g).
Proof.
  intros [Hp0 Hp1 Hdeck Hcards _ _ _ _]%Reachable_Inv.
  assert (heldCards g ++ deckCards g ≡ₚ spanishCards) as Hall.
  { rewrite <-Hcards. unfold heldCards, allCards. by rewrite <-!app_assoc. }
  split_and!; try done.
  - pose proof spanishCards_NoDup as Hnd. rewrite <-Hall in Hnd.
    by apply NoDup_app in Hnd as (? & _ & _).
  - rewrite <-Hall. by apply submseteq_inserts_r.
Qed.

Lemma C1_cards_partition_witness :
  Reachable openingState
  ∧ heldCards openingState ++ deckCards openingState ≡ₚ spanishCards.
Proof.
  split; [apply openingState_Reachable|].
  apply (C1_cards_partition openingState openingState_Reachable).
Defined.

(** ** C2: legality of a throw *)

(** C2: with the turn player's hand and the table holding cards of the
    deck, [IsPossible] answers true exactly when the hand contains the
    thrown card and, for a throw that declares no capture, the combination
    search finds nothing for that card on the table, or, for a throw that
    declares captures, their capture values add up to 15 minus the thrown
    card's and they form a sub-multiset of the table (each declared card
    consumes one table card). *)
Theorem C2_throw_legality a g hand :
  handOf g (TurnPlayerID g) = Ret hand →
  Forall validCard (Cards hand) →
  Forall validCard (TableCards g) →
  lenZ (TableCards g) < 2 ^ 32 →
  IsPossible a g = Ret true ↔
    ThrownCard a ∈ Cards hand
    ∧ (CapturedTableCards a = [] →
       findAllValidCombinations (ThrownCard a) (TableCards g) = [])
    ∧ (CapturedTableCards a ≠ [] →
       cardSum (CapturedTableCards a) = 15 - GetEscobaValue (ThrownCard a)
       ∧ CapturedTableCards a ⊆+ TableCards g).
Proof. apply IsPossible_iff. Qed.

Lemma C2_throw_legality_witness :
  let a := newActionThrowCard (mkCard BASTO 12)
             [mkCard BASTO 4; mkCard BASTO 1] in
  let hand := mkHand [mkCard BASTO 12; mkCard BASTO 11; mkCard BASTO 10] in
  handOf openingState (TurnPlayerID openingState) = Ret hand
  ∧ Forall validCard (Cards hand)
  ∧ Forall validCard (TableCards openingState)
  ∧ lenZ (TableCards openingState) < 2 ^ 32
  ∧ (IsPossible a openingState = Ret true ↔
       ThrownCard a ∈ Cards hand
       ∧ (CapturedTableCards a = [] →
          findAllValidCombinations (ThrownCard a) (TableCards openingState)
          = [])
       ∧ (CapturedTableCards a ≠ [] →
          cardSum (CapturedTableCards a)
          = 15 - GetEscobaValue (ThrownCard a)
          ∧ CapturedTableCards a ⊆+ TableCards openingState)).
Proof.
  assert (∀ l, bool_decide (Forall validCard l) = true → Forall validCard l)
    as Hvalid by (intros l; apply bool_decide_eq_true_1).
  intros a hand.
  assert (handOf openingState (TurnPlayerID openingState) = Ret hand)
    as H1 by (vm_compute; reflexivity).
  assert (Forall validCard (Cards hand)) as H2
    by (apply Hvalid; vm_compute; reflexivity).
  assert (Forall validCard (TableCards openingState)) as H3
    by (apply Hvalid; vm_compute; reflexivity).
  assert (lenZ (TableCards openingState) < 2 ^ 32) as H4
    by (vm_compute; reflexivity).
  refine (conj H1 (conj H2 (conj H3 (conj H4 _)))).
  apply (C2_throw_legality a openingState hand H1 H2 H3 H4).
Defined.

(** ** C5: the combination search *)

(** C5: for cards of positive capture value (every card of the deck), the
    search returns exactly the subsets of the table, a card counted by its
    position, whose capture values add up to 15 minus the thrown card's,
    each once; nothing when that target is not positive; and a 7 thrown on
    a table of a 3, a 5 and a 10 (values 3, 5, 8) yields the two
    combinations 3+5 and 10. *)
Theorem C5_combination_search thrownCard tableCards :
  positiveValue thrownCard → Forall positiveValue tableCards →
  findAllValidCombinations thrownCard tableCards
    = specCombinations thrownCard tableCards
  ∧ (15 - GetEscobaValue thrownCard ≤ 0 →
     findAllValidCombinations thrownCard tableCards = [])
  ∧ (∀ c3 c5 c10,
       Number thrownCard = 7 → tableCards = [c3; c5; c10] →
       Number c3 = 3 → Number c5 = 5 → Number c10 = 10 →
       findAllValidCombinations thrownCard tableCards = [[c3; c5]; [c10]]).
Proof.
  intros Hthrown Htable.
  pose proof (findAllValidCombinations_spec _ _ Hthrown Htable) as Hspec.
  split_and!; [done| |].
  - intros Hlow. rewrite Hspec. unfold specCombinations.
    by destruct (Z.leb_spec (15 - GetEscobaValue thrownCard) 0); [|lia].
  - intros [s3 n3] [s5 n5] [s10 n10] H7 -> ; simpl; intros -> -> ->.
    destruct thrownCard as [s n]. simpl in H7. subst n. reflexivity.
Qed.

Lemma C5_combination_search_witness :
  let thrownCard := mkCard ORO 7 in
  let tableCards := [mkCard ESPADA 3; mkCard BASTO 5; mkCard ORO 10] in
  positiveValue thrownCard ∧ Forall positiveValue tableCards
  ∧ findAllValidCombinations thrownCard tableCards
    = specCombinations thrownCard tableCards.
Proof.
  intros thrownCard tableCards.
  assert (positiveValue thrownCard) as H1 by reflexivity.
  assert (Forall positiveValue tableCards) as H2
    by (repeat constructor).
  refine (conj H1 (conj H2 _)).
  exact (proj1 (C5_combination_search thrownCard tableCards H1 H2)).
Defined.

(** ** C8: errors of [RunAction] *)

(** C8: in a reachable state, [RunAction] on an ended game returns
    [errGameIsEnded], on an action that fails [IsPossible] it returns
    [errActionNotPossible]; no other error is returned, and with either the
    state is the one it was given.  When the action passes [IsPossible],
    [Run] returns no error and [RunAction] returns a new state and no
    error; neither call panics. *)
Theorem C8_run_action_errors c action g :
  fairChance c → Reachable g →
  (IsEnded g = true → RunAction c action g = Ret (Some errGameIsEnded, g))
  ∧ (IsEnded g = false → IsPossible action g = Ret false →
     RunAction c action g = Ret (Some errActionNotPossible, g))
  ∧ (IsEnded g = false → IsPossible action g = Ret true →
     (∃ g1, Run (rangeOrder c) action g = Ret (None, g1))
     ∧ ∃ g', RunAction c action g = Ret (None, g'))
  ∧ (∀ e g', RunAction c action g = Ret (Some e, g') →
     (e = errGameIsEnded ∨ e = errActionNotPossible) ∧ g' = g)
  ∧ (∃ possible, IsPossible action g = Ret possible)
  ∧ errGameIsEnded ≠ errActionNotPossible.
Proof.
  intros Hc Hinv%Reachable_Inv.
  pose proof (RunAction_cases c action g Hc Hinv) as Hcases.
  split_and!.
  - intros Hended.
    destruct Hcases as [(_ & ?)|[(? & _)|(? & _)]]; [done|congruence..].
  - intros Hended Hposs.
    destruct Hcases as [(? & _)|[(_ & _ & ?)|(_ & ? & _)]];
      [congruence|done|congruence].
  - intros Hended Hposs. split.
    + destruct Hc as (_ & _ & Horder).
      destruct (Run_effect _ action g Horder Hinv Hposs) as (g1 & ? & _).
      eauto.
    + destruct Hcases as [(? & _)|[(_ & ? & _)|(_ & _ & g' & ? & _)]];
        [congruence|congruence|eauto].
  - intros e g' Hrun.
    destruct Hcases as [(_ & Heq)|[(_ & _ & Heq)|(_ & _ & g'' & Heq & _)]];
      rewrite Heq in Hrun; simplify_eq; auto.
  - apply IsPossible_Ret. by apply present_turn.
  - done.
Qed.

Lemma C8_run_action_errors_witness :
  let action := newActionThrowCard (mkCard BASTO 12) [] in
  fairChance reverseChance ∧ Reachable openingState
  ∧ IsPossible action openingState = Ret false
  ∧ RunAction reverseChance action openingState
    = Ret (Some errActionNotPossible, openingState).
Proof.
  intros action.
  assert (IsPossible action openingState = Ret false) as Hposs
    by (vm_compute; reflexivity).
  refine (conj reverseChance_fair (conj openingState_Reachable
            (conj Hposs _))).
  apply (C8_run_action_errors reverseChance action openingState
           reverseChance_fair openingState_Reachable); [reflexivity|done].
Defined.

(** ** C10: the first dealer *)




(** ** C4: the legal actions *)

(** C4: in a reachable state of a game that has not ended, the player to
    move holds at least one card.  A valid combination of a card is a subset
    of the table, by position, whose capture values add up with the card's
    to 15 ([specCombinations]).  When some card of the hand has a valid
    combination, the legal actions are one capture per hand card and valid
    combination of that card, over the whole hand in hand order, and none
    of them is a bare discard; when no card of the hand has one, they are
    one capture-free discard per hand card; the list is never empty. *)
Theorem C4_legal_actions g :
  Reachable g → IsEnded g = false →
  ∃ hand actions,
    handOf g (TurnPlayerID g) = Ret hand
    ∧ CalculatePossibleActions g = Ret actions
    ∧ (Exists (canCapture (TableCards g)) (Cards hand) →
       actions = captureActions (TableCards g) (Cards hand)
       ∧ Forall (λ a, CapturedTableCards a ≠ []) actions)
    ∧ (¬ Exists (canCapture (TableCards g)) (Cards hand) →
       actions = discardActions (Cards hand))
    ∧ actions ≠ [].
Proof.
  intros Hinv%Reachable_Inv Hended.
  destruct (present_turn g Hinv) as [hand Hhand].
  assert (handOf g (TurnPlayerID g) = Ret hand) as Hof.
  { unfold handOf. by rewrite Hhand. }
  destruct (inv_running g Hinv Hended) as (_ & _ & Hbal%balanced_nonempty).
  rewrite (handCards_turn g hand Hhand) in Hbal.
  destruct (Inv_valid_hand_table g Hinv) as (Hv0 & Hv1 & Hvt%validCards_positive).
  assert (Forall positiveValue (Cards hand)) as Hvh.
  { apply validCards_positive.
    rewrite <-(handCards_turn g hand Hhand).
    by destruct (inv_turn g Hinv) as [-> | ->]. }
  pose proof (findsCapture_spec _ _ Hvh Hvt) as Hcan.
  pose proof (foundActions_spec _ _ Hvh Hvt) as Hfound.
  pose proof (foundActions_capture _ _ Hvh Hvt) as Hcapt.
  exists hand. eexists. split; [done|].
  split; [by apply CalculatePossibleActions_eq|].
  rewrite <-Hcan, <-Hfound.
  case_bool_decide as Hex; split_and!; try done.
  - intros Hnil. apply Exists_exists in Hex as (c & Hc & Hfinds).
    apply list_elem_of_split in Hc as (l1 & l2 & Hl).
    rewrite Hl in Hnil. revert Hnil. clear -Hfinds.
    unfold findsCapture in Hfinds.
    induction l1 as [|x l1 IH]; cbn [app].
    + rewrite foundActions_cons.
      destruct (findAllValidCombinations c (TableCards g)); done.
    + rewrite foundActions_cons. intros [_ ?]%app_eq_nil. by apply IH.
  - unfold discardActions. by destruct (Cards hand).
Qed.

Lemma C4_legal_actions_witness :
  Reachable openingState ∧ IsEnded openingState = false
  ∧ ∃ actions,
      CalculatePossibleActions openingState = Ret actions
      ∧ actions = captureActions (TableCards openingState)
                    [mkCard BASTO 12; mkCard BASTO 11; mkCard BASTO 10]
      ∧ Forall (λ a, CapturedTableCards a ≠ []) actions
      ∧ actions ≠ [].
Proof.
  refine (conj openingState_Reachable (conj eq_refl _)).
  destruct (C4_legal_actions openingState openingState_Reachable eq_refl)
    as (hand & actions & H1 & H2 & H3 & _ & H5).
  assert (Cards hand = [mkCard BASTO 12; mkCard BASTO 11; mkCard BASTO 10])
    as Hhand.
  { vm_compute in H1. by injection H1 as <-. }
  rewrite Hhand in H3. destruct H3 as [H3 H4].
  { apply Exists_cons_hd. by vm_compute. }
  exists actions. exact (conj H2 (conj H3 (conj H4 H5))).
Defined.

(** ** C3: the effect of a throw *)

(** C3: in a reachable state, running an action that passed [IsPossible]
    returns no error and takes one copy of the thrown card out of the
    mover's hand, the other hand being untouched.  With captures declared,
    the captured cards then the thrown card are appended to the mover's
    pile, the table loses exactly the captured cards and never receives the
    thrown card, the mover becomes last capturer, and the mover's escobas
    grow by one exactly when the table is left empty (it held a card
    before, since the captures came from it).  With no capture declared the
    thrown card is appended to the table and piles, escobas and last
    capturer stay as they were. *)
Theorem C3_run_throw order a g :
  fairShuffle order → Reachable g → IsPossible a g = Ret true →
  ∃ g', Run order a g = Ret (None, g')
    ∧ handCards g (TurnPlayerID g)
      ≡ₚ ThrownCard a :: handCards g' (TurnPlayerID g)
    ∧ handCards g' (OpponentOf (TurnPlayerID g))
      = handCards g (OpponentOf (TurnPlayerID g))
    ∧ (CapturedTableCards a ≠ [] →
       getPile (Piles g') (TurnPlayerID g)
         = getPile (Piles g) (TurnPlayerID g)
           ++ CapturedTableCards a ++ [ThrownCard a]
       ∧ getPile (Piles g') (OpponentOf (TurnPlayerID g))
         = getPile (Piles g) (OpponentOf (TurnPlayerID g))
       ∧ TableCards g ≡ₚ CapturedTableCards a ++ TableCards g'
       ∧ (ThrownCard a ∉ TableCards g')
       ∧ LastCapturerPlayerID g' = TurnPlayerID g
       ∧ TableCards g ≠ []
       ∧ Escobas g' = if bool_decide (TableCards g' = [])
                      then addInt (TurnPlayerID g) 1 (Escobas g)
                      else Escobas g)
    ∧ (CapturedTableCards a = [] →
       TableCards g' = TableCards g ++ [ThrownCard a]
       ∧ Piles g' = Piles g ∧ Escobas g' = Escobas g
       ∧ LastCapturerPlayerID g' = LastCapturerPlayerID g)
    ∧ (getInt (Escobas g') (TurnPlayerID g)
         = GoInt.add (getInt (Escobas g) (TurnPlayerID g)) 1
       ↔ CapturedTableCards a ≠ [] ∧ TableCards g' = []
         ∧ TableCards g ≠ []).
Proof.
  intros Horder Hinv%Reachable_Inv Hposs.
  destruct Hinv as [[h0 Hh0] [h1 Hh1] Hdeck Hcards Hturn Hdealer Hcapt _].
  destruct (IsPossible_true a g Hposs) as (hand & Hhand & Hin & Hsub).
  pose proof (allCards_NoDup g Hcards) as Hnd.
  unfold Run, handOf. rewrite Hhand. simpl. rewrite lenZ_ltb_0.
  unfold allCards, handCards in Hnd. rewrite Hh0, Hh1 in Hnd.
  apply NoDup_app in Hnd as (_ & Hd0 & Hnd).
  apply NoDup_app in Hnd as (_ & Hd1 & Hnd).
  apply NoDup_app in Hnd as (Htab & _ & _).
  assert (ThrownCard a ∉ TableCards g) as Hnot.
  { intros Ht. destruct Hturn as [Ht0|Ht1].
    - rewrite Ht0 in Hhand. simplify_eq.
      apply (Hd0 _ Hin). rewrite !elem_of_app. auto.
    - rewrite Ht1 in Hhand. simplify_eq.
      apply (Hd1 _ Hin). rewrite !elem_of_app. auto. }
  assert (CapturedTableCards a ≠ [] → TableCards g ≠ []) as Hsome.
  { intros Hcap Hnil. apply Hsub in Hcap as Hs. rewrite Hnil in Hs.
    by apply submseteq_nil_r in Hs. }
  pose proof (removeCardsFromTable_Permutation order (TableCards g)
                (CapturedTableCards a) (ThrownCard a) Horder Htab) as Hrem.
  pose proof (deleteFirst_Permutation _ _ Hin) as Hdel.
  eexists. split; [done|].
  case_bool_decide as Hcap; simpl.
  - destruct Hturn as [Ht|Ht]; rewrite Ht in *; simplify_eq;
      unfold OpponentOf; state_simp; rewrite ?Hh0, ?Hh1;
      (split_and!; try done; try (by intros [? _]));
      split; try (by intros [? _]);
      intros Heq; symmetry in Heq; by apply add_one_ne in Heq.
  - rewrite lenZ_eqb_0, andb_true_r.
    specialize (Hrem (Hsub Hcap) Hnot).
    assert (ThrownCard a ∉ removeCardsFromTable order (TableCards g)
                             (CapturedTableCards a ++ [ThrownCard a]))
      as Hnot'.
    { intros Ht. apply Hnot. rewrite Hrem, elem_of_app. by right. }
    case_bool_decide as Hempty; simpl;
      destruct Hturn as [Ht|Ht]; rewrite Ht in *; simplify_eq;
      unfold OpponentOf; state_simp; rewrite ?Hh0, ?Hh1;
      rewrite ?getInt_addInt_eq;
      rewrite ?(bool_decide_eq_true_2 _ Hempty),
              ?(bool_decide_eq_false_2 _ Hempty);
      (split_and!; try done; try (intros _; split_and!; auto; done)).
    all: split; try (by intros (_ & ? & _)); try (intros _; by auto);
      intros Heq; symmetry in Heq; by apply add_one_ne in Heq.
Qed.

Lemma C3_run_throw_witness :
  let a := newActionThrowCard (mkCard BASTO 12)
             [mkCard BASTO 4; mkCard BASTO 1] in
  fairShuffle id ∧ Reachable openingState
  ∧ IsPossible a openingState = Ret true
  ∧ ∃ g', Run id a openingState = Ret (None, g').
Proof.
  intros a.
  assert (fairShuffle id) as H1 by (by intros l).
  assert (IsPossible a openingState = Ret true) as H3
    by (vm_compute; reflexivity).
  refine (conj H1 (conj openingState_Reachable (conj H3 _))).
  destruct (C3_run_throw id a openingState H1 openingState_Reachable H3)
    as (g' & Hrun & _).
  by exists g'.
Defined.

(** ** C7: the start of a round *)

(** C7, as stated, fails on the turn: the turn is given to the dealer at
    the start of every round, not of the first round only.  In the game of
    [openingState], player 1 throws the last card of round 1; [RunAction]
    calls [startNewRound] with the turn still on player 1, and round 2
    starts with the turn on player 0, the dealer. *)
Lemma C7_counterexample :
  Reachable beforeRoundTwo
  ∧ RoundNumber beforeRoundTwo = 1
  ∧ TurnPlayerID beforeRoundTwo = 1
  ∧ RunAction reverseChance lastThrow beforeRoundTwo = Ret (None, roundTwo)
  ∧ TurnPlayerID roundOneOver = 1
  ∧ RoundTurnPlayerID roundOneOver = 0
  ∧ startNewRound (shuffles reverseChance) roundOneOver = Ret roundTwo
  ∧ RoundNumber roundTwo = 2
  ∧ TurnPlayerID roundTwo = 0
  ∧ ¬ (∀ shs g g',
         startNewRound shs g = Ret g' → RoundNumber g' ≠ 1 →
         TurnPlayerID g' = TurnPlayerID g).
Proof.
  assert (startNewRound (shuffles reverseChance) roundOneOver = Ret roundTwo)
    as Hstart by (vm_compute; reflexivity).
  assert (RunAction reverseChance lastThrow beforeRoundTwo
          = Ret (None, roundTwo)) as Hrun by (vm_compute; reflexivity).
  refine (conj beforeRoundTwo_Reachable (conj eq_refl (conj eq_refl
           (conj Hrun (conj eq_refl (conj eq_refl (conj Hstart
             (conj eq_refl (conj eq_refl _))))))))).
  intros Hclaim. specialize (Hclaim _ _ _ Hstart).
  assert (RoundNumber roundTwo ≠ 1) as Hne by (by vm_compute).
  specialize (Hclaim Hne). vm_compute in Hclaim. discriminate Hclaim.
Qed.

(** C7, amended: every round start increments the round number and gives
    the turn to the dealer.  With fewer than six cards in the deck the set
    is marked finished and scored, nothing being dealt.  Otherwise each
    player is dealt three cards; on round 1 only, four more cards go to the
    table (the deck holding ten or more), and if the table then sums to 15
    the dealer receives it as a capture with one escoba and becomes last
    capturer, the table being left empty; on any other round the table, the
    piles, the escobas and the last capturer are left as they were. *)
Theorem C7_round_start shs g d :
  Deck g = Some d → isPlayer (RoundTurnPlayerID g) →
  let dealer := RoundTurnPlayerID g in
  let number := GoInt.add (RoundNumber g) 1 in
  (lenZ (cards d) < 6 →
   startNewRound shs g =
     scoreSet shs
       (setSetFinished true
          (setTurnPlayerID dealer
             (setRoundNumber number (setRoundJustStarted true g)))))
  ∧ (6 ≤ lenZ (cards d) →
     ∃ g', startNewRound shs g = Ret g'
       ∧ RoundNumber g' = number ∧ TurnPlayerID g' = dealer
       ∧ RoundTurnPlayerID g' = dealer
       ∧ handCards g' 0 = take 3 (cards d)
       ∧ handCards g' 1 = take 3 (drop 3 (cards d))
       ∧ length (handCards g' 0) = 3%nat ∧ length (handCards g' 1) = 3%nat
       ∧ SetFinished g' = SetFinished g ∧ RoundFinished g' = false
       ∧ (number ≠ 1 →
          deckCards g' = drop 6 (cards d)
          ∧ TableCards g' = TableCards g ∧ Piles g' = Piles g
          ∧ Escobas g' = Escobas g
          ∧ LastCapturerPlayerID g' = LastCapturerPlayerID g)
       ∧ (number = 1 →
          let dealt := TableCards g ++ take 4 (drop 6 (cards d)) in
          deckCards g' = drop 10 (cards d)
          ∧ (10 ≤ lenZ (cards d) →
             length (take 4 (drop 6 (cards d))) = 4%nat)
          ∧ (sumCards dealt = 15 →
             TableCards g' = []
             ∧ getPile (Piles g') dealer = getPile (Piles g) dealer ++ dealt
             ∧ getPile (Piles g') (OpponentOf dealer)
               = getPile (Piles g) (OpponentOf dealer)
             ∧ Escobas g' = addInt dealer 1 (Escobas g)
             ∧ LastCapturerPlayerID g' = dealer)
          ∧ (sumCards dealt ≠ 15 →
             TableCards g' = dealt ∧ Piles g' = Piles g
             ∧ Escobas g' = Escobas g
             ∧ LastCapturerPlayerID g' = LastCapturerPlayerID g))).
Proof.
  intros Hd Hdealer dealer number. subst dealer number.
  rewrite startNewRound_eq. cbv zeta. unfold deckOf. simpl. rewrite Hd.
  simpl. split.
  { intros Hlt. by destruct (Z.leb_spec 6 (lenZ (cards d))); [lia|]. }
  intros Hlen. destruct (Z.leb_spec 6 (lenZ (cards d))); [|lia].
  unfold dealRound. rewrite !dealHand_take_drop. cbv beta iota zeta.
  rewrite dealTable_take_drop. simpl.
  rewrite !drop_drop. simpl.
  match goal with |- ∃ g', (?m ≫= _) = _ ∧ _ =>
    destruct (CalculatePossibleActions_Ret
      ltac:(match m with CalculatePossibleActions ?g => exact g end))
      as [actions Hactions] end.
  { destruct (_ =? 1); [destruct (_ =? 15)|];
      state_simp; destruct Hdealer as [-> | ->];
      map_simp; eauto. }
  rewrite Hactions. simpl. eexists. split; [done|].
  assert (length (take 3 (cards d)) = 3%nat) as Hl0.
  { rewrite length_take. unfold lenZ in *. lia. }
  assert (length (take 3 (drop 3 (cards d))) = 3%nat) as Hl1.
  { rewrite length_take, length_drop. unfold lenZ in *. lia. }
  destruct (Z.eqb_spec (GoInt.add (RoundNumber g) 1) 1) as [Hone|Hone];
    [destruct (Z.eqb_spec (sumCards (TableCards g ++ take 4 (drop 6 (cards d)))) 15) as [Hsum|Hsum]|];
    state_simp; (split_and!; try done).
  - intros _. split_and!; try done.
    + intros Hten. rewrite length_take, length_drop. unfold lenZ in *. lia.
    + intros _. split_and!; try done. unfold OpponentOf.
      destruct Hdealer as [-> | ->]; simpl; by map_simp.
  - intros _. split_and!; try done.
    intros Hten. rewrite length_take, length_drop. unfold lenZ in *. lia.
Qed.

Lemma C7_round_start_witness :
  let d := mkDeck (deckCards openingState) in
  Deck openingState = Some d ∧ isPlayer (RoundTurnPlayerID openingState)
  ∧ (6 ≤ lenZ (cards d) →
     ∃ g', startNewRound [] openingState = Ret g'
           ∧ TurnPlayerID g' = RoundTurnPlayerID openingState).
Proof.
  intros d.
  assert (Deck openingState = Some d) as H1 by reflexivity.
  assert (isPlayer (RoundTurnPlayerID openingState)) as H2 by (by left).
  refine (conj H1 (conj H2 _)). intros H6.
  destruct (proj2 (C7_round_start [] openingState d H1 H2) H6)
    as (g' & Hg' & _ & Ht & _).
  exists g'. exact (conj Hg' Ht).
Defined.

(** ** C6: scoring a set *)

(** C6: [scoreSet] first appends the cards left on the table to the pile of
    the last capturer, who is the dealer from the start of the set until a
    capture is made.  For piles of distinct deck cards and counters within
    bounds, each player is then awarded one point per escoba of the set,
    one for strictly more cards in the pile, one for strictly more oros,
    one for holding the seven of oros, one for the strictly higher setenta
    when it is not zero, the setenta being the sum over the four suits of
    the best card worth 7 or less, and zero unless each suit has one; a tie
    awards nobody.  The points are added to the scores; the game then ends
    exactly when a score is 15 or more, won by the strictly higher score or
    drawn (winner -1) on equality; otherwise the dealer becomes the
    opponent and a new set starts, which, given shuffles, returns a game in
    round 1 with the new dealer as last capturer and the scores kept. *)
Theorem C6_score_set shs g :
  let final := λ p,
    getPile (Piles g) p
    ++ (if bool_decide (LastCapturerPlayerID g = p) then TableCards g
        else []) in
  let points := λ p,
    specPoints (getInt (Escobas g) p) (final p) (final (OpponentOf p)) in
  let total := λ p, getInt (Scores g) p + points p in
  isPlayer (LastCapturerPlayerID g) →
  final 0 ++ final 1 ⊆+ spanishCards →
  Forall counter [getInt (Escobas g) 0; getInt (Escobas g) 1;
                  getInt (Scores g) 0; getInt (Scores g) 1] →
  (∃ g1 result,
    TableCards g1 = []
    ∧ getPile (Piles g1) 0 = final 0 ∧ getPile (Piles g1) 1 = final 1
    ∧ getInt (Scores g1) 0 = total 0 ∧ getInt (Scores g1) 1 = total 1
    ∧ LastSetResults g1 = Some result
    ∧ (∀ p, isPlayer p →
         getInt (PointsAwarded result) p = points p
         ∧ getInt (CardCounts result) p = lenZ (final p)
         ∧ getInt (OroCardCounts result) p = oroCount (final p)
         ∧ getBool (HasSieteDeOro result) p = hasSieteDeOro (final p)
         ∧ getInt (SetentaScores result) p = specSetenta (final p)
         ∧ getInt (EscobasThisSet result) p = getInt (Escobas g) p)
    ∧ Hands g1 = Hands g ∧ Deck g1 = Deck g
    ∧ RoundTurnPlayerID g1 = RoundTurnPlayerID g
    ∧ IsEnded g1 = IsEnded g
    ∧ scoreSet shs g =
        if bool_decide (15 ≤ total 0 ∨ 15 ≤ total 1)
        then Ret (setWinnerPlayerID
                    (if bool_decide (total 1 < total 0) then 0
                     else if bool_decide (total 0 < total 1) then 1
                     else -1)
                    (setIsEnded true g1))
        else startNewSet shs
               (setRoundTurnPlayerID (OpponentOf (RoundTurnPlayerID g)) g1))
  ∧ (shs ≠ [] → Forall fairShuffle shs →
     ∀ g0, isPlayer (RoundTurnPlayerID g0) →
       ∃ g0', startNewSet shs g0 = Ret g0'
              ∧ RoundTurnPlayerID g0' = RoundTurnPlayerID g0
              ∧ LastCapturerPlayerID g0' = RoundTurnPlayerID g0
              ∧ RoundNumber g0' = 1
              ∧ Scores g0' = Scores g0)
  ∧ (shs ≠ [] → Forall fairShuffle shs →
     ¬ (15 ≤ total 0 ∨ 15 ≤ total 1) →
     ∃ g', scoreSet shs g = Ret g'
           ∧ RoundTurnPlayerID g' = OpponentOf (RoundTurnPlayerID g)
           ∧ LastCapturerPlayerID g' = OpponentOf (RoundTurnPlayerID g)
           ∧ RoundNumber g' = 1
           ∧ getInt (Scores g') 0 = total 0
           ∧ getInt (Scores g') 1 = total 1
           ∧ IsEnded g' = IsEnded g).
Proof.
  intros final points total Hcapt Hdeck Hcounters.
  assert (shs ≠ [] → Forall fairShuffle shs →
          ∀ g0, isPlayer (RoundTurnPlayerID g0) →
            ∃ g0', startNewSet shs g0 = Ret g0'
                   ∧ IsEnded g0' = IsEnded g0
                   ∧ RoundTurnPlayerID g0' = RoundTurnPlayerID g0
                   ∧ LastCapturerPlayerID g0' = RoundTurnPlayerID g0
                   ∧ RoundNumber g0' = 1
                   ∧ Scores g0' = Scores g0) as Hstart.
  { intros Hne Hfair g0 Hdealer.
    destruct (startNewSet_Inv shs g0 Hne Hfair Hdealer)
      as (g' & Hg' & _ & HE & HR & _ & HS & HN & HL).
    exists g'. by split_and!. }
  pose proof (scoreSet_spec shs g Hcapt Hdeck Hcounters) as Hmain.
  split; [exact Hmain|]. split.
  { intros Hne Hfair g0 Hdealer.
    destruct (Hstart Hne Hfair g0 Hdealer)
      as (g0' & Hg0' & _ & HR & HL & HN & HS).
    exists g0'. by split_and!. }
  intros Hne Hfair Hunder.
  destruct Hmain as (g1 & result & _ & _ & _ & Ht0 & Ht1 & _ & _ & _ & _
                     & _ & HE & Hscore).
  rewrite Hscore, bool_decide_eq_false_2 by done.
  destruct (Hstart Hne Hfair
              (setRoundTurnPlayerID (OpponentOf (RoundTurnPlayerID g)) g1))
    as (g' & Hg' & HE' & HR & HL & HN & HS).
  { simpl. unfold OpponentOf.
    destruct (RoundTurnPlayerID g =? 0); [by right|by left]. }
  exists g'. rewrite Hg', HR, HL, HN, HE', HS. simpl.
  by rewrite Ht0, Ht1, HE.
Qed.

Lemma C6_score_set_witness :
  let g := lateState in
  let final := λ p,
    getPile (Piles g) p
    ++ (if bool_decide (LastCapturerPlayerID g = p) then TableCards g
        else []) in
  isPlayer (LastCapturerPlayerID g)
  ∧ final 0 ++ final 1 ⊆+ spanishCards
  ∧ Forall counter [getInt (Escobas g) 0; getInt (Escobas g) 1;
                    getInt (Scores g) 0; getInt (Scores g) 1]
  ∧ (∃ g1 result,
       TableCards g1 = [] ∧ getPile (Piles g1) 0 = final 0
       ∧ LastSetResults g1 = Some result)
  ∧ ∃ g', scoreSet [reverse] g = Ret g'
          ∧ RoundTurnPlayerID g' = OpponentOf (RoundTurnPlayerID g).
Proof.
  intros g final.
  assert (isPlayer (LastCapturerPlayerID g)) as H1 by (by left).
  assert (final 0 ++ final 1 ⊆+ spanishCards) as H2.
  { apply NoDup_submseteq; [compute_done|].
    apply Forall_forall. compute_done. }
  assert (Forall counter [getInt (Escobas g) 0; getInt (Escobas g) 1;
                          getInt (Scores g) 0; getInt (Scores g) 1]) as H3.
  { repeat constructor; by vm_compute. }
  refine (conj H1 (conj H2 (conj H3 _))).
  destruct (C6_score_set [reverse] g H1 H2 H3) as (Hmain & _ & Hnext).
  split.
  - destruct Hmain as (g1 & result & Ht & Hp & _ & _ & _ & Hr & _).
    exists g1, result. exact (conj Ht (conj Hp Hr)).
  - destruct Hnext as (g' & Hg' & HR & _).
    + done.
    + repeat constructor. intros l. apply reverse_Permutation.
    + compute_done.
    + exists g'. exact (conj Hg' HR).
Defined.

(** ** C9: JSON round trips *)

(** C9, as stated, fails twice.  A snapshot read back has no deck:
    the field is not written, so the value differs from the original, and
    the throw that ends round 1, which the original answers by dealing
    round 2, panics on the value read back.  And an action whose name is
    not [throw_card] is written but refused when read back. *)
Lemma C9_counterexample :
  ∃ restored,
    server.Deserialize (server.NewMessageHeresGameState beforeRoundTwo)
    = Some restored
    ∧ restored ≠ beforeRoundTwo
    ∧ Deck restored = None
    ∧ RunAction reverseChance lastThrow beforeRoundTwo = Ret (None, roundTwo)
    ∧ RunAction reverseChance lastThrow restored = Panic
    ∧ DeserializeAction
        (SerializeAction (mkActionThrowCard "" (mkCard ORO 7) []))
      = inl (errUnknownActionType "").
Proof.
  exists (setDeck None beforeRoundTwo).
  assert (server.Deserialize (server.NewMessageHeresGameState beforeRoundTwo)
          = Some (setDeck None beforeRoundTwo)) as H1
    by (vm_compute; reflexivity).
  assert (setDeck None beforeRoundTwo ≠ beforeRoundTwo) as H2.
  { intros H. apply (f_equal Deck) in H. vm_compute in H. discriminate H. }
  assert (RunAction reverseChance lastThrow beforeRoundTwo
          = Ret (None, roundTwo)) as H3 by (vm_compute; reflexivity).
  assert (RunAction reverseChance lastThrow (setDeck None beforeRoundTwo)
          = Panic) as H4 by (vm_compute; reflexivity).
  exact (conj H1 (conj H2 (conj eq_refl (conj H3 (conj H4 eq_refl))))).
Qed.

(** C9: a card whose suit is ASCII text and whose number is an [int] is
    read back from its JSON as it was, suit and number.  An action named
    [throw_card], as the constructor names every action, is read back by
    [DeserializeAction] as it was: name, thrown card and captured cards in
    their order; an action of another name is refused with the unknown
    action type error.  A game state whose integers are [int]s and whose
    cards are such cards is read back from the server's message with every
    written field as it was and with no deck, which is not written. *)
Theorem C9_round_trips :
  (∀ c, goCard c → unmarshalCard (marshalCard c) = Some c)
  ∧ (∀ a, Name a = THROW_CARD →
          goCard (ThrownCard a) → Forall goCard (CapturedTableCards a) →
          DeserializeAction (SerializeAction a) = inr a)
  ∧ (∀ a, Name a ≠ THROW_CARD →
          DeserializeAction (SerializeAction a)
          = inl (errUnknownActionType (Name a)))
  ∧ (∀ g, goState g →
          server.Deserialize (server.NewMessageHeresGameState g)
          = Some (setDeck None g)).
Proof.
  split_and!.
  - apply unmarshalCard_marshalCard.
  - apply DeserializeAction_SerializeAction.
  - apply DeserializeAction_unknown.
  - intros g Hg. unfold server.Deserialize, server.NewMessageHeresGameState.
    cbn [server.GameState_]. by apply unmarshalGameState_marshalGameState.
Qed.

Lemma C9_round_trips_witness :
  goCard (mkCard ORO 7)
  ∧ unmarshalCard (marshalCard (mkCard ORO 7)) = Some (mkCard ORO 7)
  ∧ Name lastThrow = THROW_CARD
  ∧ goCard (ThrownCard lastThrow)
  ∧ Forall goCard (CapturedTableCards lastThrow)
  ∧ DeserializeAction (SerializeAction lastThrow) = inr lastThrow
  ∧ goState lateState
  ∧ server.Deserialize (server.NewMessageHeresGameState lateState)
    = Some (setDeck None lateState).
Proof.
  assert (goCard (mkCard ORO 7)) as H1 by compute_done.
  assert (goCard (ThrownCard lastThrow)) as H2 by compute_done.
  assert (Forall goCard (CapturedTableCards lastThrow)) as H3
    by compute_done.
  assert (goState lateState) as H4 by compute_done.
  destruct C9_round_trips as (Hcard & Haction & _ & Hstate).
  exact (conj H1 (conj (Hcard _ H1) (conj eq_refl (conj H2 (conj H3
           (conj (Haction lastThrow eq_refl H2 H3)
              (conj H4 (Hstate _ H4)))))))).
Defined.

(** * Further properties of the package *)

(** ** Cards and deck *)

(** X1: on the cards of the deck [GetEscobaValue] lies between 1 and 10,
    grows strictly with the number of the card, and so tells two numbers
    apart; the numbers 8 and 9, which the deck leaves out, would be worth 6
    and 7, like the 6 and the 7. *)
Theorem GetEscobaValue_deck c c' :
  validCard c → validCard c' →
  1 ≤ GetEscobaValue c ≤ 10
  ∧ (Number c < Number c' ↔ GetEscobaValue c < GetEscobaValue c')
  ∧ (GetEscobaValue c = GetEscobaValue c' ↔ Number c = Number c')
  ∧ GetEscobaValue (mkCard (Suit c) 8) = 6
  ∧ GetEscobaValue (mkCard (Suit c) 9) = 7.
Proof.
  intros Hc Hc'.
  pose proof (proj1 (Forall_forall _ _) spanishCards_numbers c Hc) as Hn.
  pose proof (proj1 (Forall_forall _ _) spanishCards_numbers c' Hc') as Hn'.
  simpl in Hn, Hn'. unfold GetEscobaValue.
  destruct (Z.leb_spec (Number c) 7), (Z.leb_spec (Number c') 7);
    rewrite ?sub_small by (unfold GoInt.in_range; lia);
    split_and!; try done; lia.
Qed.

Lemma GetEscobaValue_deck_witness :
  validCard (mkCard ORO 7) ∧ validCard (mkCard BASTO 10)
  ∧ GetEscobaValue (mkCard ORO 7) < GetEscobaValue (mkCard BASTO 10).
Proof.
  assert (validCard (mkCard ORO 7)) as H1 by compute_done.
  assert (validCard (mkCard BASTO 10)) as H2 by compute_done.
  refine (conj H1 (conj H2 _)).
  destruct (GetEscobaValue_deck _ _ H1 H2) as (_ & Hlt & _).
  apply (proj1 Hlt). simpl. lia.
Defined.

(** X2: whatever the shuffle, a new deck holds the forty cards once each:
    ten of each suit, their capture values adding up to 220. *)
Theorem newDeck_fair shuffle :
  fairShuffle shuffle →
  cards (newDeck shuffle) ≡ₚ spanishCards
  ∧ NoDup (cards (newDeck shuffle))
  ∧ length (cards (newDeck shuffle)) = 40%nat
  ∧ Forall (λ suit,
      length (filter (λ c, Suit c = suit) (cards (newDeck shuffle)))
      = 10%nat) suits
  ∧ cardSum (cards (newDeck shuffle)) = 220.
Proof.
  intros Hfair. unfold newDeck, makeSpanishCards. simpl.
  pose proof (Hfair spanishCards) as Hperm.
  split_and!.
  - done.
  - rewrite Hperm. apply spanishCards_NoDup.
  - by rewrite Hperm.
  - apply Forall_forall. intros suit Hsuit. rewrite Hperm.
    revert suit Hsuit. apply Forall_forall. compute_done.
  - by rewrite (cardSum_Permutation _ _ Hperm).
Qed.

Lemma newDeck_fair_witness :
  fairShuffle reverse
  ∧ length (cards (newDeck reverse)) = 40%nat
  ∧ cardSum (cards (newDeck reverse)) = 220.
Proof.
  assert (fairShuffle reverse) as H by (intros l; apply reverse_Permutation).
  refine (conj H _).
  destruct (newDeck_fair reverse H) as (_ & _ & Hlen & _ & Hsum).
  exact (conj Hlen Hsum).
Defined.

(** X3: [dealHand] takes the first three cards of the deck, or all of them
    when fewer are left, in their order, and leaves the rest; on an empty
    deck it deals an empty hand. *)
Theorem dealHand_split d :
  Cards (dealHand d).1 ++ cards (dealHand d).2 = cards d
  ∧ length (Cards (dealHand d).1) = (length (cards d) `min` 3)%nat
  ∧ length (cards (dealHand d).2) = (length (cards d) - 3)%nat
  ∧ (cards d = [] → Cards (dealHand d).1 = [] ∧ cards (dealHand d).2 = []).
Proof.
  rewrite dealHand_take_drop. simpl. split_and!.
  - apply take_drop.
  - rewrite length_take. lia.
  - apply length_drop.
  - by intros ->.
Qed.

(** X4: on cards of the deck [sumCards] adds the capture values up without
    wrapping around: the sum does not depend on the order of the cards and
    lies between the number of cards and ten times that number. *)
Theorem sumCards_deck cs cs' :
  Forall validCard cs → lenZ cs < 2 ^ 32 → cs ≡ₚ cs' →
  sumCards cs = cardSum cs
  ∧ sumCards cs' = sumCards cs
  ∧ lenZ cs ≤ sumCards cs ≤ 10 * lenZ cs.
Proof.
  intros Hvalid Hlen Hperm.
  assert (Forall validCard cs') as Hvalid' by by rewrite <-Hperm.
  assert (lenZ cs' = lenZ cs) as Hlen' by (unfold lenZ; by rewrite Hperm).
  rewrite !sumCards_cardSum by (done || lia).
  split; [done|]. split; [symmetry; by apply cardSum_Permutation|].
  clear Hperm Hvalid' Hlen' Hlen cs'. unfold lenZ, cardSum.
  induction Hvalid as [|c cs Hc _ IH]; simpl; [lia|].
  apply validCard_value in Hc. lia.
Qed.

Lemma sumCards_deck_witness :
  sumCards [mkCard ORO 12; mkCard COPA 5] = 15
  ∧ sumCards [mkCard COPA 5; mkCard ORO 12] = 15.
Proof.
  assert (Forall validCard [mkCard ORO 12; mkCard COPA 5]) as H1
    by compute_done.
  assert (lenZ [mkCard ORO 12; mkCard COPA 5] < 2 ^ 32) as H2 by done.
  assert ([mkCard ORO 12; mkCard COPA 5] ≡ₚ [mkCard COPA 5; mkCard ORO 12])
    as H3 by apply Permutation_swap.
  destruct (sumCards_deck _ _ H1 H2 H3) as (Hsum & Hswap & _).
  split; [exact Hsum|]. rewrite Hswap. exact Hsum.
Defined.

(** X5: [OpponentOf] always answers with a player: the other one for a
    player, player 0 for any other number. *)
Theorem OpponentOf_players p :
  isPlayer (OpponentOf p)
  ∧ (isPlayer p → OpponentOf p ≠ p ∧ OpponentOf (OpponentOf p) = p)
  ∧ (¬ isPlayer p → OpponentOf p = 0).
Proof.
  unfold OpponentOf, isPlayer. destruct (Z.eqb_spec p 0) as [->|Hp].
  - split; [by right|]. split; [done|]. intros []. by left.
  - split; [by left|]. split; [|done].
    intros [?| ->]; [done|]. done.
Qed.

(** ** A new set *)

(** X6: [startNewSet] starts from a fresh deck whatever the last set left
    behind: the scores, the dealer and the history are kept; table, piles
    and escobas are reset; the first six cards of the deck go to the two
    hands and the next four to the table, which leaves thirty; the dealer
    is to move and is last capturer in round 1.  When the four table cards
    add up to 15 the dealer's pile is those four cards, with one escoba,
    and the table is empty; otherwise both piles are empty and no escoba is
    counted. *)
Theorem startNewSet_reset shuffle shs g :
  fairShuffle shuffle → isPlayer (RoundTurnPlayerID g) →
  let d := shuffle spanishCards in
  let dealer := RoundTurnPlayerID g in
  let dealt := take 4 (drop 6 d) in
  ∃ g', startNewSet (shuffle :: shs) g = Ret g'
    ∧ RoundNumber g' = 1
    ∧ RoundTurnPlayerID g' = dealer ∧ TurnPlayerID g' = dealer
    ∧ LastCapturerPlayerID g' = dealer
    ∧ Scores g' = Scores g ∧ IsEnded g' = IsEnded g
    ∧ Actions g' = Actions g
    ∧ SetJustStarted g' = true ∧ SetFinished g' = false
    ∧ handCards g' 0 = take 3 d ∧ handCards g' 1 = take 3 (drop 3 d)
    ∧ deckCards g' = drop 10 d ∧ length (deckCards g') = 30%nat
    ∧ length dealt = 4%nat
    ∧ (cardSum dealt = 15 →
       TableCards g' = []
       ∧ getPile (Piles g') dealer = dealt
       ∧ getPile (Piles g') (OpponentOf dealer) = []
       ∧ getInt (Escobas g') dealer = 1
       ∧ getInt (Escobas g') (OpponentOf dealer) = 0)
    ∧ (cardSum dealt ≠ 15 →
       TableCards g' = dealt
       ∧ getPile (Piles g') 0 = [] ∧ getPile (Piles g') 1 = []
       ∧ getInt (Escobas g') 0 = 0 ∧ getInt (Escobas g') 1 = 0).
Proof.
  intros Hfair Hdealer d dealer dealt.
  pose proof (Hfair spanishCards) as Hperm. fold d in Hperm.
  assert (length d = 40%nat) as Hlen by by rewrite Hperm.
  assert (sumCards dealt = cardSum dealt) as Hsum.
  { apply sumCards_cardSum.
    - apply Forall_forall. intros c Hc. unfold validCard. rewrite <-Hperm.
      subst dealt. by apply subseteq_take, subseteq_drop in Hc.
    - subst dealt. unfold lenZ. rewrite length_take. lia. }
  unfold startNewSet, startNewSetWith. cbv zeta. rewrite startNewRound_eq.
  cbv zeta. unfold deckOf, newDeck, makeSpanishCards. simpl. fold d.
  destruct (Z.leb_spec 6 (lenZ d)); [|unfold lenZ in *; lia].
  unfold dealRound. rewrite !dealHand_take_drop. cbv beta iota zeta.
  rewrite dealTable_take_drop. simpl. rewrite !drop_drop. simpl.
  fold dealt. rewrite Hsum.
  match goal with |- ∃ g', (?m ≫= _) = _ ∧ _ =>
    destruct (CalculatePossibleActions_Ret
      ltac:(match m with CalculatePossibleActions ?g => exact g end))
      as [actions Hactions] end.
  { destruct (_ =? 15); state_simp; destruct Hdealer as [-> | ->];
      map_simp; eauto. }
  rewrite Hactions. simpl. eexists. split; [done|].
  assert (length dealt = 4%nat) as Hl4.
  { subst dealt. rewrite length_take, length_drop. lia. }
  destruct (Z.eqb_spec (cardSum dealt) 15) as [Hfifteen|Hfifteen];
    state_simp; (split_and!; try done);
    try (rewrite length_drop; lia).
  intros _. subst dealer. unfold OpponentOf.
  destruct Hdealer as [-> | ->]; simpl; map_simp; by split_and!.
Qed.

Lemma startNewSet_reset_witness :
  fairShuffle reverse ∧ isPlayer (RoundTurnPlayerID roundTwo)
  ∧ ∃ g', startNewSet [reverse] roundTwo = Ret g'
          ∧ RoundNumber g' = 1 ∧ Scores g' = Scores roundTwo
          ∧ length (deckCards g') = 30%nat.
Proof.
  assert (fairShuffle reverse) as H1 by (intros l; apply reverse_Permutation).
  assert (isPlayer (RoundTurnPlayerID roundTwo)) as H2 by (by left).
  refine (conj H1 (conj H2 _)).
  destruct (startNewSet_reset reverse [] roundTwo H1 H2)
    as (g' & Hg' & HN & _ & _ & _ & HS & _ & _ & _ & _ & _ & _ & _ & HL & _).
  exists g'. exact (conj Hg' (conj HN (conj HS HL))).
Defined.

(** ** Legal actions, advertised and chosen *)

(** X7: while a game runs, the state advertises exactly its legal actions:
    [PossibleActions] holds, in order, the serialized actions that
    [CalculatePossibleActions] enumerates, there is at least one, and each
    of them is read back by [DeserializeAction] as an action that
    [IsPossible] accepts. *)
Theorem advertised_actions_legal g :
  Reachable g → IsEnded g = false →
  ∃ actions,
    CalculatePossibleActions g = Ret actions
    ∧ actions ≠ []
    ∧ PossibleActions g = _serializeActions actions
    ∧ Forall2 (λ bs a, DeserializeAction bs = inr a
                       ∧ IsPossible a g = Ret true)
              (PossibleActions g) actions.
Proof.
  intros Hreach Hended. pose proof (Reachable_Inv g Hreach) as Hinv.
  destruct (Reachable_advertised g Hreach Hended) as (actions & Hactions & Hadv).
  destruct (enumerated_possible g Hinv Hended)
    as (actions' & Hactions' & Hne & Hall).
  rewrite Hactions in Hactions'. injection Hactions' as <-.
  exists actions. split; [done|]. split; [done|].
  rewrite serializeActions_fmap. split; [done|].
  rewrite Hadv. apply Forall2_fmap_l, Forall_Forall2_diag.
  eapply Forall_impl; [exact Hall|].
  intros a (Hname & Hcard & Hcaptured & Hposs). split; [|done].
  apply DeserializeAction_SerializeAction; [done|by apply validCard_goCard|].
  eapply Forall_impl; [exact Hcaptured|]. apply validCard_goCard.
Qed.

Lemma advertised_actions_legal_witness :
  Reachable beforeRoundTwo ∧ IsEnded beforeRoundTwo = false
  ∧ ∃ actions,
      CalculatePossibleActions beforeRoundTwo = Ret actions
      ∧ PossibleActions beforeRoundTwo = _serializeActions actions.
Proof.
  refine (conj beforeRoundTwo_Reachable (conj eq_refl _)).
  destruct (advertised_actions_legal beforeRoundTwo beforeRoundTwo_Reachable
              eq_refl) as (actions & H1 & _ & H2 & _).
  exists actions. exact (conj H1 H2).
Defined.

(** X8: a legal throw is recorded: [RunAction] appends the serialized
    action to [Actions] and the player who threw to
    [ActionOwnerPlayerIDs], also when the throw ends the round, the set or
    the game; unless the throw was the last card of the round, the turn
    passes to the opponent in the same round, and the flags of a round or
    set that has just started are cleared. *)
Theorem RunAction_records c a g :
  fairChance c → Reachable g → IsEnded g = false →
  IsPossible a g = Ret true →
  ∃ g', RunAction c a g = Ret (None, g')
    ∧ Actions g' = Actions g ++ [SerializeAction a]
    ∧ ActionOwnerPlayerIDs g' = ActionOwnerPlayerIDs g ++ [TurnPlayerID g]
    ∧ ((length (handCards g 0) + length (handCards g 1) ≠ 1)%nat →
       TurnPlayerID g' = OpponentOf (TurnPlayerID g)
       ∧ RoundNumber g' = RoundNumber g
       ∧ RoundJustStarted g' = false ∧ SetJustStarted g' = false).
Proof.
  intros Hc Hinv%Reachable_Inv Hended Hposs.
  destruct (RunAction_legal c a g Hc Hinv Hended Hposs) as (g' & Hg' & _).
  exists g'. split; [done|]. by apply (RunAction_history c).
Qed.

Lemma RunAction_records_witness :
  fairChance reverseChance ∧ Reachable beforeRoundTwo
  ∧ IsEnded beforeRoundTwo = false
  ∧ IsPossible lastThrow beforeRoundTwo = Ret true
  ∧ ∃ g', RunAction reverseChance lastThrow beforeRoundTwo = Ret (None, g')
      ∧ ActionOwnerPlayerIDs g'
        = ActionOwnerPlayerIDs beforeRoundTwo ++ [TurnPlayerID beforeRoundTwo].
Proof.
  assert (IsPossible lastThrow beforeRoundTwo = Ret true) as Hposs
    by (vm_compute; reflexivity).
  refine (conj reverseChance_fair (conj beforeRoundTwo_Reachable
            (conj eq_refl (conj Hposs _)))).
  destruct (RunAction_records reverseChance lastThrow beforeRoundTwo
              reverseChance_fair beforeRoundTwo_Reachable eq_refl Hposs)
    as (g' & H1 & _ & H2 & _).
  exists g'. exact (conj H1 H2).
Defined.

(** X9: while a game runs the bot never answers nil and never indexes
    outside the enumeration: whatever number [rand.Intn] draws,
    [ChooseAction] returns one of the legal actions, and [RunAction]
    accepts it without an error. *)
Theorem ChooseAction_accepted c intn g :
  fairChance c → fairIntn intn → Reachable g → IsEnded g = false →
  ∃ actions a g',
    CalculatePossibleActions g = Ret actions
    ∧ ChooseAction intn g = Ret (Some a)
    ∧ a ∈ actions
    ∧ IsPossible a g = Ret true
    ∧ RunAction c a g = Ret (None, g')
    ∧ Reachable g'.
Proof.
  intros Hc Hintn Hreach Hended. pose proof (Reachable_Inv g Hreach) as Hinv.
  destruct (enumerated_possible g Hinv Hended)
    as (actions & Hactions & Hne & Hall).
  assert (0 < lenZ actions) as Hpos.
  { unfold lenZ. destruct actions; [done|simpl; lia]. }
  destruct (Hintn _ Hpos) as [Hlo Hhi].
  destruct (lookup_lt_is_Some_2 actions (Z.to_nat (intn (lenZ actions))))
    as [a Ha].
  { unfold lenZ in *. lia. }
  assert (IsPossible a g = Ret true) as Hposs.
  { apply list_elem_of_lookup_2 in Ha.
    by eapply Forall_forall in Hall as (_ & _ & _ & Hposs). }
  destruct (RunAction_legal c a g Hc Hinv Hended Hposs) as (g' & Hg' & _).
  exists actions, a, g'. split; [done|]. split.
  { unfold ChooseAction. rewrite Hactions. simpl.
    destruct (Z.eqb_spec (lenZ actions) 0); [lia|].
    destruct (Z.ltb_spec (intn (lenZ actions)) 0); [lia|].
    by rewrite Ha. }
  split; [by eapply list_elem_of_lookup_2|]. split; [done|]. split; [done|].
  by eapply Reachable_RunAction.
Qed.

Lemma ChooseAction_accepted_witness :
  fairChance reverseChance ∧ fairIntn (λ n, n - 1)
  ∧ Reachable openingState ∧ IsEnded openingState = false
  ∧ ∃ a g', ChooseAction (λ n, n - 1) openingState = Ret (Some a)
            ∧ RunAction reverseChance a openingState = Ret (None, g').
Proof.
  assert (fairIntn (λ n, n - 1)) as Hintn by (intros n Hn; lia).
  refine (conj reverseChance_fair (conj Hintn (conj openingState_Reachable
            (conj eq_refl _)))).
  destruct (ChooseAction_accepted reverseChance (λ n, n - 1) openingState
              reverseChance_fair Hintn openingState_Reachable eq_refl)
    as (actions & a & g' & _ & H1 & _ & _ & H2 & _).
  exists a, g'. exact (conj H1 H2).
Defined.

(** ** The end of the game *)

(** X10: when the scoring of a set takes a score to 15 or more, [scoreSet]
    returns an ended game without starting a set; [IsDraw] answers true
    exactly when the two scores are equal; a player is the winner exactly
    when their score is strictly the higher one, and a winner's score is at
    least 15; scoring never lowers a score. *)
Theorem scoreSet_game_end shs g :
  let final := λ p,
    getPile (Piles g) p
    ++ (if bool_decide (LastCapturerPlayerID g = p) then TableCards g
        else []) in
  let points := λ p,
    specPoints (getInt (Escobas g) p) (final p) (final (OpponentOf p)) in
  let total := λ p, getInt (Scores g) p + points p in
  isPlayer (LastCapturerPlayerID g) →
  final 0 ++ final 1 ⊆+ spanishCards →
  Forall counter [getInt (Escobas g) 0; getInt (Escobas g) 1;
                  getInt (Scores g) 0; getInt (Scores g) 1] →
  15 ≤ total 0 ∨ 15 ≤ total 1 →
  ∃ g', scoreSet shs g = Ret g'
    ∧ IsEnded g' = true
    ∧ getInt (Scores g') 0 = total 0 ∧ getInt (Scores g') 1 = total 1
    ∧ (IsDraw g' = true ↔ total 0 = total 1)
    ∧ (∀ p, isPlayer p →
         (WinnerPlayerID g' = p ↔ total (OpponentOf p) < total p)
         ∧ (WinnerPlayerID g' = p → 15 ≤ total p)
         ∧ getInt (Scores g) p ≤ total p).
Proof.
  intros final points total Hcapt Hdeck Hcounters Hover.
  assert (∀ p, isPlayer p → getInt (Scores g) p ≤ total p) as Hmono.
  { apply Forall_cons in Hcounters as [He0 Hcounters].
    apply Forall_cons in Hcounters as [He1 _].
    intros p Hp. subst total points. cbv beta. unfold specPoints.
    assert (0 ≤ getInt (Escobas g) p) as He
      by (destruct Hp as [-> | ->]; unfold counter in *; lia).
    repeat match goal with |- context [point ?b] =>
      pose proof (point_bound b); generalize dependent (point b); intros end.
    lia. }
  pose proof (Hmono 0 ltac:(by left)) as Hm0.
  pose proof (Hmono 1 ltac:(by right)) as Hm1.
  destruct (scoreSet_spec shs g Hcapt Hdeck Hcounters)
    as (g1 & result & _ & _ & _ & Ht0 & Ht1 & _ & _ & _ & _ & _ & _ & Hscore).
  pose proof Ht0 as Hf0. change (getInt (Scores g1) 0 = total 0) in Hf0.
  pose proof Ht1 as Hf1. change (getInt (Scores g1) 1 = total 1) in Hf1.
  rewrite <-Ht0, <-Ht1 in Hscore. clear Ht0 Ht1 Hmono.
  rewrite <-Hf0 in Hm0. rewrite <-Hf1 in Hm1. rewrite <-Hf0, <-Hf1 in Hover.
  rewrite Hscore, bool_decide_eq_true_2 by done.
  eexists. split; [done|]. split; [done|].
  unfold IsDraw. simpl. rewrite <-Hf0, <-Hf1.
  split; [done|]. split; [done|].
  set (s0 := getInt (Scores g1) 0) in *.
  set (s1 := getInt (Scores g1) 1) in *. clearbody s0 s1.
  split.
  - repeat case_bool_decide; simpl; split; intros; lia.
  - intros p [-> | ->]; unfold OpponentOf; simpl; rewrite <-?Hf0, <-?Hf1;
      repeat case_bool_decide; (split; [split|split]); intros; lia.
Qed.

Lemma scoreSet_game_end_witness :
  let g := setScores (<[1 := 3]> (<[0 := 15]> ∅)) lateState in
  ∃ g', scoreSet [] g = Ret g' ∧ IsEnded g' = true ∧ IsDraw g' = false.
Proof.
  intros g.
  assert (isPlayer (LastCapturerPlayerID g)) as H1 by (by left).
  assert ((getPile (Piles g) 0
           ++ (if bool_decide (LastCapturerPlayerID g = 0) then TableCards g
               else []))
          ++ (getPile (Piles g) 1
              ++ (if bool_decide (LastCapturerPlayerID g = 1)
                  then TableCards g else []))
          ⊆+ spanishCards) as H2.
  { apply NoDup_submseteq; [compute_done|].
    apply Forall_forall. compute_done. }
  assert (Forall counter [getInt (Escobas g) 0; getInt (Escobas g) 1;
                          getInt (Scores g) 0; getInt (Scores g) 1]) as H3.
  { repeat constructor; by vm_compute. }
  destruct (scoreSet_game_end [] g H1 H2 H3) as (g' & Hg' & He & _ & _ & Hd & _).
  { left. vm_compute. discriminate. }
  exists g'. split; [done|]. split; [done|].
  destruct (IsDraw g'); [|done].
  destruct Hd as [Hd _]. specialize (Hd eq_refl). vm_compute in Hd.
  discriminate Hd.
Defined.

(** ** What holds in every state of a game *)

(** X11: in every state that [New] and [RunAction] reach, the player to
    move, the dealer and the last capturer are players 0 or 1, both hands
    and the deck are there, and, while the game runs, no round or set is
    left finished and the player to move holds a card: as many as the
    opponent on the dealer's turn, one more on the opponent's. *)
Theorem Reachable_players g :
  Reachable g →
  isPlayer (TurnPlayerID g) ∧ isPlayer (RoundTurnPlayerID g)
  ∧ isPlayer (LastCapturerPlayerID g)
  ∧ present g 0 ∧ present g 1 ∧ is_Some (Deck g)
  ∧ (IsEnded g = false →
     RoundFinished g = false ∧ SetFinished g = false
     ∧ handCards g (TurnPlayerID g) ≠ []
     ∧ length (handCards g (TurnPlayerID g))
       = if bool_decide (TurnPlayerID g = RoundTurnPlayerID g)
         then length (handCards g (OpponentOf (TurnPlayerID g)))
         else S (length (handCards g (OpponentOf (TurnPlayerID g))))).
Proof.
  intros [H0 H1 Hd _ Ht Hr Hc Hrun]%Reachable_Inv.
  split_and!; try done.
  intros (Hrf & Hsf & Hbal)%Hrun. split; [done|]. split; [done|].
  split; [by apply balanced_nonempty|].
  unfold balanced in Hbal. by case_bool_decide; [destruct Hbal|].
Qed.

Lemma Reachable_players_witness :
  Reachable beforeRoundTwo
  ∧ TurnPlayerID beforeRoundTwo = 1
  ∧ length (handCards beforeRoundTwo 1) = 1%nat
  ∧ length (handCards beforeRoundTwo 0) = 0%nat.
Proof.
  refine (conj beforeRoundTwo_Reachable _).
  destruct (Reachable_players beforeRoundTwo beforeRoundTwo_Reachable)
    as (_ & _ & _ & _ & _ & _ & Hrun).
  destruct (Hrun eq_refl) as (_ & _ & _ & Hlen).
  split; [reflexivity|]. split; [exact Hlen|reflexivity].
Defined.

(** ** The table after a capture *)

(** X12: [removeCardsFromTable] goes through a map keyed by card: whatever
    order the map is ranged over, the result holds no card twice, even
    when the table did, and holds exactly the table cards that are not to
    be removed; removing cards that are not on a table without duplicates
    rearranges that table at most. *)
Theorem removeCardsFromTable_set order tableCards toRemove :
  fairShuffle order →
  NoDup (removeCardsFromTable order tableCards toRemove)
  ∧ (∀ x, x ∈ removeCardsFromTable order tableCards toRemove
          ↔ x ∈ tableCards ∧ x ∉ toRemove)
  ∧ (length (removeCardsFromTable order tableCards toRemove)
     ≤ length tableCards)%nat
  ∧ (NoDup tableCards → (∀ x, x ∈ toRemove → x ∉ tableCards) →
     removeCardsFromTable order tableCards toRemove ≡ₚ tableCards).
Proof.
  intros Horder.
  pose proof (NoDup_removeCardsFromTable order tableCards toRemove Horder)
    as Hnd.
  pose proof (elem_of_removeCardsFromTable order tableCards toRemove)
    as Hin.
  split; [done|]. split; [intros x; by apply Hin|]. split.
  - apply submseteq_length, NoDup_submseteq; [done|].
    intros x Hx. by apply Hin in Hx as [Hx _].
  - intros Htable Hout. apply NoDup_Permutation; [done..|].
    intros x. rewrite Hin by done. naive_solver.
Qed.

Lemma removeCardsFromTable_set_witness :
  fairShuffle reverse
  ∧ NoDup (removeCardsFromTable reverse
             [mkCard ORO 1; mkCard ORO 1; mkCard COPA 2] [mkCard COPA 2]).
Proof.
  assert (fairShuffle reverse) as H by (intros l; apply reverse_Permutation).
  refine (conj H _).
  exact (proj1 (removeCardsFromTable_set reverse
                  [mkCard ORO 1; mkCard ORO 1; mkCard COPA 2] [mkCard COPA 2]
                  H)).
Defined.

(** X13: the throw that ends the game leaves the advertised actions as
    they were: [RunAction] returns from the round start without coming to
    its last line, so an ended game still lists the actions that were
    legal before the last throw, and [RunAction] refuses them all. *)
Theorem RunAction_last_throw c a g g' :
  fairChance c → Reachable g → IsEnded g = false →
  RunAction c a g = Ret (None, g') → IsEnded g' = true →
  PossibleActions g' = PossibleActions g
  ∧ PossibleActions g' ≠ []
  ∧ ∀ a', RunAction c a' g' = Ret (Some errGameIsEnded, g').
Proof.
  intros Hc Hreach Hended Hrun Hended'.
  pose proof (Reachable_Inv g Hreach) as Hinv.
  assert (PossibleActions g ≠ []) as Hsome.
  { destruct (Reachable_advertised g Hreach Hended) as (actions & Hactions & ->).
    destruct (enumerated_possible g Hinv Hended)
      as (actions' & Hactions' & Hne & _).
    rewrite Hactions in Hactions'. injection Hactions' as <-.
    by destruct actions. }
  assert (PossibleActions g' = PossibleActions g) as Hsame.
  { destruct (RunAction_cases c a g Hc Hinv)
      as [[He _]|[(_ & _ & Hg')|(_ & Hposs & _)]].
    - congruence.
    - rewrite Hg' in Hrun. discriminate Hrun.
    - destruct (RunAction_trace c a g Hc Hinv Hended Hposs)
        as (g1 & g'' & HRun & Hg'' & _ & Hcases).
      rewrite Hrun in Hg''. injection Hg'' as <-.
      assert (PossibleActions g1 = PossibleActions g
              ∧ IsEnded g1 = IsEnded g) as [HP HE].
      { revert HRun. unfold Run. destruct (handOf _ _); simpl; [|done..].
        intros [= <-].
        repeat match goal with |- context [if ?b then _ else _] =>
          destruct b end; by split. }
      destruct Hcases as [(_ & _ & Hstart)|(_ & actions & _ & ->)].
      + apply startNewRound_ended in Hstart; [|simpl; congruence|done].
        rewrite Hstart. simpl. exact HP.
      + simpl in Hended'. congruence. }
  split; [done|]. split; [by rewrite Hsame|].
  intros a'. unfold RunAction. by rewrite Hended'.
Qed.

Lemma RunAction_last_throw_witness :
  fairChance reverseChance ∧ Reachable matchPoint
  ∧ IsEnded matchPoint = false
  ∧ RunAction reverseChance finalThrow matchPoint = Ret (None, gameOver)
  ∧ IsEnded gameOver = true
  ∧ PossibleActions gameOver = PossibleActions matchPoint
  ∧ RunAction reverseChance finalThrow gameOver
    = Ret (Some errGameIsEnded, gameOver).
Proof.
  assert (RunAction reverseChance finalThrow matchPoint = Ret (None, gameOver))
    as Hrun by (vm_compute; reflexivity).
  refine (conj reverseChance_fair (conj matchPoint_Reachable
            (conj eq_refl (conj Hrun (conj eq_refl _))))).
  destruct (RunAction_last_throw reverseChance finalThrow matchPoint gameOver
              reverseChance_fair matchPoint_Reachable eq_refl Hrun eq_refl)
    as (Hsame & _ & Hrefused).
  exact (conj Hsame (Hrefused finalThrow)).
Defined.
